(** * Coverage evaluation engine: a shallow embedding of
    [src/core/evaluation/coverage_evaluation.py]

    The module scores how well a set of question/answer pairs covers a
    document, in two stages: a lexical stage (MinHash sketches queried through
    an LSH index) and a semantic stage (knowledge points, priorities, weighted
    coverage and gaps).

    Conventions of the embedding.
    - A Python [str] is a list of Unicode code points ([str := list N]); [len]
      is [length], slicing [s[:n]] is [take n], concatenation is [++].
    - A finite Python [float] is a rational: rates, weights and similarity
      scores are values of [Q].  The weights of the source (1.5 and 1.0) and
      their sums are dyadic, and a quotient [a / b] with [0 <= a <= b] rounds
      into the unit interval, so the order facts proved on [Q] are those of
      the floating point results.
    - A [dict] is a [gmap], a [set] a [gset]; a dict whose keys are exactly
      [0 .. n-1], inserted in that order, is a list read with [!!].
    - A function that can raise returns a [result].
    - Logging, the heat map image and the JSON files written to the output
      directory are effects outside the embedding; the values they are
      written from are modelled. *)

From Stdlib Require Import QArith Qminmax Lqa.
From stdpp Require Import base option list sorting gmap fin_sets fin_maps pretty.

Set Default Proof Using "Type".
#[local] Set Warnings "-clear-no-such-hyp".
Local Open Scope nat_scope.

(** ** Python preliminaries *)

Module Py.

(** [str]: a sequence of code points. *)
Definition str : Type := list N.

(** An ASCII literal read as a [str]. *)
Definition lit (s : string) : str :=
  Ascii.N_of_ascii <$> String.list_ascii_of_string s.

(** [str(n)] for a non-negative integer. *)
Definition str_of_nat (n : nat) : str := lit (pretty n).

Definition LF : N := 10%N.
Definition SPACE : N := 32%N.

(** [str.isspace] on one code point; it is also what [\s] matches in a
    [str] pattern. *)
Definition isspace (c : N) : bool :=
  ((9 <=? c) && (c <=? 13) || (28 <=? c) && (c <=? 32)
   || (c =? 133) || (c =? 160) || (c =? 5760)
   || (8192 <=? c) && (c <=? 8202) || (c =? 8232) || (c =? 8233)
   || (c =? 8239) || (c =? 8287) || (c =? 12288))%N.

Fixpoint dropwhile (f : N → bool) (s : str) : str :=
  match s with
  | c :: s' => if f c then dropwhile f s' else s
  | [] => []
  end.

Fixpoint takewhile (f : N → bool) (s : str) : str :=
  match s with
  | c :: s' => if f c then c :: takewhile f s' else []
  | [] => []
  end.

(** [s.strip()] *)
Definition strip (s : str) : str :=
  reverse (dropwhile isspace (reverse (dropwhile isspace s))).

(** [re.sub(r'\s+', ' ', s)]: every maximal run of white space becomes one
    space. *)
Fixpoint re_sub_ws (s : str) : str :=
  match s with
  | [] => []
  | c :: s' =>
      if isspace c then
        match s' with
        | c' :: _ => if isspace c' then re_sub_ws s' else SPACE :: re_sub_ws s'
        | [] => [SPACE]
        end
      else c :: re_sub_ws s'
  end.

(** [s.split(sep)] and [re.split(sep, s)] for a one-character separator. *)
Fixpoint split_on (sep : N) (s : str) : list str :=
  match s with
  | [] => [[]]
  | c :: s' =>
      if (c =? sep)%N then [] :: split_on sep s'
      else match split_on sep s' with
           | p :: ps => (c :: p) :: ps
           | [] => [[c]]
           end
  end.

(** The part of a white-space run after its last line feed, if it has one. *)
Fixpoint after_last_LF (ws : str) : option str :=
  match ws with
  | [] => None
  | c :: ws' =>
      match after_last_LF ws' with
      | Some t => Some t
      | None => if (c =? LF)%N then Some ws' else None
      end
  end.

(** The pattern [\n\s*\n] matched at the head of [s]: the greedy [\s*] takes
    the whole run of white space and backtracks to its last line feed.  The
    result is what remains of [s] after the match. *)
Definition match_blank (s : str) : option str :=
  match s with
  | c :: t =>
      if (c =? LF)%N
      then (λ tl, tl ++ dropwhile isspace t) <$> after_last_LF (takewhile isspace t)
      else None
  | [] => None
  end.

(** [re.split(r'\n\s*\n', s)]: scan from the left, cut at each match.  Every
    step consumes a character, so [S (length s)] units of fuel suffice. *)
Fixpoint re_split_blank_go (fuel : nat) (cur : str) (s : str) : list str :=
  match fuel with
  | 0 => [cur ++ s]
  | S fuel' =>
      match match_blank s with
      | Some rest => cur :: re_split_blank_go fuel' [] rest
      | None =>
          match s with
          | [] => [cur]
          | c :: s' => re_split_blank_go fuel' (cur ++ [c]) s'
          end
      end
  end.

Definition re_split_blank (s : str) : list str :=
  re_split_blank_go (S (length s)) [] s.

Fixpoint startswith (p s : str) : bool :=
  match p, s with
  | [], _ => true
  | a :: p', b :: s' => (a =? b)%N && startswith p' s'
  | _ :: _, [] => false
  end.

(** [needle in s] *)
Fixpoint contains (needle s : str) : bool :=
  startswith needle s ||
  match s with
  | [] => false
  | _ :: s' => contains needle s'
  end.

(** Exceptions and results. *)
Inductive exn : Type := ZeroDivisionError | TypeError.

Inductive result (A : Type) : Type :=
| Ok (a : A)
| Raise (e : exn).
Arguments Ok {A} a.
Arguments Raise {A} e.

Global Instance result_ret : MRet result := @Ok.
Global Instance result_bind : MBind result := λ A B k r,
  match r with
  | Ok a => k a
  | Raise e => Raise e
  end.


(** [a / b] on two [int]s: true division, raising on a zero divisor. *)
Definition true_div (a b : nat) : result Q :=
  match b with
  | 0 => Raise ZeroDivisionError
  | S _ => Ok (inject_Z (Z.of_nat a) / inject_Z (Z.of_nat b))%Q
  end.

(** [x / y] where an operand is a [float]: raising on a zero divisor too. *)
Definition float_div (x y : Q) : result Q :=
  if Qeq_bool y 0 then Raise ZeroDivisionError else Ok (x / y)%Q.

(** [enumerate(l)] *)
Definition enumerate {A} (l : list A) : list (nat * A) := imap pair l.

(** [sorted(l, key=key)]: Python's sort is stable; it is modelled by a stable
    insertion sort ([x] goes before the first element whose key is not
    smaller). *)
Fixpoint insert_by {A} (key : A → nat) (x : A) (l : list A) : list A :=
  match l with
  | [] => [x]
  | y :: l' => if key x <=? key y then x :: l else y :: insert_by key x l'
  end.

Definition sorted {A} (key : A → nat) (l : list A) : list A :=
  foldr (insert_by key) [] l.

(** [d[k].append(v)] on a [defaultdict(list)] *)
Definition dd_append `{Countable K} {V} (k : K) (v : V)
    (d : gmap K (list V)) : gmap K (list V) :=
  <[k := default [] (d !! k) ++ [v]]> d.

(** [d.get(k, [])] *)
Definition dd_get `{Countable K} {V} (k : K) (d : gmap K (list V)) : list V :=
  default [] (d !! k).

(** [d[k].add(v)] on a [defaultdict(set)] *)
Definition ds_add `{Countable K} `{Countable V} (k : K) (v : V)
    (d : gmap K (gset V)) : gmap K (gset V) :=
  <[k := default ∅ (d !! k) ∪ {[v]}]> d.

(** No key of the dict holds an empty list. *)
Definition no_empty {K} `{Countable K} {V} (d : gmap K (list V)) : Prop :=
  ∀ k l, d !! k = Some l → l ≠ [].

(** [p] occurs in [s] as a contiguous part. *)
Definition substring_of (p s : str) : Prop := ∃ pre post, s = pre ++ p ++ post.

(** What the spec calls collapsing white-space runs, stated for itself:
    [n] is [s] with every maximal run of white-space characters replaced by
    one space and every other character kept. *)
Inductive collapse_spec : str → str → Prop :=
  | collapse_nil : collapse_spec [] []
  | collapse_char c s n :
      isspace c = false → collapse_spec s n → collapse_spec (c :: s) (c :: n)
  | collapse_run w s n :
      w ≠ [] → Forall (λ c, isspace c = true) w →
      (∀ c, head s = Some c → isspace c = false) →
      collapse_spec s n → collapse_spec (w ++ s) (SPACE :: n).

End Py.
Export Py.


(** ** External collaborators

    The tokenizer, the hash family of the sketches, the choice of the LSH
    bands, Unicode lower-casing and the spaCy pipeline are not code of the
    module; the engine is parameterised by them. *)

Class Collaborators := {
  (** [jieba.cut] *)
  jieba_cut : str → list str;
  (** the [i]-th permuted 32-bit hash of a token's UTF-8 bytes *)
  permuted_hash : nat → str → Z;
  (** the number of bands and the rows per band chosen for a threshold *)
  lsh_params : Q → nat * nat;
  (** [str.lower] *)
  str_lower : str → str;
  (** [nlp(a).similarity(nlp(b))] *)
  nlp_similarity : str → str → Q;
  (** [(ent.text, ent.label_)] for [ent] in [nlp(content).ents] *)
  nlp_ents : str → list (str * str);
  (** [chunk.text] for [chunk] in [nlp(content).noun_chunks] *)
  nlp_noun_chunks : str → list str;
}.

(** [ModelCaller.call_model(task_type, prompt)]: the reply, or [None] when
    the call raises. *)
Definition ModelCaller : Type := str → str → option str.

(** ** Data model *)

(** A QA pair and a topic group are JSON objects read with [.get]: a field
    may be absent.  This is the typed view of the input, in which a key that
    is present holds a string; [None] stands for an absent key only, a key
    that holds [null] or another value that is no string is an input of
    [json_qa_pair] below. *)
Record qa_pair := {
  question : option str;
  answer : option str;
}.

Record topic_group := {
  topic : option str;
  qa_pairs : option (list qa_pair);
}.

Local Unset Elimination Schemes.
(** A JSON value held under a key of a QA pair, as [json.load] builds it:
    [str], [None], [int] or [float], [bool], [list] and [dict]. *)
Inductive json_value : Type :=
  | JString (s : str)
  | JNull
  | JNumber (n : Q)
  | JBool (b : bool)
  | JArray (items : list json_value)
  | JObject (members : list (str * json_value)).
Local Set Elimination Schemes.

(** A QA pair and a topic group as [json.load] returns them: each of the keys
    ['question'] and ['answer'] is absent or holds a JSON value of any kind.
    [qa_pair] above is the typed view, in which a key that is present holds a
    string. *)
Record json_qa_pair := {
  json_question : option json_value;
  json_answer : option json_value;
}.

Record json_topic_group := {
  json_topic : option str;
  json_qa_pairs : option (list json_qa_pair);
}.

Inductive priority_t : Type := high | normal.

Global Instance priority_t_eq_dec : EqDecision priority_t.
Proof. solve_decision. Defined.

(** A knowledge point is a dict with the keys ['text'], ['type'], ['source']
    and, when known, ['paragraph_idx'] and ['priority']. *)
Record knowledge_point := {
  text : str;
  type : option str;
  source : str;
  paragraph_idx : option nat;
  priority : option priority_t;
}.

Global Instance knowledge_point_eq_dec : EqDecision knowledge_point.
Proof. solve_decision. Defined.

Section Engine.
Context {C : Collaborators}.

(** ** Document segmentation *)

Definition split_document_with (min_length : nat) (content : str) : list str :=
  let paragraphs := re_split_blank content in
  let paragraphs := strip <$> filter (λ p, min_length ≤ length (strip p)) paragraphs in
  if length paragraphs <? 5 then
    let paragraphs := split_on LF content in
    strip <$> filter (λ p, min_length ≤ length (strip p)) paragraphs
  else paragraphs.

Definition split_document (content : str) : list str :=
  split_document_with 50 content.

(** ** Sketches and the similarity index *)

Definition _max_hash : Z := (2 ^ 32 - 1)%Z.

(** Modelled from the spec: the class [MinHash] of the datasketch package,
    which the module imports; the spec (4.1) describes it as [numHashes]
    hash-min trackers that start at a sentinel maximum. *)
Definition MinHash : Type := list Z.

(** Modelled from the spec: [MinHash(num_perm)], every tracker at the
    sentinel. *)
Definition MinHash_new (num_perm : nat) : MinHash := replicate num_perm _max_hash.

(** Modelled from the spec: [MinHash.update], each tracker keeps the minimum
    of its hash over the tokens seen. *)
Definition MinHash_update (mh : MinHash) (token : str) : MinHash :=
  imap (λ i v, Z.min (permuted_hash i token) v) mh.

(** [mh = MinHash(num_perm); for token in tokens: mh.update(token)] *)
Definition minhash_of_tokens (num_perm : nat) (tokens : list str) : MinHash :=
  foldl MinHash_update (MinHash_new num_perm) tokens.

(** Modelled from the spec: the class [MinHashLSH] of the datasketch
    package; the spec (4.2) describes it as an index with [insert] and
    [query], where [query] returns the inserted ids that agree with the
    queried sketch on a whole band.  Keys are the paragraph numbers [i] that
    the module writes as ["doc_i"] and reads back with [int]. *)
Record MinHashLSH := {
  lsh_b : nat;
  lsh_r : nat;
  lsh_entries : list (nat * MinHash);
}.

Definition MinHashLSH_new (threshold : Q) : MinHashLSH :=
  {| lsh_b := (lsh_params threshold).1;
     lsh_r := (lsh_params threshold).2;
     lsh_entries := [] |}.

(** Modelled from the spec: [MinHashLSH.insert]. *)
Definition lsh_insert (key : nat) (mh : MinHash) (lsh : MinHashLSH) : MinHashLSH :=
  {| lsh_b := lsh_b lsh; lsh_r := lsh_r lsh;
     lsh_entries := lsh_entries lsh ++ [(key, mh)] |}.

Definition band (r i : nat) (mh : MinHash) : list Z := take r (drop (i * r) mh).

Definition band_match (b r : nat) (mh1 mh2 : MinHash) : Prop :=
  Exists (λ i, band r i mh1 = band r i mh2) (seq 0 b).

Global Instance band_match_dec b r mh1 mh2 : Decision (band_match b r mh1 mh2).
Proof. unfold band_match. apply _. Defined.

(** Modelled from the spec: the sketch of an empty token sequence, in which
    every tracker still holds the sentinel maximum (4.1). *)
Definition is_empty_sketch (mh : MinHash) : Prop := Forall (λ v, v = _max_hash) mh.

Global Instance is_empty_sketch_dec mh : Decision (is_empty_sketch mh).
Proof. unfold is_empty_sketch. apply _. Defined.

(** Modelled from the spec: [MinHashLSH.query], the ids of the inserted
    sketches that agree with the queried one on some band (4.2), behind the
    guard that the spec places in the index (4.1): a sketch of sentinel
    maximum values never registers as similar to anything, neither as the
    queried sketch nor as an inserted one.  The candidates are collected in
    a set and returned as a list, in no specified order. *)
Definition lsh_query (lsh : MinHashLSH) (mh : MinHash) : list nat :=
  if decide (is_empty_sketch mh) then []
  else
    elements (list_to_set (C := gset nat)
      (fst <$> filter (λ e, ¬ is_empty_sketch e.2 ∧
                            band_match (lsh_b lsh) (lsh_r lsh) e.2 mh)
                      (lsh_entries lsh))).

(** ** Lexical stage *)

Definition num_perm_default : nat := 128.

Record doc_hash := {
  dh_minhash : MinHash;
  dh_content : str;
  dh_length : nat;
}.

(** The dict [doc_hashes] has the keys [0 .. n-1]: it is the list of its
    values. *)
Definition compute_minhash (segments : list str) : list doc_hash :=
  (λ segment,
     let tokens := jieba_cut (re_sub_ws segment) in
     {| dh_minhash := minhash_of_tokens num_perm_default tokens;
        dh_content := segment;
        dh_length := length segment |}) <$> segments.

Record qa_hash := {
  qh_minhash : MinHash;
  qh_topic : str;
  qh_question : str;
  qh_answer : str;
  qh_qa_idx : nat;
  qh_topic_idx : nat;
}.

(** The default topic name [f'未命名主题_{topic_idx}']. *)
Definition unnamed_topic (topic_idx : nat) : str :=
  [26410; 21629; 21517; 20027; 39064; 95]%N ++ str_of_nat topic_idx.

Definition get_qa_pairs (t : topic_group) : list qa_pair := default [] (qa_pairs t).
Definition get_question (qa : qa_pair) : str := default [] (question qa).
Definition get_answer (qa : qa_pair) : str := default [] (answer qa).

(** [question + ' ' + answer] *)
Definition qa_text_of (qa : qa_pair) : str :=
  get_question qa ++ [SPACE] ++ get_answer qa.

Definition compute_qa_minhash (qa_data : list topic_group) : list qa_hash :=
  mjoin (imap (λ topic_idx t,
    let topic_name := default (unnamed_topic topic_idx) (topic t) in
    imap (λ qa_idx qa,
      let tokens := jieba_cut (re_sub_ws (qa_text_of qa)) in
      {| qh_minhash := minhash_of_tokens num_perm_default tokens;
         qh_topic := topic_name;
         qh_question := get_question qa;
         qh_answer := get_answer qa;
         qh_qa_idx := qa_idx;
         qh_topic_idx := topic_idx |}) (get_qa_pairs t)) qa_data).

(** The three containers filled by the query loop. *)
Record match_state := {
  ms_covered : gset nat;
  ms_paragraph_coverage : gmap nat (list nat);
  ms_qa_matches : gmap nat (list nat);
}.

Definition record_match (qa_idx : nat) (st : match_state) (para_idx : nat) : match_state :=
  {| ms_covered := ms_covered st ∪ {[para_idx]};
     ms_paragraph_coverage := dd_append para_idx qa_idx (ms_paragraph_coverage st);
     ms_qa_matches := dd_append qa_idx para_idx (ms_qa_matches st) |}.

Definition query_step (lsh : MinHashLSH) (st : match_state) (q : nat * qa_hash) : match_state :=
  let result := lsh_query lsh (qh_minhash q.2) in
  match result with
  | [] => st
  | _ :: _ => foldl (record_match q.1) st result
  end.

Record coverage_stats := {
  covered_paragraphs : gset nat;
  paragraph_coverage : gmap nat (list nat);
  qa_matches : gmap nat (list nat);
  total_paragraphs : nat;
  coverage_rate : Q;
  qa_with_match : nat;
  qa_match_rate : Q;
}.

Definition build_index (threshold : Q) (doc_hashes : list doc_hash) : MinHashLSH :=
  foldl (λ lsh d, lsh_insert d.1 (dh_minhash d.2) lsh)
        (MinHashLSH_new threshold) (enumerate doc_hashes).

Definition run_queries (lsh : MinHashLSH) (qa_hashes : list qa_hash) : match_state :=
  foldl (query_step lsh)
        {| ms_covered := ∅; ms_paragraph_coverage := ∅; ms_qa_matches := ∅ |}
        (enumerate qa_hashes).

Definition compute_lsh_coverage (doc_hashes : list doc_hash)
    (qa_hashes : list qa_hash) (threshold : Q) : result coverage_stats :=
  let lsh := build_index threshold doc_hashes in
  let st := run_queries lsh qa_hashes in
  rate ← true_div (size (ms_covered st)) (length doc_hashes);
  let with_match := size (filter (λ kv, kv.2 ≠ []) (ms_qa_matches st)) in
  qa_rate ← match qa_hashes with
            | [] => Ok 0%Q
            | _ :: _ => true_div with_match (length qa_hashes)
            end;
  Ok {| covered_paragraphs := ms_covered st;
        paragraph_coverage := ms_paragraph_coverage st;
        qa_matches := ms_qa_matches st;
        total_paragraphs := length doc_hashes;
        coverage_rate := rate;
        qa_with_match := with_match;
        qa_match_rate := qa_rate |}.

Record paragraph_detail := {
  pd_index : nat;
  pd_content : str;
  matched_qa_count : nat;
  matched_qa_indices : list nat;
}.

Record qa_detail := {
  qd_index : nat;
  qd_question : str;
  qd_topic : str;
  matched_paragraphs : list nat;
}.

Record hash_results_t := {
  hr_coverage_rate : Q;
  hr_covered_paragraphs : nat;
  hr_total_paragraphs : nat;
  hr_qa_with_match : nat;
  hr_qa_match_rate : Q;
  paragraph_details : list paragraph_detail;
  qa_details : list qa_detail;
}.

Definition ellipsis : str := lit "...".

(** The loop that fills [qa_pairs_flat] stores the topic name in every QA
    dict; the list is not used and no later read looks at that key. *)
Definition hash_based_evaluation (doc_content : str) (qa_data : list topic_group)
    (threshold : Q) : result (hash_results_t * list str * coverage_stats) :=
  let segments := split_document doc_content in
  let doc_hashes := compute_minhash segments in
  let qa_hashes := compute_qa_minhash qa_data in
  cs ← compute_lsh_coverage doc_hashes qa_hashes threshold;
  let hash_results :=
    {| hr_coverage_rate := coverage_rate cs;
       hr_covered_paragraphs := size (covered_paragraphs cs);
       hr_total_paragraphs := total_paragraphs cs;
       hr_qa_with_match := qa_with_match cs;
       hr_qa_match_rate := qa_match_rate cs;
       paragraph_details :=
         imap (λ i segment,
           {| pd_index := i;
              pd_content := take 100 segment ++ ellipsis;
              matched_qa_count := length (dd_get i (paragraph_coverage cs));
              matched_qa_indices := dd_get i (paragraph_coverage cs) |}) segments;
       qa_details :=
         imap (λ i q,
           {| qd_index := i;
              qd_question := qh_question q;
              qd_topic := qh_topic q;
              matched_paragraphs := dd_get i (qa_matches cs) |}) qa_hashes |} in
  Ok (hash_results, segments, cs).

(** ** The lexical stage on QA groups as read from JSON *)

(** [question = qa.get('question', ''); answer = qa.get('answer', '');
    qa_text = question + ' ' + answer]: the two texts when both values are
    strings.  [+] raises [TypeError] when the value under ['question'] is
    not a string ([None + ' ']), and when the one under ['answer'] is not
    ([question + ' ' + None]). *)
Definition read_qa (qa : json_qa_pair) : result (str * str) :=
  match default (JString []) (json_question qa),
        default (JString []) (json_answer qa) with
  | JString question, JString answer => Ok (question, answer)
  | _, _ => Raise TypeError
  end.

(** [compute_qa_minhash] on QA groups as read from JSON. *)
Definition compute_qa_minhash_json (qa_data : list json_topic_group)
    : result (list qa_hash) :=
  hashes ← mapM (λ it : nat * json_topic_group,
    let topic_name := default (unnamed_topic it.1) (json_topic it.2) in
    mapM (λ iq : nat * json_qa_pair,
      qa ← read_qa iq.2;
      let qa_text := qa.1 ++ [SPACE] ++ qa.2 in
      let tokens := jieba_cut (re_sub_ws qa_text) in
      Ok {| qh_minhash := minhash_of_tokens num_perm_default tokens;
            qh_topic := topic_name;
            qh_question := qa.1;
            qh_answer := qa.2;
            qh_qa_idx := iq.1;
            qh_topic_idx := it.1 |})
      (enumerate (default [] (json_qa_pairs it.2))))
    (enumerate qa_data);
  Ok (mjoin hashes).

(** [hash_based_evaluation] on QA groups as read from JSON.  The QA pairs
    are read after the paragraphs are sketched and before the index is
    queried. *)
Definition hash_based_evaluation_json (doc_content : str)
    (qa_data : list json_topic_group) (threshold : Q)
    : result (hash_results_t * list str * coverage_stats) :=
  let segments := split_document doc_content in
  let doc_hashes := compute_minhash segments in
  qa_hashes ← compute_qa_minhash_json qa_data;
  cs ← compute_lsh_coverage doc_hashes qa_hashes threshold;
  let hash_results :=
    {| hr_coverage_rate := coverage_rate cs;
       hr_covered_paragraphs := size (covered_paragraphs cs);
       hr_total_paragraphs := total_paragraphs cs;
       hr_qa_with_match := qa_with_match cs;
       hr_qa_match_rate := qa_match_rate cs;
       paragraph_details :=
         imap (λ i segment,
           {| pd_index := i;
              pd_content := take 100 segment ++ ellipsis;
              matched_qa_count := length (dd_get i (paragraph_coverage cs));
              matched_qa_indices := dd_get i (paragraph_coverage cs) |}) segments;
       qa_details :=
         imap (λ i q,
           {| qd_index := i;
              qd_question := qh_question q;
              qd_topic := qh_topic q;
              matched_paragraphs := dd_get i (qa_matches cs) |}) qa_hashes |} in
  Ok (hash_results, segments, cs).

(** ** Knowledge points *)

Definition NOUN_PHRASE : str := lit "NOUN_PHRASE".
Definition LLM_EXTRACTED : str := lit "LLM_EXTRACTED".
Definition UNKNOWN : str := lit "UNKNOWN".
Definition src_entity : str := lit "entity".
Definition src_noun_chunk : str := lit "noun_chunk".
(** [f'paragraph_{i}'] *)
Definition src_paragraph (i : nat) : str := lit "paragraph_" ++ str_of_nat i.

(** The name ['knowledge_extraction'] under which the model is called. *)
Definition knowledge_extraction : str := lit "knowledge_extraction".

(** The marker ['无明确知识点'] by which the model reports that a paragraph
    has no knowledge point. *)
Definition no_points_marker : str :=
  [26080; 26126; 30830; 30693; 35782; 28857]%N.

(** The text of the prompt before the quoted paragraph. *)
Definition prompt_head : str :=
  [10; 35831; 20174; 20197; 19979; 20379; 24212; 38142; 25216; 26415; 25991;
   26723; 27573; 33853; 20013; 25552; 21462; 20851; 38190; 30693; 35782; 28857;
   12290; 10; 27599; 20010; 30693; 35782; 28857; 24212; 35813; 26159; 25991;
   26723; 20013; 26126; 30830; 34920; 36798; 30340; 27010; 24565; 12289; 25216;
   26415; 12289; 26041; 27861; 12289; 36235; 21183; 25110; 35265; 35299; 12290;
   10; 26684; 24335; 35201; 27714; 65306; 10; 49; 46; 32; 27599; 20010; 30693;
   35782; 28857; 29992; 19968; 21477; 31616; 27905; 30340; 35805; 34920; 36798;
   10; 50; 46; 32; 19981; 35201; 28155; 21152; 32534; 21495; 10; 51; 46; 32;
   19981; 35201; 28155; 21152; 35299; 37322; 10; 52; 46; 32; 30452; 25509;
   36755; 20986; 30693; 35782; 28857; 21015; 34920; 65292; 27599; 34892; 19968;
   20010; 10; 53; 46; 32; 22914; 26524; 27573; 33853; 20013; 27809; 26377;
   26126; 30830; 30340; 30693; 35782; 28857; 65292; 35831; 36755; 20986; 34;
   26080; 26126; 30830; 30693; 35782; 28857; 34; 10; 10; 25991; 26723; 27573;
   33853; 58; 10]%N.

Definition knowledge_prompt (para : str) : str := prompt_head ++ para ++ [LF].

Definition entity_point (e : str * str) : knowledge_point :=
  {| text := e.1; type := Some e.2; source := src_entity;
     paragraph_idx := None; priority := None |}.

Definition noun_chunk_point (chunk : str) : knowledge_point :=
  {| text := chunk; type := Some NOUN_PHRASE; source := src_noun_chunk;
     paragraph_idx := None; priority := None |}.

Definition llm_point (i : nat) (point : str) : knowledge_point :=
  {| text := point; type := Some LLM_EXTRACTED; source := src_paragraph i;
     paragraph_idx := Some i; priority := None |}.

Definition basic_points (content : str) : list knowledge_point :=
  (entity_point <$> nlp_ents content) ++
  (noun_chunk_point <$> filter (λ chunk, 3 < length (strip chunk))
                               (nlp_noun_chunks content)).

(** The lines of a reply that are kept as knowledge points. *)
Definition points_of_reply (result : str) : list str :=
  strip <$> filter (λ line, strip line ≠ [] ∧ contains no_points_marker line = false)
                   (split_on LF result).

(** The loop over the paragraphs inside [try]: when a call raises, the loop
    is left and the points appended so far remain. *)
Fixpoint llm_points (model_caller : ModelCaller) (paragraphs : list (nat * str))
    (advanced_points : list knowledge_point) : list knowledge_point :=
  match paragraphs with
  | [] => advanced_points
  | (i, para) :: rest =>
      if length para <? 50 then llm_points model_caller rest advanced_points
      else
        match model_caller knowledge_extraction (knowledge_prompt para) with
        | None => advanced_points
        | Some result =>
            llm_points model_caller rest
              (advanced_points ++ (llm_point i <$> points_of_reply result))
        end
  end.

Definition advanced_points_of (content : str) (model_caller : option ModelCaller)
    : list knowledge_point :=
  match model_caller with
  | Some mc => llm_points mc (enumerate (split_document content)) []
  | None => []
  end.

(** [re.sub(r'\s+', ' ', point['text'].lower())] *)
Definition normalized_text (point : knowledge_point) : str :=
  re_sub_ws (str_lower (text point)).

Definition dedup_step (st : list knowledge_point * gset str) (point : knowledge_point)
    : list knowledge_point * gset str :=
  if decide (normalized_text point ∈ st.2) then st
  else (st.1 ++ [point], st.2 ∪ {[normalized_text point]}).

Definition unique_points_of (all_points : list knowledge_point) : list knowledge_point :=
  (foldl dedup_step ([], ∅) all_points).1.

Definition extract_knowledge_points (content : str)
    (model_caller : option ModelCaller) : list knowledge_point :=
  let all_points := basic_points content ++ advanced_points_of content model_caller in
  unique_points_of all_points.

(** ** Priorities *)

Definition low_coverage_paragraphs (hash_results : hash_results_t) : list nat :=
  pd_index <$> filter (λ p, matched_qa_count p = 0) (paragraph_details hash_results).

Definition assign_priority (low : list nat) (point : knowledge_point) : knowledge_point :=
  {| text := text point; type := type point; source := source point;
     paragraph_idx := paragraph_idx point;
     priority :=
       Some (match paragraph_idx point with
             | Some i => if decide (i ∈ low) then high else normal
             | None => normal
             end) |}.

(** [0 if x.get('priority') == 'high' else 1] *)
Definition priority_key (pr : option priority_t) : nat :=
  if decide (pr = Some high) then 0 else 1.

Definition prioritize_knowledge_points (knowledge_points : list knowledge_point)
    (hash_results : hash_results_t) : list knowledge_point :=
  let low := low_coverage_paragraphs hash_results in
  sorted (λ x, priority_key (priority x)) (assign_priority low <$> knowledge_points).

(** ** Mapping QA pairs to knowledge points *)

(** The id of a QA pair, written [f"{topic_idx}_{qa_idx}"] in the source. *)
Definition qa_id_t : Type := nat * nat.

Record matched_point := {
  knowledge_idx : nat;
  knowledge_text : str;
  mp_similarity : Q;
  mp_priority : priority_t;
}.

Record coverage_entry := {
  ce_qa_id : qa_id_t;
  ce_similarity : Q;
}.

Record mapping := {
  m_qa_id : qa_id_t;
  m_topic : str;
  m_question : str;
  m_answer : str;
  matched_points : list matched_point;
}.

Record mapping_results_t := {
  mappings : list mapping;
  knowledge_coverage : gmap nat (list coverage_entry);
  qa_knowledge_points : gmap qa_id_t (list nat);
}.

Definition text_similarity (text1 text2 : str) : Q :=
  nlp_similarity (str_lower text1) (str_lower text2).

(** [x > y] on floats *)
Definition Qgtb (x y : Q) : bool := if Qlt_le_dec y x then true else false.

Definition threshold_05 : Q := 0.5.

Definition match_step (qa_id : qa_id_t) (qa_text : str)
    (st : list matched_point * gmap nat (list coverage_entry))
    (kp : nat * knowledge_point)
    : list matched_point * gmap nat (list coverage_entry) :=
  let similarity := text_similarity qa_text (text kp.2) in
  if Qgtb similarity threshold_05 then
    (st.1 ++ [{| knowledge_idx := kp.1;
                 knowledge_text := text kp.2;
                 mp_similarity := similarity;
                 mp_priority := default normal (priority kp.2) |}],
     dd_append kp.1 {| ce_qa_id := qa_id; ce_similarity := similarity |} st.2)
  else st.

Definition map_qa (knowledge_points : list knowledge_point) (topic_idx : nat)
    (topic_name : str) (mr : mapping_results_t) (q : nat * qa_pair)
    : mapping_results_t :=
  let question := get_question q.2 in
  let answer := get_answer q.2 in
  let qa_text := question ++ [SPACE] ++ answer in
  let qa_id := (topic_idx, q.1) in
  let matched :=
    foldl (match_step qa_id qa_text) ([], knowledge_coverage mr)
          (enumerate knowledge_points) in
  {| mappings := mappings mr ++
       [{| m_qa_id := qa_id; m_topic := topic_name; m_question := question;
           m_answer := take 100 answer ++ ellipsis;
           matched_points := matched.1 |}];
     knowledge_coverage := matched.2;
     qa_knowledge_points :=
       <[qa_id := knowledge_idx <$> matched.1]> (qa_knowledge_points mr) |}.

Definition map_topic (knowledge_points : list knowledge_point)
    (mr : mapping_results_t) (t : nat * topic_group) : mapping_results_t :=
  let topic_name := default (unnamed_topic t.1) (topic t.2) in
  foldl (map_qa knowledge_points t.1 topic_name) mr (enumerate (get_qa_pairs t.2)).

Definition map_qa_to_knowledge (qa_data : list topic_group)
    (knowledge_points : list knowledge_point) : mapping_results_t :=
  foldl (map_topic knowledge_points)
        {| mappings := []; knowledge_coverage := ∅; qa_knowledge_points := ∅ |}
        (enumerate qa_data).

(** ** Weighted coverage *)

Definition weight_of (point : knowledge_point) : Q :=
  if decide (priority point = Some high) then 1.5 else 1.0.

(** The dict [knowledge_weights] has the keys [0 .. n-1]. *)
Definition knowledge_weights (knowledge_points : list knowledge_point) : list Q :=
  weight_of <$> knowledge_points.

(** [sum(values)] *)
Definition Qsum (l : list Q) : Q := foldl Qplus 0%Q l.

(** The keys of a dict, in the order of iteration. *)
Definition keys {V} (d : gmap nat V) : list nat := (map_to_list d).*1.

Definition cover_step (weights : list Q) (st : gset nat * Q) (k_idx : nat)
    : gset nat * Q :=
  (st.1 ∪ {[k_idx]}, (st.2 + default 1.0 (weights !! k_idx))%Q).

(** [a / b] on [int]s with [b] known to be non-zero *)
Definition ratio (a b : nat) : Q := (inject_Z (Z.of_nat a) / inject_Z (Z.of_nat b))%Q.

Record topic_stat := {
  ts_covered_points : nat;
  ts_coverage_rate : Q;
}.

Record knowledge_coverage_stats := {
  simple_coverage : Q;
  weighted_coverage : Q;
  covered_points : nat;
  total_points : nat;
  topic_coverage : gmap str topic_stat;
}.

Definition topic_coverage_sets (mr : mapping_results_t) : gmap str (gset nat) :=
  foldl (λ tc m,
           foldl (λ tc point, ds_add (m_topic m) (knowledge_idx point) tc)
                 tc (matched_points m))
        ∅ (mappings mr).

Definition calculate_weighted_coverage (mapping_results : mapping_results_t)
    (knowledge_points : list knowledge_point) : knowledge_coverage_stats :=
  let weights := knowledge_weights knowledge_points in
  let total_weight := Qsum weights in
  let covered :=
    foldl (cover_step weights) (∅, 0%Q) (keys (knowledge_coverage mapping_results)) in
  let covered_points := covered.1 in
  let covered_weight := covered.2 in
  let simple :=
    match knowledge_points with
    | [] => 0%Q
    | _ :: _ => ratio (size covered_points) (length knowledge_points)
    end in
  let weighted :=
    if Qgtb total_weight 0 then (covered_weight / total_weight)%Q else 0%Q in
  {| simple_coverage := simple;
     weighted_coverage := weighted;
     covered_points := size covered_points;
     total_points := length knowledge_points;
     topic_coverage :=
       (λ points : gset nat,
          {| ts_covered_points := size points;
             ts_coverage_rate :=
               match knowledge_points with
               | [] => 0%Q
               | _ :: _ => ratio (size points) (length knowledge_points)
               end |}) <$> topic_coverage_sets mapping_results |}.

(** [calculate_weighted_coverage] statement by statement, every [/] being
    Python's, which raises on a zero divisor: the two conditional expressions
    of lines 498-499 and the one inside the dict comprehension of lines
    508-514, evaluated once for each item of [topic_coverage].  The function
    above is the value this one returns. *)
Definition calculate_weighted_coverage_raising (mapping_results : mapping_results_t)
    (knowledge_points : list knowledge_point) : result knowledge_coverage_stats :=
  let weights := knowledge_weights knowledge_points in
  let total_weight := Qsum weights in
  let covered :=
    foldl (cover_step weights) (∅, 0%Q) (keys (knowledge_coverage mapping_results)) in
  let covered_points := covered.1 in
  let covered_weight := covered.2 in
  simple ← match knowledge_points with
           | [] => Ok 0%Q
           | _ :: _ => true_div (size covered_points) (length knowledge_points)
           end;
  weighted ← (if Qgtb total_weight 0 then float_div covered_weight total_weight
              else Ok 0%Q);
  topic_coverage_stats ←
    mapM (λ item : str * gset nat,
            rate ← match knowledge_points with
                   | [] => Ok 0%Q
                   | _ :: _ => true_div (size item.2) (length knowledge_points)
                   end;
            Ok (item.1, {| ts_covered_points := size item.2;
                           ts_coverage_rate := rate |}))
         (map_to_list (topic_coverage_sets mapping_results));
  Ok {| simple_coverage := simple;
        weighted_coverage := weighted;
        covered_points := size covered_points;
        total_points := length knowledge_points;
        topic_coverage := list_to_map topic_coverage_stats |}.

(** ** Gaps *)

Record gap := {
  gap_index : nat;
  gap_text : str;
  gap_type : str;
  gap_priority : priority_t;
}.

Record knowledge_gaps_t := {
  all_gaps : list gap;
  high_priority_gaps : list gap;
  gap_count : nat;
  high_priority_gap_count : nat;
}.

Definition gap_of (ip : nat * knowledge_point) : gap :=
  {| gap_index := ip.1;
     gap_text := text ip.2;
     gap_type := default UNKNOWN (type ip.2);
     gap_priority := default normal (priority ip.2) |}.

Definition uncovered_points_of (mr : mapping_results_t)
    (knowledge_points : list knowledge_point) : list gap :=
  let covered_points : gset nat := dom (knowledge_coverage mr) in
  gap_of <$> filter (λ ip, ip.1 ∉ covered_points) (enumerate knowledge_points).

Definition identify_knowledge_gaps (mapping_results : mapping_results_t)
    (knowledge_points : list knowledge_point) : knowledge_gaps_t :=
  let uncovered_points := uncovered_points_of mapping_results knowledge_points in
  let uncovered_points :=
    sorted (λ x, priority_key (Some (gap_priority x))) uncovered_points in
  let high := filter (λ p, gap_priority p = high) uncovered_points in
  {| all_gaps := uncovered_points;
     high_priority_gaps := high;
     gap_count := length uncovered_points;
     high_priority_gap_count := length high |}.

(** ** The two stages together *)

Record knowledge_results_t := {
  kr_coverage_stats : knowledge_coverage_stats;
  kr_knowledge_gaps : knowledge_gaps_t;
  kr_prioritized_points : list knowledge_point;
}.

Definition knowledge_mapping_evaluation (qa_data : list topic_group)
    (knowledge_points : list knowledge_point) (hash_results : hash_results_t)
    : knowledge_results_t :=
  let prioritized_points := prioritize_knowledge_points knowledge_points hash_results in
  let mapping_results := map_qa_to_knowledge qa_data prioritized_points in
  {| kr_coverage_stats := calculate_weighted_coverage mapping_results prioritized_points;
     kr_knowledge_gaps := identify_knowledge_gaps mapping_results prioritized_points;
     kr_prioritized_points := prioritized_points |}.

(** [main] after its inputs are loaded: the lexical stage, the extraction of
    the knowledge points and the semantic stage. *)
Definition main (original_doc : str) (qa_data : list topic_group) (threshold : Q)
    (model_caller : ModelCaller) : result (hash_results_t * knowledge_results_t) :=
  hr ← hash_based_evaluation original_doc qa_data threshold;
  let hash_results := hr.1.1 in
  let knowledge_points := extract_knowledge_points original_doc (Some model_caller) in
  Ok (hash_results,
      knowledge_mapping_evaluation qa_data knowledge_points hash_results).

(** ** Vocabulary of the statements *)

(** The QA pairs of all groups in the order of the two nested loops, each
    with its id and the name of its topic. *)
Definition qa_units (qa_data : list topic_group) : list (qa_id_t * str * qa_pair) :=
  mjoin (imap (λ topic_idx t,
    imap (λ qa_idx qa,
            ((topic_idx, qa_idx), default (unnamed_topic topic_idx) (topic t), qa))
         (get_qa_pairs t)) qa_data).

(** The body of the two nested loops of [map_qa_to_knowledge], on one unit. *)
Definition map_unit (knowledge_points : list knowledge_point)
    (mr : mapping_results_t) (u : qa_id_t * str * qa_pair) : mapping_results_t :=
  map_qa knowledge_points u.1.1.1 u.1.2 mr (u.1.1.2, u.2).

(** The similarity of a QA text and a point exceeds the threshold. *)
Definition matches (qa_text : str) (p : knowledge_point) : Prop :=
  Qgtb (text_similarity qa_text (text p)) threshold_05 = true.

(** Some QA pair of the data matches the point. *)
Definition covered_by (qa_data : list topic_group) (p : knowledge_point) : Prop :=
  Exists (λ u, matches (qa_text_of u.2) p) (qa_units qa_data).

Global Instance matches_dec qa_text p : Decision (matches qa_text p).
Proof. unfold matches. apply _. Defined.

Global Instance covered_by_dec qa_data p : Decision (covered_by qa_data p).
Proof. unfold covered_by. apply _. Defined.

Definition matched_point_of (qa_text : str) (kp : nat * knowledge_point)
    : option matched_point :=
  if Qgtb (text_similarity qa_text (text kp.2)) threshold_05 then
    Some {| knowledge_idx := kp.1;
            knowledge_text := text kp.2;
            mp_similarity := text_similarity qa_text (text kp.2);
            mp_priority := default normal (priority kp.2) |}
  else None.

Definition coverage_entry_of (qa_id : qa_id_t) (qa_text : str) (p : knowledge_point)
    : option coverage_entry :=
  if Qgtb (text_similarity qa_text (text p)) threshold_05 then
    Some {| ce_qa_id := qa_id;
            ce_similarity := text_similarity qa_text (text p) |}
  else None.

Definition mapping_of (knowledge_points : list knowledge_point)
    (u : qa_id_t * str * qa_pair) : mapping :=
  {| m_qa_id := u.1.1; m_topic := u.1.2; m_question := get_question u.2;
     m_answer := take 100 (get_answer u.2) ++ ellipsis;
     matched_points :=
       omap (matched_point_of (qa_text_of u.2)) (enumerate knowledge_points) |}.

(** [knowledge_weights.get(k_idx, 1.0)] *)
Definition point_weight (knowledge_points : list knowledge_point) (k_idx : nat) : Q :=
  default 1.0%Q (knowledge_weights knowledge_points !! k_idx).

(** The paragraphs that the query loop marks as covered. *)
Definition lexical_covered (doc_content : str) (qa_data : list topic_group)
    (threshold : Q) : gset nat :=
  ms_covered (run_queries (build_index threshold (compute_minhash (split_document doc_content)))
                          (compute_qa_minhash qa_data)).

(** The covered set is the set of keys of the paragraph-to-QA map, and no
    key of that map holds an empty list. *)
Definition paragraphs_consistent (st : match_state) : Prop :=
  ms_covered st = dom (ms_paragraph_coverage st) ∧ no_empty (ms_paragraph_coverage st).

(** The paragraphs that the index returns for the [j]-th QA pair. *)
Definition candidates (lsh : MinHashLSH) (qa_hashes : list qa_hash) (j : nat) : list nat :=
  from_option (λ q, lsh_query lsh (qh_minhash q)) [] (qa_hashes !! j).

(** One more QA pair: appended to the pairs of group [t] when there is such
    a group, otherwise in a new group at the end. *)
Definition append_qa (t : nat) (qa : qa_pair) (qa_data : list topic_group)
    : list topic_group :=
  match qa_data !! t with
  | Some g =>
      <[t := {| topic := topic g; qa_pairs := Some (get_qa_pairs g ++ [qa]) |}]> qa_data
  | None => qa_data ++ [{| topic := None; qa_pairs := Some [qa] |}]
  end.

(** A missing question or answer read as the empty string. *)
Definition with_defaults (qa : qa_pair) : qa_pair :=
  {| question := Some (get_question qa); answer := Some (get_answer qa) |}.

Definition fill_defaults (qa_data : list topic_group) : list topic_group :=
  (λ g, {| topic := topic g;
           qa_pairs := Some (with_defaults <$> get_qa_pairs g) |}) <$> qa_data.

(** The key is absent or holds a string. *)
Definition text_or_absent (v : option json_value) : Prop :=
  match v with
  | None | Some (JString _) => True
  | Some _ => False
  end.










(** The sketch of a text. *)
Definition sketch_of (text : str) : MinHash :=
  minhash_of_tokens num_perm_default (jieba_cut (re_sub_ws text)).

(** The reply of the model to the prompt of one paragraph. *)
Definition reply_of (model_caller : ModelCaller) (para : str) : option str :=
  model_caller knowledge_extraction (knowledge_prompt para).

(** The points that the reply to paragraph [i] contributes. *)
Definition paragraph_points (model_caller : ModelCaller) (i : nat) (para : str)
    : list knowledge_point :=
  llm_point i <$> points_of_reply (default [] (reply_of model_caller para)).

(** ** The heat map *)

(** [len(coverage_stats['paragraph_coverage'].get(i, []))] for every
    paragraph index. *)
Definition coverage_values (segments : list str) (cs : coverage_stats) : list nat :=
  (λ i, length (dd_get i (paragraph_coverage cs))) <$> seq 0 (length segments).

(** [math.ceil(n / 4)] *)
Definition ceil_div4 (n : nat) : nat := (n + 3) / 4.

(** [np.zeros((rows, cols))]; the cells only ever receive counts. *)
Definition zeros (rows cols : nat) : list (list nat) :=
  replicate rows (replicate cols 0).

Definition heatmap_step (num_rows : nat) (heatmap_data : list (list nat))
    (iv : nat * nat) : list (list nat) :=
  let row := iv.1 / 4 in
  let col := iv.1 mod 4 in
  if (row <? num_rows) && (col <? 4) then
    alter (λ cells, <[col := iv.2]> cells) row heatmap_data
  else heatmap_data.

(** The matrix that [generate_coverage_heatmap] hands to the plotting
    library. *)
Definition generate_coverage_heatmap (segments : list str) (cs : coverage_stats)
    : list (list nat) :=
  let num_rows := ceil_div4 (length segments) in
  foldl (heatmap_step num_rows) (zeros num_rows 4)
        (enumerate (coverage_values segments cs)).

(** ** The report *)

(** The three messages of [suggested_improvements]; the last two quote the
    rate that triggered them. *)
Inductive suggestion : Type :=
  | add_high_priority_pairs
  | low_paragraph_coverage (rate : Q)
  | low_knowledge_coverage (rate : Q).

Record summary_t := {
  s_hash_coverage_rate : Q;
  s_knowledge_coverage_rate : Q;
  s_weighted_knowledge_coverage : Q;
  s_total_paragraphs : nat;
  s_covered_paragraphs : nat;
  s_total_knowledge_points : nat;
  s_covered_knowledge_points : nat;
  s_uncovered_knowledge_points : nat;
  s_high_priority_gaps : nat;
}.

Record uncovered_area := {
  ua_knowledge_point : str;
  ua_priority : priority_t;
}.

Record report_t := {
  summary : summary_t;
  suggested_improvements : list suggestion;
  uncovered_areas : list uncovered_area;
}.

(** [x < y] on floats *)
Definition Qltb (x y : Q) : bool := if Qlt_le_dec x y then true else false.

(** The bound [0.7] of the two warnings.  The rates compared with it are
    quotients of two counts; for counts below 2^50 the float comparison
    orders such a quotient and [0.7] as the rationals do. *)
Definition threshold_07 : Q := 0.7.

(** The dict [report] that [generate_report] writes. *)
Definition generate_report (hash_results : hash_results_t)
    (knowledge_results : knowledge_results_t) : report_t :=
  let stats := kr_coverage_stats knowledge_results in
  let gaps := kr_knowledge_gaps knowledge_results in
  let has_high := 0 <? high_priority_gap_count gaps in
  {| summary :=
       {| s_hash_coverage_rate := hr_coverage_rate hash_results;
          s_knowledge_coverage_rate := simple_coverage stats;
          s_weighted_knowledge_coverage := weighted_coverage stats;
          s_total_paragraphs := hr_total_paragraphs hash_results;
          s_covered_paragraphs := hr_covered_paragraphs hash_results;
          s_total_knowledge_points := total_points stats;
          s_covered_knowledge_points := covered_points stats;
          s_uncovered_knowledge_points := gap_count gaps;
          s_high_priority_gaps := high_priority_gap_count gaps |};
     suggested_improvements :=
       (if has_high then [add_high_priority_pairs] else []) ++
       (if Qltb (hr_coverage_rate hash_results) threshold_07
        then [low_paragraph_coverage (hr_coverage_rate hash_results)] else []) ++
       (if Qltb (simple_coverage stats) threshold_07
        then [low_knowledge_coverage (simple_coverage stats)] else []);
     uncovered_areas :=
       if has_high then
         (λ gap, {| ua_knowledge_point := gap_text gap;
                    ua_priority := gap_priority gap |})
           <$> take 5 (high_priority_gaps gaps)
       else [] |}.

(** The line ['- 无高优先级知识点缺口\n'] of the text report. *)
Definition no_gap_line : str :=
  [45; 32; 26080; 39640; 20248; 20808; 32423; 30693; 35782; 28857; 32570;
   21475; 10]%N.

(** [f"- {i+1}. {gap['text']}\n"] *)
Definition gap_line (i : nat) (g : gap) : str :=
  lit "- " ++ str_of_nat (i + 1) ++ lit ". " ++ gap_text g ++ [LF].

(** The part of the text report that lists the gaps of high priority. *)
Definition text_report_gaps (knowledge_results : knowledge_results_t) : str :=
  match high_priority_gaps (kr_knowledge_gaps knowledge_results) with
  | [] => no_gap_line
  | _ :: _ =>
      mjoin (imap gap_line
                  (take 10 (high_priority_gaps (kr_knowledge_gaps knowledge_results))))
  end.

(** [main] through to the report. *)
Definition main_report (original_doc : str) (qa_data : list topic_group)
    (threshold : Q) (model_caller : ModelCaller) : result report_t :=
  r ← main original_doc qa_data threshold model_caller;
  Ok (generate_report r.1 r.2).

End Engine.

(** ** Sample collaborators and inputs

    Concrete stand-ins for the external capabilities, used to run the engine
    on explicit inputs. *)

Module Sample.

(** ASCII lower-casing. *)
Definition ascii_lower (s : str) : str :=
  (λ c, if (65 <=? c) && (c <=? 90) then c + 32 else c)%N <$> s.

(** Every character is a token. *)
Definition char_tokens (s : str) : list str := (λ c, [c]) <$> s.

(** A family of affine hashes of the first code point. *)
Definition affine_hash (i : nat) (token : str) : Z :=
  ((Z.of_nat (S i) * Z.of_N (hd 0%N token) + Z.of_nat i) mod 2 ^ 32)%Z.

(** Similarity 1 when the first text contains the second, 0 otherwise. *)
Definition contains_similarity (a b : str) : Q :=
  if contains b a then 1%Q else 0%Q.

(** One entity, the first six characters, and one noun phrase, the first
    thirteen. *)
Definition first_word (content : str) : list (str * str) :=
  match content with
  | [] => []
  | _ :: _ => [(take 6 content, lit "TERM")]
  end.

Definition first_phrase (content : str) : list str :=
  match content with
  | [] => []
  | _ :: _ => [take 13 content]
  end.

Definition collab : Collaborators :=
  {| jieba_cut := char_tokens;
     permuted_hash := affine_hash;
     lsh_params := λ _, (32, 4);
     str_lower := ascii_lower;
     nlp_similarity := contains_similarity;
     nlp_ents := first_word;
     nlp_noun_chunks := first_phrase |}.

(** Words as tokens: the maximal runs of characters other than the space. *)
Definition word_tokens (s : str) : list str :=
  filter (λ w, w ≠ []) (split_on SPACE s).

(** The same collaborators with words as tokens. *)
Definition collab_words : Collaborators :=
  {| jieba_cut := word_tokens;
     permuted_hash := affine_hash;
     lsh_params := λ _, (32, 4);
     str_lower := ascii_lower;
     nlp_similarity := contains_similarity;
     nlp_ents := first_word;
     nlp_noun_chunks := first_phrase |}.

(** A model that answers every prompt with the same two lines. *)
Definition two_lines : ModelCaller :=
  λ _ _, Some (lit "goods move to buyers" ++ [LF] ++ lit "Supply  Chains").

(** A document of one paragraph of 52 characters. *)
Definition doc1 : str :=
  lit "supply chains move goods from makers to every buyer.".

Definition qa (q a : string) : qa_pair :=
  {| question := Some (lit q); answer := Some (lit a) |}.

Definition group (name : string) (l : list qa_pair) : topic_group :=
  {| topic := Some (lit name); qa_pairs := Some l |}.

(** A QA pair whose answer, and not its question, holds the word "supply". *)
Definition qa_answered : qa_pair := qa "what do chains move?" "Supply".

(** A QA pair that repeats the document, and one without its two fields. *)
Definition qa_doc : qa_pair := {| question := Some doc1; answer := Some [] |}.
Definition qa_bare : qa_pair := {| question := None; answer := None |}.


Definition json_null : list json_topic_group :=
  [{| json_topic := Some (lit "t");
      json_qa_pairs :=
        Some [{| json_question := Some JNull;
                 json_answer := Some (JString (lit "goods")) |}] |}].

(** The point for the word "supply". *)
Definition supply_point : knowledge_point :=
  {| text := lit "supply"; type := Some (lit "TERM"); source := lit "entity";
     paragraph_idx := None; priority := None |}.

(** Lexical results in which paragraph 0 has no matched QA pair. *)
Definition hr_uncovered : hash_results_t :=
  {| hr_coverage_rate := 0; hr_covered_paragraphs := 0; hr_total_paragraphs := 1;
     hr_qa_with_match := 0; hr_qa_match_rate := 0;
     paragraph_details :=
       [{| pd_index := 0; pd_content := []; matched_qa_count := 0;
           matched_qa_indices := [] |}];
     qa_details := [] |}.

Definition no_mapping : mapping_results_t :=
  {| mappings := []; knowledge_coverage := ∅; qa_knowledge_points := ∅ |}.

(** Lexical links in which QA pair 0 matches paragraph 0. *)
Definition links_one : coverage_stats :=
  {| covered_paragraphs := {[0]};
     paragraph_coverage := {[0 := [0]]};
     qa_matches := {[0 := [0]]};
     total_paragraphs := 1; coverage_rate := 1;
     qa_with_match := 1; qa_match_rate := 1 |}.

End Sample.

(** * Facts about the preliminaries *)

Section PyFacts.
Context {A : Type}.
Implicit Types (l : list A) (key : A → nat).

(** Inserting into a list made of a block of key 0 followed by a block of
    key 1. *)
Lemma insert_by_blocks key x (l0 l1 : list A) :
  Forall (λ y, key y = 0) l0 → Forall (λ y, key y = 1) l1 →
  key x = 0 ∨ key x = 1 →
  insert_by key x (l0 ++ l1) =
    if decide (key x = 0) then x :: l0 ++ l1 else l0 ++ x :: l1.
Proof.
  intros H0 H1 Hx. induction H0 as [|y l0 Hy _ IH]; simpl.
  - destruct H1 as [|y l1 Hy H1]; simpl.
    + by destruct (decide (key x = 0)).
    + rewrite Hy. destruct Hx as [E|E]; rewrite E; reflexivity.
  - rewrite Hy, IH. destruct Hx as [E|E]; rewrite E; reflexivity.
Qed.

(** A stable sort on a key with the two values 0 and 1 is a stable
    partition. *)
Lemma sorted_two_keys key l :
  (∀ x, key x = 0 ∨ key x = 1) →
  sorted key l = filter (λ x, key x = 0) l ++ filter (λ x, key x = 1) l.
Proof.
  intros Hkey. induction l as [|x l IH]; [done|].
  unfold sorted in *. simpl. rewrite IH.
  rewrite insert_by_blocks.
  - rewrite !filter_cons. destruct (Hkey x) as [E|E]; rewrite E; reflexivity.
  - apply Forall_forall. intros y Hy. by apply list_elem_of_filter in Hy as [? _].
  - apply Forall_forall. intros y Hy. by apply list_elem_of_filter in Hy as [? _].
  - apply Hkey.
Qed.

Lemma elem_of_sorted_two_keys key l x :
  (∀ x, key x = 0 ∨ key x = 1) → x ∈ sorted key l ↔ x ∈ l.
Proof.
  intros Hkey. rewrite sorted_two_keys by done.
  rewrite elem_of_app, !list_elem_of_filter. split.
  - intros [[_ ?]|[_ ?]]; done.
  - intros ?. destruct (Hkey x); auto.
Qed.

Lemma elem_of_enumerate l i x : (i, x) ∈ enumerate l ↔ l !! i = Some x.
Proof.
  unfold enumerate. rewrite elem_of_lookup_imap. split.
  - intros (j & y & [= -> ->] & H). done.
  - intros H. eauto.
Qed.

Lemma enumerate_lookup l i : enumerate l !! i = pair i <$> l !! i.
Proof. unfold enumerate. apply list_lookup_imap. Qed.

Lemma snd_enumerate l : (enumerate l).*2 = l.
Proof.
  unfold enumerate. rewrite fmap_imap. 
  rewrite (imap_ext _ (λ _ x, x)) by done.
  induction l; [done|]. rewrite imap_cons. f_equal. done.
Qed.

End PyFacts.

Lemma priority_key_cases pr : priority_key pr = 0 ∨ priority_key pr = 1.
Proof. unfold priority_key. case_decide; auto. Qed.

(** * The prioritizer *)

Section Prioritizer.
Context {C : Collaborators}.
Implicit Types (p : knowledge_point) (points : list knowledge_point).

Lemma priority_key_high pr : priority_key pr = 0 ↔ pr = Some high.
Proof. unfold priority_key. case_decide; split; (done || lia). Qed.

Lemma priority_key_not_high pr : priority_key pr = 1 ↔ pr ≠ Some high.
Proof. unfold priority_key. case_decide; split; (done || lia). Qed.

Lemma elem_of_low_coverage_paragraphs hr i :
  i ∈ low_coverage_paragraphs hr ↔
  ∃ d, d ∈ paragraph_details hr ∧ pd_index d = i ∧ matched_qa_count d = 0.
Proof.
  unfold low_coverage_paragraphs. rewrite list_elem_of_fmap.
  setoid_rewrite list_elem_of_filter. naive_solver.
Qed.

Lemma assign_priority_high low p :
  priority (assign_priority low p) = Some high ↔
  ∃ i, paragraph_idx p = Some i ∧ i ∈ low.
Proof.
  unfold assign_priority; simpl. destruct (paragraph_idx p) as [i|].
  - case_decide; split; try done.
    + eauto.
    + intros (j & [= <-] & ?). done.
  - split; [done|]. intros (j & ? & _). done.
Qed.

Lemma assign_priority_cases low p :
  priority (assign_priority low p) = Some high ∨
  priority (assign_priority low p) = Some normal.
Proof.
  unfold assign_priority; simpl. destruct (paragraph_idx p); [case_decide|]; auto.
Qed.

Lemma filter_ext_in {A} (P Q : A → Prop) `{∀ x, Decision (P x)} `{∀ x, Decision (Q x)}
    (l : list A) :
  (∀ x, x ∈ l → P x ↔ Q x) → filter P l = filter Q l.
Proof.
  induction l as [|x l IH]; intros HPQ; [done|].
  rewrite !filter_cons. rewrite IH by (intros; apply HPQ; by right).
  destruct (decide (P x)) as [HP|HP], (decide (Q x)) as [HQ|HQ]; try done.
  - apply HPQ in HP; [done|by left].
  - apply HPQ in HQ; [done|by left].
Qed.

Lemma prioritize_unfold points hr :
  let pts := assign_priority (low_coverage_paragraphs hr) <$> points in
  prioritize_knowledge_points points hr =
    filter (λ p, priority p = Some high) pts ++
    filter (λ p, priority p = Some normal) pts.
Proof.
  intros pts. unfold prioritize_knowledge_points. fold pts.
  rewrite sorted_two_keys by (intros; apply priority_key_cases).
  f_equal.
  - apply filter_ext_in. intros x _. apply priority_key_high.
  - apply filter_ext_in. intros x Hx. rewrite priority_key_not_high.
    apply list_elem_of_fmap in Hx as (p & -> & _).
    destruct (assign_priority_cases (low_coverage_paragraphs hr) p) as [E|E];
      rewrite E; split; congruence.
Qed.

End Prioritizer.

(** * Extraction and deduplication of knowledge points *)

Section Extraction.
Context {C : Collaborators}.
Implicit Types (p q : knowledge_point) (l acc : list knowledge_point)
  (seen : gset str).

(** The points that the deduplication loop keeps from [l], given the texts
    already seen. *)
Lemma dedup_foldl_app l : ∀ acc seen,
  (foldl dedup_step (acc, seen) l).1 =
    acc ++ (foldl dedup_step ([], seen) l).1.
Proof.
  induction l as [|p l IH]; intros acc seen; simpl.
  - by rewrite app_nil_r.
  - unfold dedup_step at 2 4; simpl. case_decide.
    + apply IH.
    + rewrite IH. rewrite (IH [p]). by rewrite <- app_assoc.
Qed.

Lemma dedup_foldl_seen l : ∀ acc seen,
  (foldl dedup_step (acc, seen) l).2 = seen ∪ list_to_set (normalized_text <$> l).
Proof.
  induction l as [|p l IH]; intros acc seen; simpl.
  - set_solver.
  - unfold dedup_step at 2; simpl. case_decide; rewrite IH; set_solver.
Qed.

Lemma dedup_cons_seen p l seen :
  normalized_text p ∈ seen →
  (foldl dedup_step ([], seen) (p :: l)).1 = (foldl dedup_step ([], seen) l).1.
Proof. intros H. simpl. unfold dedup_step at 2; simpl. by rewrite decide_True. Qed.

Lemma dedup_cons_fresh p l seen :
  normalized_text p ∉ seen →
  (foldl dedup_step ([], seen) (p :: l)).1 =
    p :: (foldl dedup_step ([], seen ∪ {[normalized_text p]}) l).1.
Proof.
  intros H. simpl. unfold dedup_step at 2; simpl. rewrite decide_False by done.
  by rewrite dedup_foldl_app.
Qed.

Lemma dedup_sublist l : ∀ seen, sublist (foldl dedup_step ([], seen) l).1 l.
Proof.
  induction l as [|p l IH]; intros seen; [done|].
  destruct (decide (normalized_text p ∈ seen)).
  - rewrite dedup_cons_seen by done. by apply sublist_cons.
  - rewrite dedup_cons_fresh by done. by apply sublist_skip.
Qed.

Lemma dedup_not_seen l : ∀ seen q,
  q ∈ (foldl dedup_step ([], seen) l).1 → normalized_text q ∉ seen.
Proof.
  induction l as [|p l IH]; intros seen q; [by rewrite elem_of_nil|].
  destruct (decide (normalized_text p ∈ seen)).
  - rewrite dedup_cons_seen by done. apply IH.
  - rewrite dedup_cons_fresh by done. rewrite elem_of_cons. intros [->|Hq]; [done|].
    apply IH in Hq. set_solver.
Qed.

Lemma dedup_NoDup l : ∀ seen,
  NoDup (normalized_text <$> (foldl dedup_step ([], seen) l).1).
Proof.
  induction l as [|p l IH]; intros seen; [constructor|].
  destruct (decide (normalized_text p ∈ seen)).
  - rewrite dedup_cons_seen by done. apply IH.
  - rewrite dedup_cons_fresh by done. rewrite fmap_cons. constructor; [|apply IH].
    rewrite list_elem_of_fmap. intros (q & Heq & Hq).
    apply dedup_not_seen in Hq. set_solver.
Qed.

(** A kept point is a first occurrence of its normalized text. *)
Lemma dedup_first_occurrence l : ∀ seen q,
  q ∈ (foldl dedup_step ([], seen) l).1 →
  ∃ l1 l2, l = l1 ++ q :: l2 ∧
           (normalized_text q ∉ normalized_text <$> l1) ∧
           normalized_text q ∉ seen.
Proof.
  induction l as [|p l IH]; intros seen q; [by rewrite elem_of_nil|].
  destruct (decide (normalized_text p ∈ seen)) as [Hp|Hp].
  - rewrite dedup_cons_seen by done. intros Hq.
    destruct (IH _ _ Hq) as (l1 & l2 & -> & Hn & Hs).
    exists (p :: l1), l2. split; [done|]. split; [|done].
    rewrite fmap_cons, not_elem_of_cons. split; [|done]. congruence.
  - rewrite dedup_cons_fresh by done. rewrite elem_of_cons. intros [->|Hq].
    + exists [], l. split; [done|]. split; [|done]. simpl. apply not_elem_of_nil.
    + destruct (IH _ _ Hq) as (l1 & l2 & -> & Hn & Hs).
      exists (p :: l1), l2. split; [done|]. split; [|set_solver].
      rewrite fmap_cons, not_elem_of_cons. split; [|done]. set_solver.
Qed.

(** Every first occurrence of a text not yet seen is kept. *)
Lemma dedup_keeps_first l : ∀ seen l1 q l2,
  l = l1 ++ q :: l2 →
  normalized_text q ∉ (normalized_text <$> l1) → normalized_text q ∉ seen →
  q ∈ (foldl dedup_step ([], seen) l).1.
Proof.
  induction l as [|p l IH]; intros seen l1 q l2 Hl Hn Hs.
  { by destruct l1. }
  destruct l1 as [|p' l1]; simpl in Hl; inversion Hl; subst; clear Hl.
  - rewrite dedup_cons_fresh by done. by left.
  - apply not_elem_of_cons in Hn as [Hne Hn].
    destruct (decide (normalized_text p' ∈ seen)).
    + rewrite dedup_cons_seen by done. by eapply IH.
    + rewrite dedup_cons_fresh by done. right. eapply IH; [done..|set_solver].
Qed.

(** Every collected text is represented among the kept points. *)
Lemma dedup_covers l : ∀ seen p,
  p ∈ l → normalized_text p ∉ seen →
  ∃ q, q ∈ (foldl dedup_step ([], seen) l).1 ∧ normalized_text q = normalized_text p.
Proof.
  induction l as [|a l IH]; intros seen p Hp Hs; [by apply elem_of_nil in Hp|].
  destruct (decide (normalized_text a ∈ seen)) as [Ha|Ha].
  - rewrite dedup_cons_seen by done. apply elem_of_cons in Hp as [->|Hp]; [done|].
    by apply IH.
  - rewrite dedup_cons_fresh by done.
    destruct (decide (normalized_text p = normalized_text a)) as [E|E].
    + exists a. split; [by left|done].
    + apply elem_of_cons in Hp as [->|Hp]; [done|].
      destruct (IH (seen ∪ {[normalized_text a]}) p Hp) as (q & Hq & Hqn); [set_solver|].
      exists q. split; [by right|done].
Qed.

Lemma basic_points_no_paragraph content p :
  p ∈ basic_points content →
  paragraph_idx p = None ∧ (source p = src_entity ∨ source p = src_noun_chunk).
Proof.
  unfold basic_points. rewrite elem_of_app, !list_elem_of_fmap.
  intros [(e & -> & _)|(c & -> & _)]; simpl; auto.
Qed.

Lemma llm_points_paragraph mc paras : ∀ acc p,
  p ∈ llm_points mc paras acc →
  p ∈ acc ∨ ∃ i, paragraph_idx p = Some i ∧ source p = src_paragraph i ∧
                 type p = Some LLM_EXTRACTED.
Proof.
  induction paras as [|[i para] paras IH]; intros acc p; simpl; [auto|].
  destruct (length para <? 50); [apply IH|].
  destruct (mc _ _) as [reply|]; [|auto].
  intros Hp. apply IH in Hp as [Hp|Hp]; [|auto].
  apply elem_of_app in Hp as [Hp|Hp]; [auto|].
  apply list_elem_of_fmap in Hp as (t & -> & _). right. exists i. done.
Qed.

Lemma advanced_points_paragraph content mc p :
  p ∈ advanced_points_of content mc →
  ∃ i, paragraph_idx p = Some i ∧ source p = src_paragraph i ∧
       type p = Some LLM_EXTRACTED.
Proof.
  unfold advanced_points_of. destruct mc as [mc|]; [|by rewrite elem_of_nil].
  intros Hp. apply llm_points_paragraph in Hp as [Hp|Hp]; [|done].
  by apply elem_of_nil in Hp.
Qed.

Lemma src_paragraph_not_basic i :
  src_paragraph i ≠ src_entity ∧ src_paragraph i ≠ src_noun_chunk.
Proof. split; discriminate. Qed.

Lemma unique_points_subseteq all p : p ∈ unique_points_of all → p ∈ all.
Proof. apply sublist_subseteq, dedup_sublist. Qed.

End Extraction.

(** * The mapper *)

Section Mapper.
Context {C : Collaborators}.
Implicit Types (P : list knowledge_point) (p : knowledge_point)
  (u : qa_id_t * str * qa_pair) (mr : mapping_results_t)
  (kc : gmap nat (list coverage_entry)).

Lemma Qgtb_true x y : Qgtb x y = true ↔ (y < x)%Q.
Proof.
  unfold Qgtb. destruct (Qlt_le_dec y x) as [H|H]; split; try done.
  intros H'. exfalso. by apply (Qlt_not_le _ _ H').
Qed.

Lemma elem_of_dd_get_append {V} (k k' : nat) (v e : V) (d : gmap nat (list V)) :
  e ∈ dd_get k (dd_append k' v d) ↔ e ∈ dd_get k d ∨ (k = k' ∧ e = v).
Proof.
  unfold dd_get, dd_append. destruct (decide (k' = k)) as [->|Hne].
  - rewrite lookup_insert_eq. simpl. rewrite elem_of_app, list_elem_of_singleton.
    naive_solver.
  - rewrite lookup_insert_ne by done. naive_solver.
Qed.

Lemma no_empty_dd_append {V} (k : nat) (v : V) (d : gmap nat (list V)) :
  no_empty d → no_empty (dd_append k v d).
Proof.
  intros Hd k' l. unfold dd_append. destruct (decide (k = k')) as [->|Hne].
  - rewrite lookup_insert_eq. intros [= <-]. by destruct (default [] (d !! k')).
  - rewrite lookup_insert_ne by done. apply Hd.
Qed.

Lemma elem_of_dom_no_empty {V} (k : nat) (d : gmap nat (list V)) :
  no_empty d → k ∈ dom d ↔ ∃ e, e ∈ dd_get k d.
Proof.
  intros Hd. rewrite elem_of_dom. unfold dd_get. split.
  - intros [l Hl]. rewrite Hl. simpl. destruct l as [|e l]; [by apply Hd in Hl|].
    exists e. by left.
  - intros [e He]. destruct (d !! k); [done|]. by apply elem_of_nil in He.
Qed.

(** The inner loop over the knowledge points. *)
Lemma match_fold_fst qa_id qa_text (l : list (nat * knowledge_point)) : ∀ st,
  (foldl (match_step qa_id qa_text) st l).1 = st.1 ++ omap (matched_point_of qa_text) l.
Proof.
  induction l as [|kp l IH]; intros st; simpl; [by rewrite app_nil_r|].
  rewrite IH. unfold match_step, matched_point_of.
  destruct (Qgtb _ _); simpl; [|done]. by rewrite <- app_assoc.
Qed.

Lemma match_step_get qa_id qa_text st (kp : nat * knowledge_point) k e :
  e ∈ dd_get k (match_step qa_id qa_text st kp).2 ↔
  e ∈ dd_get k st.2 ∨ (kp.1 = k ∧ coverage_entry_of qa_id qa_text kp.2 = Some e).
Proof.
  unfold match_step, coverage_entry_of.
  destruct (Qgtb (text_similarity qa_text (text kp.2)) threshold_05); simpl.
  - rewrite elem_of_dd_get_append. split.
    + intros [?|[<- ->]]; auto.
    + intros [?|[<- [= <-]]]; auto.
  - split; [auto|]. by intros [?|[_ ?]].
Qed.

Lemma match_fold_get qa_id qa_text (l : list (nat * knowledge_point)) k e : ∀ st,
  e ∈ dd_get k (foldl (match_step qa_id qa_text) st l).2 ↔
  e ∈ dd_get k st.2 ∨
  ∃ kp, kp ∈ l ∧ kp.1 = k ∧ coverage_entry_of qa_id qa_text kp.2 = Some e.
Proof.
  induction l as [|kp l IH]; intros st; simpl.
  - split; [auto|]. intros [?|(kp & Hkp & _)]; [done|]. by apply elem_of_nil in Hkp.
  - rewrite IH, match_step_get. setoid_rewrite elem_of_cons. split.
    + intros [[?|[? ?]]|(kp' & ? & ? & ?)]; [auto|right; exists kp; auto|].
      right. exists kp'. auto.
    + intros [?|(kp' & [->|?] & ? & ?)]; [auto|auto|]. right. exists kp'. auto.
Qed.

Lemma match_fold_no_empty qa_id qa_text (l : list (nat * knowledge_point)) : ∀ st,
  no_empty st.2 → no_empty (foldl (match_step qa_id qa_text) st l).2.
Proof.
  induction l as [|kp l IH]; intros st Hst; simpl; [done|].
  apply IH. unfold match_step. destruct (Qgtb _ _); [|done].
  simpl. by apply no_empty_dd_append.
Qed.

Lemma foldl_mjoin {A B} (f : A → B → A) (ls : list (list B)) : ∀ a,
  foldl f a (mjoin ls) = foldl (λ a l, foldl f a l) a ls.
Proof.
  induction ls as [|l ls IH]; intros a; simpl; [done|].
  by rewrite foldl_app, IH.
Qed.

Lemma imap_enumerate {A B} (h : nat → A → B) (l : list A) :
  imap h l = (λ ix, h ix.1 ix.2) <$> enumerate l.
Proof. unfold enumerate. rewrite fmap_imap. by apply imap_ext. Qed.

Lemma foldl_ext_in {A B} (f g : A → B → A) (l : list B) : ∀ a,
  (∀ a b, b ∈ l → f a b = g a b) → foldl f a l = foldl g a l.
Proof.
  induction l as [|b l IH]; intros a Hfg; simpl; [done|].
  rewrite Hfg by left. apply IH. intros a' b' ?. apply Hfg. by right.
Qed.

(** The two nested loops run over the units in order. *)
Lemma map_qa_to_knowledge_units qa_data P :
  map_qa_to_knowledge qa_data P =
    foldl (map_unit P)
          {| mappings := []; knowledge_coverage := ∅; qa_knowledge_points := ∅ |}
          (qa_units qa_data).
Proof.
  unfold map_qa_to_knowledge, qa_units.
  rewrite foldl_mjoin, imap_enumerate, foldl_fmap.
  apply foldl_ext_in. intros mr [t g] _. simpl.
  unfold map_topic. simpl. rewrite imap_enumerate, foldl_fmap. done.
Qed.

Lemma elem_of_qa_units qa_data u :
  u ∈ qa_units qa_data ↔
  ∃ g, qa_data !! u.1.1.1 = Some g ∧ get_qa_pairs g !! u.1.1.2 = Some u.2 ∧
       u.1.2 = default (unnamed_topic u.1.1.1) (topic g).
Proof.
  unfold qa_units. rewrite list_elem_of_join. split.
  - intros (l & Hu & Hl). apply elem_of_lookup_imap in Hl as (t & g & -> & Hg).
    apply elem_of_lookup_imap in Hu as (q & qa & -> & Hqa). simpl. eauto.
  - intros (g & Hg & Hqa & Hname). destruct u as [[[t q] name] qa]. simpl in *.
    exists (imap (λ qa_idx qa0, ((t, qa_idx), default (unnamed_topic t) (topic g), qa0))
                 (get_qa_pairs g)).
    split.
    + apply elem_of_lookup_imap. exists q, qa. split; [|done]. by rewrite Hname.
    + apply elem_of_lookup_imap. exists t, g. done.
Qed.

(** The id of a unit determines it. *)
Lemma qa_units_functional qa_data u u' :
  u ∈ qa_units qa_data → u' ∈ qa_units qa_data → u.1.1 = u'.1.1 → u = u'.
Proof.
  rewrite !elem_of_qa_units. intros (g & Hg & Hqa & Hn) (g' & Hg' & Hqa' & Hn') Hid.
  destruct u as [[[t q] name] qa], u' as [[[t' q'] name'] qa']. simpl in *.
  injection Hid as <- <-. rewrite Hg in Hg'. injection Hg' as <-.
  rewrite Hqa in Hqa'. injection Hqa' as <-. by rewrite Hn, Hn'.
Qed.

Lemma map_unit_mappings P mr u :
  mappings (map_unit P mr u) = mappings mr ++ [mapping_of P u].
Proof.
  destruct u as [[[t q] name] qa].
  unfold map_unit, map_qa, mapping_of. simpl. rewrite match_fold_fst. done.
Qed.

Lemma units_fold_mappings P us : ∀ mr,
  mappings (foldl (map_unit P) mr us) = mappings mr ++ (mapping_of P <$> us).
Proof.
  induction us as [|u us IH]; intros mr; simpl; [by rewrite app_nil_r|].
  by rewrite IH, map_unit_mappings, <- app_assoc.
Qed.

Lemma map_unit_get P mr u k e :
  e ∈ dd_get k (knowledge_coverage (map_unit P mr u)) ↔
  e ∈ dd_get k (knowledge_coverage mr) ∨
  ∃ p, P !! k = Some p ∧ coverage_entry_of u.1.1 (qa_text_of u.2) p = Some e.
Proof.
  unfold map_unit, map_qa. simpl. rewrite match_fold_get. simpl.
  destruct u as [[[t q] name] qa]. simpl. unfold qa_text_of. split.
  - intros [?|([k' p] & Hkp & Hk & He)]; [auto|]. simpl in *. subst k'.
    apply elem_of_enumerate in Hkp. eauto.
  - intros [?|(p & Hp & He)]; [auto|]. right. exists (k, p).
    by rewrite elem_of_enumerate.
Qed.

Lemma units_fold_get P us k e : ∀ mr,
  e ∈ dd_get k (knowledge_coverage (foldl (map_unit P) mr us)) ↔
  e ∈ dd_get k (knowledge_coverage mr) ∨
  ∃ u p, u ∈ us ∧ P !! k = Some p ∧
         coverage_entry_of u.1.1 (qa_text_of u.2) p = Some e.
Proof.
  induction us as [|u us IH]; intros mr; simpl.
  - split; [auto|]. intros [?|(u & p & Hu & _)]; [done|]. by apply elem_of_nil in Hu.
  - rewrite IH, map_unit_get. setoid_rewrite elem_of_cons. split.
    + intros [[?|(p & ? & ?)]|(u' & p & ? & ? & ?)]; [auto| |].
      * right. exists u, p. auto.
      * right. exists u', p. auto.
    + intros [?|(u' & p & [->|?] & ? & ?)]; [auto| |].
      * left. right. eauto.
      * right. exists u', p. auto.
Qed.

Lemma map_unit_no_empty P mr u :
  no_empty (knowledge_coverage mr) → no_empty (knowledge_coverage (map_unit P mr u)).
Proof. intros H. unfold map_unit, map_qa. simpl. by apply match_fold_no_empty. Qed.

Lemma units_fold_no_empty P us : ∀ mr,
  no_empty (knowledge_coverage mr) →
  no_empty (knowledge_coverage (foldl (map_unit P) mr us)).
Proof.
  induction us as [|u us IH]; intros mr Hmr; simpl; [done|].
  by apply IH, map_unit_no_empty.
Qed.

Lemma units_fold_qkp P us : ∀ mr id,
  qa_knowledge_points (foldl (map_unit P) mr us) !! id =
    match last (filter (λ u, u.1.1 = id) us) with
    | Some u => Some (knowledge_idx <$> matched_points (mapping_of P u))
    | None => qa_knowledge_points mr !! id
    end.
Proof.
  induction us as [|u us IH] using rev_ind; intros mr id; [done|].
  destruct u as [[[t q] name] qa].
  rewrite foldl_app, filter_app. simpl. rewrite filter_cons, filter_nil. simpl.
  unfold map_unit at 1, map_qa. simpl. rewrite match_fold_fst. simpl.
  case_decide as Hid.
  - subst id. rewrite lookup_insert_eq, last_snoc. done.
  - rewrite lookup_insert_ne by done. rewrite app_nil_r. apply IH.
Qed.

(** The coverage map of the mapper: its entries, and its keys. *)
Lemma knowledge_coverage_entries qa_data P k e :
  e ∈ dd_get k (knowledge_coverage (map_qa_to_knowledge qa_data P)) ↔
  ∃ u p, u ∈ qa_units qa_data ∧ P !! k = Some p ∧
         coverage_entry_of u.1.1 (qa_text_of u.2) p = Some e.
Proof.
  rewrite map_qa_to_knowledge_units, units_fold_get. simpl. split; [|auto].
  intros [He|?]; [|done]. unfold dd_get in He. rewrite lookup_empty in He.
  by apply elem_of_nil in He.
Qed.

Lemma knowledge_coverage_no_empty qa_data P :
  no_empty (knowledge_coverage (map_qa_to_knowledge qa_data P)).
Proof.
  rewrite map_qa_to_knowledge_units. apply units_fold_no_empty. simpl.
  intros k l. by rewrite lookup_empty.
Qed.

Lemma coverage_entry_of_Some qa_id qa_text p e :
  coverage_entry_of qa_id qa_text p = Some e ↔
  matches qa_text p ∧
  e = {| ce_qa_id := qa_id; ce_similarity := text_similarity qa_text (text p) |}.
Proof.
  unfold coverage_entry_of, matches. destruct (Qgtb _ _); naive_solver.
Qed.

Lemma matched_point_of_Some qa_text kp mp :
  matched_point_of qa_text kp = Some mp ↔
  matches qa_text kp.2 ∧
  mp = {| knowledge_idx := kp.1; knowledge_text := text kp.2;
          mp_similarity := text_similarity qa_text (text kp.2);
          mp_priority := default normal (priority kp.2) |}.
Proof.
  unfold matched_point_of, matches. destruct (Qgtb _ _); naive_solver.
Qed.

Lemma elem_of_dom_knowledge_coverage qa_data P k :
  k ∈ dom (knowledge_coverage (map_qa_to_knowledge qa_data P)) ↔
  ∃ p, P !! k = Some p ∧ covered_by qa_data p.
Proof.
  rewrite elem_of_dom_no_empty by apply knowledge_coverage_no_empty.
  setoid_rewrite knowledge_coverage_entries. unfold covered_by.
  setoid_rewrite Exists_exists. setoid_rewrite coverage_entry_of_Some. split.
  - intros (e & u & p & Hu & Hp & Hm & _). eauto.
  - intros (p & Hp & u & Hu & Hm). eauto 10.
Qed.

Lemma threshold_05_half : (threshold_05 == 1 # 2)%Q.
Proof. reflexivity. Qed.

Lemma matches_iff qa_text p :
  matches qa_text p ↔ (1 # 2 < text_similarity qa_text (text p))%Q.
Proof. unfold matches. rewrite Qgtb_true. by rewrite threshold_05_half. Qed.

(** The matched points recorded for a QA text: one per matching point. *)
Lemma elem_of_matched_points P qa_text mp :
  mp ∈ omap (matched_point_of qa_text) (enumerate P) ↔
  ∃ p, P !! knowledge_idx mp = Some p ∧ matches qa_text p ∧
       mp = {| knowledge_idx := knowledge_idx mp; knowledge_text := text p;
               mp_similarity := text_similarity qa_text (text p);
               mp_priority := default normal (priority p) |}.
Proof.
  rewrite list_elem_of_omap. split.
  - intros ([k p] & Hkp & Hmp). apply elem_of_enumerate in Hkp.
    apply matched_point_of_Some in Hmp as [Hm ->]. simpl in *. eauto.
  - intros (p & Hp & Hm & Hmp). exists (knowledge_idx mp, p).
    rewrite elem_of_enumerate, matched_point_of_Some. simpl. rewrite <- Hmp. done.
Qed.

Lemma qa_unit_at qa_data t g q qa :
  qa_data !! t = Some g → get_qa_pairs g !! q = Some qa →
  ((t, q), default (unnamed_topic t) (topic g), qa) ∈ qa_units qa_data ∧
  ∀ u, u ∈ qa_units qa_data → u.1.1 = (t, q) →
       u = ((t, q), default (unnamed_topic t) (topic g), qa).
Proof.
  intros Hg Hqa.
  assert (((t, q), default (unnamed_topic t) (topic g), qa) ∈ qa_units qa_data) as Hu.
  { apply elem_of_qa_units. exists g. done. }
  split; [done|]. intros u Hu' Hid. by apply (qa_units_functional qa_data).
Qed.

Lemma qa_knowledge_points_at qa_data P t g q qa :
  qa_data !! t = Some g → get_qa_pairs g !! q = Some qa →
  qa_knowledge_points (map_qa_to_knowledge qa_data P) !! (t, q) =
    Some (knowledge_idx <$> omap (matched_point_of (qa_text_of qa)) (enumerate P)).
Proof.
  intros Hg Hqa. destruct (qa_unit_at _ _ _ _ _ Hg Hqa) as [Hu Huniq].
  rewrite map_qa_to_knowledge_units, units_fold_qkp.
  destruct (last _) as [u|] eqn:Hlast.
  - apply last_Some_elem_of in Hlast. apply list_elem_of_filter in Hlast as [Hid Hin].
    rewrite (Huniq u Hin Hid). done.
  - apply last_None in Hlast.
    assert (((t, q), default (unnamed_topic t) (topic g), qa) ∈
              filter (λ u : qa_id_t * str * qa_pair, u.1.1 = (t, q)) (qa_units qa_data)) as Hf.
    { by apply list_elem_of_filter. }
    rewrite Hlast in Hf. by apply elem_of_nil in Hf.
Qed.

(** C6.  For a QA pair and a knowledge point, the mapper records the point
    among the pair's matched points (in its mapping entry and in the per-QA
    index list) and records the pair in the point's coverage list exactly
    when the similarity is strictly above 0.5.  The similarity is that of
    the combined text of the pair, its question, one space and its answer
    (a missing one read as the empty string), with the text of the point,
    both lower-cased; the recorded similarity is that value. *)
Theorem map_qa_to_knowledge_threshold qa_data P t g q qa k p :
  qa_data !! t = Some g → default [] (qa_pairs g) !! q = Some qa → P !! k = Some p →
  let mr := map_qa_to_knowledge qa_data P in
  let qa_text := default [] (question qa) ++ [SPACE] ++ default [] (answer qa) in
  let sim := nlp_similarity (str_lower qa_text) (str_lower (text p)) in
  ((∃ m mp, m ∈ mappings mr ∧ m_qa_id m = (t, q) ∧
            mp ∈ matched_points m ∧ knowledge_idx mp = k) ↔ (1 # 2 < sim)%Q) ∧
  (k ∈ default [] (qa_knowledge_points mr !! (t, q)) ↔ (1 # 2 < sim)%Q) ∧
  ((∃ e, e ∈ dd_get k (knowledge_coverage mr) ∧ ce_qa_id e = (t, q)) ↔
     (1 # 2 < sim)%Q) ∧
  (∀ m mp, m ∈ mappings mr → m_qa_id m = (t, q) → mp ∈ matched_points m →
           knowledge_idx mp = k →
           mp_similarity mp = sim ∧ knowledge_text mp = text p) ∧
  (∀ e, e ∈ dd_get k (knowledge_coverage mr) → ce_qa_id e = (t, q) →
        ce_similarity e = sim).
Proof.
  intros Hg Hqa Hp mr qa_text sim.
  change (get_qa_pairs g !! q = Some qa) in Hqa.
  change (text_similarity (qa_text_of qa) (text p)) in (value of sim).
  clear qa_text.
  destruct (qa_unit_at _ _ _ _ _ Hg Hqa) as [Hu Huniq].
  set (u0 := ((t, q), default (unnamed_topic t) (topic g), qa)) in *.
  assert (Hiff : matches (qa_text_of qa) p ↔ (1 # 2 < sim)%Q) by apply matches_iff.
  assert (Hmaps : mappings mr = mapping_of P <$> qa_units qa_data).
  { unfold mr. by rewrite map_qa_to_knowledge_units, units_fold_mappings. }
  assert (Hmp : ∀ m mp, m ∈ mappings mr → m_qa_id m = (t, q) →
            mp ∈ matched_points m → knowledge_idx mp = k →
            matches (qa_text_of qa) p ∧ mp_similarity mp = sim ∧
            knowledge_text mp = text p).
  { intros m mp Hm Hid Hin Hk. rewrite Hmaps in Hm.
    apply list_elem_of_fmap in Hm as (u & -> & Hin'). simpl in Hid.
    rewrite (Huniq u Hin' Hid) in Hin. simpl in Hin.
    apply elem_of_matched_points in Hin as (p' & Hp' & Hmatch & ->). simpl in *.
    rewrite Hk, Hp in Hp'. injection Hp' as <-. done. }
  assert (Hin0 : matches (qa_text_of qa) p →
            {| knowledge_idx := k; knowledge_text := text p; mp_similarity := sim;
               mp_priority := default normal (priority p) |}
              ∈ omap (matched_point_of (qa_text_of qa)) (enumerate P)).
  { intros Hm. apply elem_of_matched_points. exists p. done. }
  split; [|split; [|split; [|split]]].
  - rewrite <- Hiff. split.
    + intros (m & mp & Hm & Hid & Hin & Hk). by eapply Hmp.
    + intros Hm. exists (mapping_of P u0). eexists. split; [|split; [done|split]].
      * rewrite Hmaps. apply list_elem_of_fmap. eauto.
      * simpl. by apply Hin0.
      * done.
  - unfold mr. rewrite (qa_knowledge_points_at _ _ _ _ _ _ Hg Hqa). simpl.
    rewrite <- Hiff, list_elem_of_fmap. split.
    + intros (mp & -> & Hin).
      apply elem_of_matched_points in Hin as (p' & Hp' & Hmatch & _).
      rewrite Hp in Hp'. by injection Hp' as <-.
    + intros Hm. eexists. split; [|by apply Hin0]. done.
  - rewrite <- Hiff. unfold mr. setoid_rewrite knowledge_coverage_entries.
    split.
    + intros (e & (u & p' & Hin & Hp' & He) & Hid).
      apply coverage_entry_of_Some in He as [Hm ->]. simpl in Hid.
      rewrite (Huniq u Hin Hid) in Hm. rewrite Hp in Hp'. by injection Hp' as <-.
    + intros Hm. eexists. split.
      * exists u0, p. split; [done|]. split; [done|].
        apply coverage_entry_of_Some. done.
      * done.
  - intros m mp Hm Hid Hin Hk. by eapply Hmp.
  - intros e He Hid. unfold mr in He. apply knowledge_coverage_entries in He.
    destruct He as (u & p' & Hin & Hp' & He).
    apply coverage_entry_of_Some in He as [Hm ->]. simpl in *.
    rewrite (Huniq u Hin Hid). rewrite Hp in Hp'. by injection Hp' as <-.
Qed.

End Mapper.

(** * Gaps *)

Section Gaps.
Context {C : Collaborators}.
Implicit Types (P : list knowledge_point) (p : knowledge_point)
  (mr : mapping_results_t) (g : gap).

Lemma filter_fmap_comm {A B} (f : A → B) (Q : B → Prop) `{∀ x, Decision (Q x)}
    (l : list A) :
  filter Q (f <$> l) = f <$> filter (λ x, Q (f x)) l.
Proof.
  induction l as [|x l IH]; [done|].
  rewrite fmap_cons, !filter_cons, IH. by destruct (decide (Q (f x))).
Qed.

Lemma fst_enumerate {A} (l : list A) : (enumerate l).*1 = seq 0 (length l).
Proof.
  unfold enumerate. rewrite fmap_imap.
  rewrite (imap_ext _ (λ i _, i)) by done. rewrite imap_seq_0. apply list_fmap_id.
Qed.

Lemma elem_of_uncovered_points mr P g :
  g ∈ uncovered_points_of mr P ↔
  ∃ i p, P !! i = Some p ∧ (i ∉ dom (knowledge_coverage mr)) ∧ g = gap_of (i, p).
Proof.
  unfold uncovered_points_of. rewrite list_elem_of_fmap. split.
  - intros ([i p] & -> & Hin). apply list_elem_of_filter in Hin as [Hi Hin].
    apply elem_of_enumerate in Hin. eauto.
  - intros (i & p & Hp & Hi & ->). exists (i, p). split; [done|].
    apply list_elem_of_filter. by rewrite elem_of_enumerate.
Qed.

Lemma uncovered_points_indices mr P :
  gap_index <$> uncovered_points_of mr P =
    filter (λ i, i ∉ dom (knowledge_coverage mr)) (seq 0 (length P)).
Proof.
  unfold uncovered_points_of. rewrite <- list_fmap_compose.
  rewrite <- fst_enumerate, filter_fmap_comm. done.
Qed.

Lemma all_gaps_unfold mr P :
  all_gaps (identify_knowledge_gaps mr P) =
    filter (λ g, gap_priority g = high) (uncovered_points_of mr P) ++
    filter (λ g, gap_priority g = normal) (uncovered_points_of mr P).
Proof.
  unfold identify_knowledge_gaps. simpl.
  rewrite sorted_two_keys by (intros; apply priority_key_cases).
  f_equal; apply filter_ext_in; intros g _.
  - rewrite priority_key_high. split; congruence.
  - rewrite priority_key_not_high. destruct (gap_priority g); split; congruence.
Qed.

Lemma filter_high_partition (l : list gap) :
  filter (λ g, gap_priority g = high)
         (filter (λ g, gap_priority g = high) l ++
          filter (λ g, gap_priority g = normal) l) =
  filter (λ g, gap_priority g = high) l.
Proof.
  rewrite filter_app. induction l as [|g l IH]; [done|].
  rewrite !filter_cons. destruct (gap_priority g) eqn:E.
  - rewrite decide_True, decide_False by done.
    rewrite filter_cons, decide_True by done. simpl. by rewrite IH.
  - rewrite decide_False, decide_True by done.
    rewrite filter_cons, decide_False by congruence. done.
Qed.

Lemma high_priority_gaps_unfold mr P :
  high_priority_gaps (identify_knowledge_gaps mr P) =
    filter (λ g, gap_priority g = high) (uncovered_points_of mr P).
Proof.
  pose proof (all_gaps_unfold mr P) as H. unfold identify_knowledge_gaps in *.
  simpl in *. rewrite H. apply filter_high_partition.
Qed.

Lemma length_filter_complement_gap (l : list gap) :
  length l =
    length (filter (λ g, gap_priority g = high) l) +
    length (filter (λ g, gap_priority g = normal) l).
Proof.
  induction l as [|g l IH]; [done|].
  rewrite !filter_cons. destruct (gap_priority g) eqn:E.
  - rewrite decide_True, decide_False by done. simpl. by rewrite IH.
  - rewrite decide_False, decide_True by done. simpl. rewrite IH. lia.
Qed.

Lemma elem_of_all_gaps mr P g :
  g ∈ all_gaps (identify_knowledge_gaps mr P) ↔ g ∈ uncovered_points_of mr P.
Proof.
  rewrite all_gaps_unfold, elem_of_app, !list_elem_of_filter.
  destruct (gap_priority g); split; try tauto; auto.
Qed.

(** C8.  The gap list holds exactly the points whose index is not a key of
    the coverage map, in the order of the point list, as entries with the
    point's index, text, type and priority; for the map built by the mapper
    these are the points that no QA pair matches (their coverage list is
    empty).  The returned list puts the high-priority gaps first and the
    normal ones after them, each tier in the order of the point list. *)
Theorem identify_knowledge_gaps_stable_partition mr P :
  let uncovered := uncovered_points_of mr P in
  let gaps := identify_knowledge_gaps mr P in
  gap_index <$> uncovered =
    filter (λ i, i ∉ dom (knowledge_coverage mr)) (seq 0 (length P)) ∧
  (∀ g, g ∈ uncovered ↔
        ∃ i p, P !! i = Some p ∧ (i ∉ dom (knowledge_coverage mr)) ∧
               gap_index g = i ∧ gap_text g = text p ∧
               gap_type g = default UNKNOWN (type p) ∧
               gap_priority g = default normal (priority p)) ∧
  (∀ qa_data i p,
     mr = map_qa_to_knowledge qa_data P → P !! i = Some p →
     (i ∉ dom (knowledge_coverage mr) ↔ dd_get i (knowledge_coverage mr) = []) ∧
     (i ∉ dom (knowledge_coverage mr) ↔ ¬ covered_by qa_data p)) ∧
  all_gaps gaps =
    filter (λ g, gap_priority g = high) uncovered ++
    filter (λ g, gap_priority g = normal) uncovered ∧
  high_priority_gaps gaps = filter (λ g, gap_priority g = high) uncovered ∧
  gap_count gaps = length uncovered ∧
  high_priority_gap_count gaps = length (high_priority_gaps gaps).
Proof.
  intros uncovered gaps.
  split; [apply uncovered_points_indices|].
  split.
  { intros g. unfold uncovered. rewrite elem_of_uncovered_points. split.
    - intros (i & p & Hp & Hi & ->). exists i, p. done.
    - intros (i & p & Hp & Hi & Hgi & Ht & Hty & Hpr). exists i, p.
      split; [done|]. split; [done|]. destruct g. simpl in *. by subst. }
  split.
  { intros qa_data i p -> Hp. split.
    - rewrite elem_of_dom_no_empty by apply knowledge_coverage_no_empty. split.
      + intros Hno. destruct (dd_get i _) as [|e l] eqn:E; [done|].
        exfalso. apply Hno. exists e. by left.
      + intros -> [e He]. by apply elem_of_nil in He.
    - rewrite elem_of_dom_knowledge_coverage. split.
      + intros Hno Hc. apply Hno. eauto.
      + intros Hno (p' & Hp' & Hc). rewrite Hp in Hp'. by injection Hp' as <-. }
  split; [apply all_gaps_unfold|].
  split; [apply high_priority_gaps_unfold|].
  split.
  - unfold gaps, identify_knowledge_gaps. simpl.
    pose proof (all_gaps_unfold mr P) as H. unfold identify_knowledge_gaps in H.
    simpl in H. rewrite H. by rewrite length_app, <- length_filter_complement_gap.
  - done.
Qed.

End Gaps.

(** * Entity and noun-phrase points are never high priority *)

Section BasicPoints.
Context {C : Collaborators}.
Implicit Types (p : knowledge_point) (mr : mapping_results_t).

Lemma extract_knowledge_points_origin content mc p :
  p ∈ extract_knowledge_points content mc →
  (paragraph_idx p = None ∧ (source p = src_entity ∨ source p = src_noun_chunk)) ∨
  (∃ i, paragraph_idx p = Some i ∧ source p = src_paragraph i ∧
        type p = Some LLM_EXTRACTED).
Proof.
  intros Hp. apply unique_points_subseteq in Hp.
  apply elem_of_app in Hp as [Hp|Hp].
  - left. by eapply basic_points_no_paragraph.
  - right. by eapply advanced_points_paragraph.
Qed.

Lemma elem_of_prioritize points hr p :
  p ∈ prioritize_knowledge_points points hr ↔
  ∃ p0, p0 ∈ points ∧ p = assign_priority (low_coverage_paragraphs hr) p0.
Proof.
  unfold prioritize_knowledge_points.
  rewrite elem_of_sorted_two_keys by (intros; apply priority_key_cases).
  rewrite list_elem_of_fmap. naive_solver.
Qed.

(** C10.  Among the extracted points only those produced by the language
    model carry a source paragraph; entity and noun-phrase points carry none,
    so the prioritizer gives them priority [normal] whatever the low-coverage
    paragraphs are, and no gap that stands for such a point is a
    high-priority gap. *)
Theorem basic_points_always_normal content mc hr mr :
  let points := extract_knowledge_points content mc in
  let prioritized := prioritize_knowledge_points points hr in
  let gaps := identify_knowledge_gaps mr prioritized in
  (∀ p, p ∈ points → is_Some (paragraph_idx p) →
        type p = Some LLM_EXTRACTED ∧
        ∃ i, paragraph_idx p = Some i ∧ source p = src_paragraph i) ∧
  (∀ p, p ∈ points → source p = src_entity ∨ source p = src_noun_chunk →
        paragraph_idx p = None) ∧
  (∀ p, p ∈ prioritized → source p = src_entity ∨ source p = src_noun_chunk →
        priority p = Some normal) ∧
  (∀ g p, g ∈ all_gaps gaps → prioritized !! gap_index g = Some p →
          source p = src_entity ∨ source p = src_noun_chunk →
          gap_priority g = normal ∧ g ∉ high_priority_gaps gaps).
Proof.
  intros points prioritized gaps.
  assert (Hbasic : ∀ p, p ∈ points →
            source p = src_entity ∨ source p = src_noun_chunk →
            paragraph_idx p = None).
  { intros p Hp Hsrc.
    destruct (extract_knowledge_points_origin _ _ _ Hp) as [[? _]|(i & _ & Hs & _)];
      [done|].
    destruct (src_paragraph_not_basic i). destruct Hsrc; congruence. }
  assert (Hprio : ∀ p, p ∈ prioritized →
            source p = src_entity ∨ source p = src_noun_chunk →
            priority p = Some normal).
  { intros p Hp Hsrc. apply elem_of_prioritize in Hp as (p0 & Hp0 & ->).
    simpl in *. by rewrite (Hbasic p0 Hp0 Hsrc). }
  split; [|split; [done|split; [done|]]].
  - intros p Hp [i Hi].
    destruct (extract_knowledge_points_origin _ _ _ Hp) as [[? _]|(j & Hj & Hs & Ht)];
      [congruence|]. eauto.
  - intros g p Hg Hp Hsrc.
    assert (gap_priority g = normal) as Hn.
    { apply elem_of_all_gaps, elem_of_uncovered_points in Hg.
      destruct Hg as (i & p' & Hp' & _ & ->). simpl in *.
      rewrite Hp in Hp'. injection Hp' as <-.
      rewrite (Hprio p); [done| |done]. by eapply list_elem_of_lookup_2. }
    split; [done|]. unfold gaps. rewrite high_priority_gaps_unfold.
    rewrite list_elem_of_filter. intros [Hh _]. congruence.
Qed.

End BasicPoints.

(** * Weighted coverage *)

Section Coverage.
Context {C : Collaborators}.
Implicit Types (P : list knowledge_point) (p : knowledge_point)
  (mr : mapping_results_t).

Lemma weight_of_cases p :
  (priority p = Some high ∧ weight_of p = 1.5%Q) ∨
  (priority p ≠ Some high ∧ weight_of p = 1.0%Q).
Proof. unfold weight_of. case_decide; auto. Qed.

Lemma Qsum_foldl (l : list Q) : ∀ a, (foldl Qplus a l == a + Qsum l)%Q.
Proof.
  unfold Qsum. induction l as [|x l IH]; intros a; simpl.
  - lra.
  - rewrite IH, (IH (0 + x)%Q). lra.
Qed.

Lemma Qsum_cons x (l : list Q) : (Qsum (x :: l) == x + Qsum l)%Q.
Proof. unfold Qsum at 1. simpl. rewrite Qsum_foldl. lra. Qed.

Lemma Qsum_perm (l l' : list Q) : l ≡ₚ l' → (Qsum l == Qsum l')%Q.
Proof.
  induction 1 as [|x l l' _ IH|x y l|l l' l'' _ IH1 _ IH2].
  - reflexivity.
  - rewrite !Qsum_cons, IH. reflexivity.
  - rewrite !Qsum_cons. lra.
  - by rewrite IH1.
Qed.

Lemma inject_nat_S (n : nat) :
  (inject_Z (Z.of_nat (S n)) == inject_Z (Z.of_nat n) + 1)%Q.
Proof. rewrite Nat2Z.inj_succ. unfold Z.succ. rewrite inject_Z_plus. reflexivity. Qed.

(** The sum of the weights: 1.5 for every high point, 1 for every other. *)
Lemma Qsum_weights P :
  (Qsum (weight_of <$> P) ==
     (3 # 2) * inject_Z (Z.of_nat (length (filter (λ p, priority p = Some high) P)))
     + inject_Z (Z.of_nat (length (filter (λ p, priority p ≠ Some high) P))))%Q.
Proof.
  induction P as [|p P IH]; [reflexivity|].
  rewrite fmap_cons, Qsum_cons, IH, !filter_cons.
  destruct (weight_of_cases p) as [[Hp ->]|[Hp ->]].
  - rewrite decide_True, decide_False by (done || tauto).
    simpl length. rewrite inject_nat_S. lra.
  - rewrite decide_False, decide_True by done.
    simpl length. rewrite inject_nat_S. lra.
Qed.

Lemma Qsum_weights_pos P : P ≠ [] → (0 < Qsum (weight_of <$> P))%Q.
Proof.
  intros HP. assert (inject_Z (Z.of_nat (length P)) <= Qsum (weight_of <$> P))%Q as Hle.
  { clear HP. induction P as [|p P IH]; [by compute|].
    rewrite fmap_cons, Qsum_cons. simpl length. rewrite inject_nat_S.
    destruct (weight_of_cases p) as [[_ ->]|[_ ->]]; lra. }
  eapply Qlt_le_trans; [|exact Hle].
  destruct P; [done|]. simpl length. rewrite inject_nat_S.
  assert (0 <= inject_Z (Z.of_nat (length P)))%Q.
  { change 0%Q with (inject_Z 0). rewrite <- Zle_Qle. lia. }
  lra.
Qed.

Lemma cover_fold weights (ks : list nat) : ∀ st,
  foldl (cover_step weights) st ks =
    (st.1 ∪ list_to_set ks,
     foldl Qplus st.2 ((λ k, default 1.0%Q (weights !! k)) <$> ks)).
Proof.
  induction ks as [|k ks IH]; intros [S x]; simpl.
  - f_equal. set_solver.
  - rewrite IH. simpl. f_equal. set_solver.
Qed.

Lemma list_to_set_keys {V} (d : gmap nat V) :
  list_to_set (C := gset nat) (keys d) = dom d.
Proof. unfold keys. apply leibniz_equiv. by rewrite dom_alt. Qed.

Lemma keys_elements {V} (d : gmap nat V) : keys d ≡ₚ elements (dom d).
Proof.
  rewrite <- list_to_set_keys. symmetry. apply elements_list_to_set.
  apply NoDup_fst_map_to_list.
Qed.

Lemma covered_fold_unfold mr P :
  foldl (cover_step (knowledge_weights P)) (∅, 0%Q) (keys (knowledge_coverage mr)) =
    (dom (knowledge_coverage mr),
     Qsum (point_weight P <$> keys (knowledge_coverage mr))).
Proof.
  rewrite cover_fold. simpl. rewrite list_to_set_keys. f_equal. set_solver.
Qed.

Lemma covered_points_size mr P :
  covered_points (calculate_weighted_coverage mr P) = size (dom (knowledge_coverage mr)).
Proof. unfold calculate_weighted_coverage. simpl. by rewrite covered_fold_unfold. Qed.

Lemma simple_coverage_unfold mr P :
  simple_coverage (calculate_weighted_coverage mr P) =
    if decide (P = []) then 0%Q
    else ratio (size (dom (knowledge_coverage mr))) (length P).
Proof.
  unfold calculate_weighted_coverage. simpl. rewrite covered_fold_unfold.
  by destruct P.
Qed.

Lemma weighted_coverage_unfold mr P :
  (weighted_coverage (calculate_weighted_coverage mr P) ==
     if decide (P = []) then 0
     else Qsum (point_weight P <$> elements (dom (knowledge_coverage mr)))
          / Qsum (weight_of <$> P))%Q.
Proof.
  unfold calculate_weighted_coverage. simpl. rewrite covered_fold_unfold. simpl.
  fold (knowledge_weights P). destruct (decide (P = [])) as [->|HP].
  - reflexivity.
  - assert (Qgtb (Qsum (knowledge_weights P)) 0 = true) as ->.
    { apply Qgtb_true. by apply Qsum_weights_pos. }
    apply Qdiv_comp; [|reflexivity].
    apply Qsum_perm. apply fmap_Permutation. apply keys_elements.
Qed.

End Coverage.

(** * The lexical stage *)

Section Lexical.
Context {C : Collaborators}.
Implicit Types (lsh : MinHashLSH) (st : match_state) (qa_data : list topic_group).

Lemma true_div_pos a b : b ≠ 0 → true_div a b = Ok (ratio a b).
Proof. by destruct b. Qed.

Lemma split_document_empty : split_document [] = [].
Proof. reflexivity. Qed.

(** The division by the number of paragraphs is not guarded. *)
Lemma compute_lsh_coverage_no_segments qa_hashes threshold :
  compute_lsh_coverage [] qa_hashes threshold = Raise ZeroDivisionError.
Proof. reflexivity. Qed.

Lemma hash_based_evaluation_no_segments doc qa_data threshold :
  split_document doc = [] →
  hash_based_evaluation doc qa_data threshold = Raise ZeroDivisionError.
Proof.
  intros H. unfold hash_based_evaluation. rewrite H. reflexivity.
Qed.

Lemma compute_lsh_coverage_ok doc_hashes qa_hashes threshold :
  doc_hashes ≠ [] →
  let st := run_queries (build_index threshold doc_hashes) qa_hashes in
  let with_match := size (filter (λ kv : nat * list nat, kv.2 ≠ []) (ms_qa_matches st)) in
  compute_lsh_coverage doc_hashes qa_hashes threshold =
    Ok {| covered_paragraphs := ms_covered st;
          paragraph_coverage := ms_paragraph_coverage st;
          qa_matches := ms_qa_matches st;
          total_paragraphs := length doc_hashes;
          coverage_rate := ratio (size (ms_covered st)) (length doc_hashes);
          qa_with_match := with_match;
          qa_match_rate :=
            match qa_hashes with
            | [] => 0%Q
            | _ :: _ => ratio with_match (length qa_hashes)
            end |}.
Proof.
  intros Hne st with_match. unfold compute_lsh_coverage. fold st. fold with_match.
  assert (length doc_hashes ≠ 0) as Hlen.
  { intros E. by apply Hne, nil_length_inv. }
  rewrite (true_div_pos _ _ Hlen).
  destruct qa_hashes as [|q qs] eqn:Eq; [done|]. rewrite <- Eq in *.
  assert (length qa_hashes ≠ 0) as Hlen' by (by rewrite Eq).
  rewrite (true_div_pos _ _ Hlen'). by rewrite Eq.
Qed.

Lemma record_fold_covered qa_idx (res : list nat) : ∀ st,
  ms_covered (foldl (record_match qa_idx) st res) = ms_covered st ∪ list_to_set res.
Proof.
  induction res as [|k res IH]; intros st; simpl; [set_solver|].
  rewrite IH. simpl. set_solver.
Qed.

Lemma query_step_covered lsh st (q : nat * qa_hash) :
  ms_covered (query_step lsh st q) =
    ms_covered st ∪ list_to_set (lsh_query lsh (qh_minhash q.2)).
Proof.
  unfold query_step. destruct (lsh_query lsh (qh_minhash q.2)) as [|k res] eqn:E.
  - set_solver.
  - by rewrite record_fold_covered.
Qed.

Lemma query_fold_covered lsh (l : list (nat * qa_hash)) k : ∀ st,
  k ∈ ms_covered (foldl (query_step lsh) st l) ↔
  k ∈ ms_covered st ∨ ∃ q, q ∈ l ∧ k ∈ lsh_query lsh (qh_minhash q.2).
Proof.
  induction l as [|q l IH]; intros st; simpl.
  - split; [auto|]. intros [?|(q & Hq & _)]; [done|]. by apply elem_of_nil in Hq.
  - rewrite IH, query_step_covered, elem_of_union, elem_of_list_to_set.
    setoid_rewrite elem_of_cons. split.
    + intros [[?|?]|(q' & ? & ?)]; [auto| |]; right; eauto.
    + intros [?|(q' & [->|?] & ?)]; [auto|auto|]. right. eauto.
Qed.

Lemma elem_of_run_queries lsh (qa_hashes : list qa_hash) k :
  k ∈ ms_covered (run_queries lsh qa_hashes) ↔
  ∃ q, q ∈ qa_hashes ∧ k ∈ lsh_query lsh (qh_minhash q).
Proof.
  unfold run_queries. rewrite query_fold_covered. simpl. split.
  - intros [?|([i q] & Hq & Hk)]; [set_solver|]. apply elem_of_enumerate in Hq.
    exists q. split; [by eapply list_elem_of_lookup_2|done].
  - intros (q & Hq & Hk). right. apply list_elem_of_lookup_1 in Hq as [i Hi].
    exists (i, q). by rewrite elem_of_enumerate.
Qed.

Lemma elem_of_compute_qa_minhash qa_data mh :
  (∃ q, q ∈ compute_qa_minhash qa_data ∧ qh_minhash q = mh) ↔
  ∃ u, u ∈ qa_units qa_data ∧ mh = sketch_of (qa_text_of u.2).
Proof.
  unfold compute_qa_minhash, qa_units. setoid_rewrite list_elem_of_join. split.
  - intros (q & (l & Hq & Hl) & <-).
    apply elem_of_lookup_imap in Hl as (t & g & -> & Hg).
    apply elem_of_lookup_imap in Hq as (i & qa & -> & Hqa). simpl.
    exists ((t, i), default (unnamed_topic t) (topic g), qa). split; [|done].
    exists (imap (λ qa_idx qa0, ((t, qa_idx), default (unnamed_topic t) (topic g), qa0))
                 (get_qa_pairs g)).
    split; apply elem_of_lookup_imap; eauto.
  - intros (u & (l & Hu & Hl) & ->).
    apply elem_of_lookup_imap in Hl as (t & g & -> & Hg).
    apply elem_of_lookup_imap in Hu as (i & qa & -> & Hqa). simpl.
    set (mk := λ qa_idx qa0,
      {| qh_minhash := sketch_of (qa_text_of qa0);
         qh_topic := default (unnamed_topic t) (topic g);
         qh_question := get_question qa0; qh_answer := get_answer qa0;
         qh_qa_idx := qa_idx; qh_topic_idx := t |}).
    exists (mk i qa). split; [|done].
    exists (imap mk (get_qa_pairs g)). split.
    + apply elem_of_lookup_imap. exists i, qa. done.
    + apply elem_of_lookup_imap. exists t, g. done.
Qed.

(** A paragraph is covered when the sketch of some QA pair retrieves it. *)
Lemma elem_of_lexical_covered doc qa_data threshold k :
  k ∈ lexical_covered doc qa_data threshold ↔
  ∃ u, u ∈ qa_units qa_data ∧
       k ∈ lsh_query (build_index threshold (compute_minhash (split_document doc)))
                     (sketch_of (qa_text_of u.2)).
Proof.
  unfold lexical_covered. rewrite elem_of_run_queries. split.
  - intros (q & Hq & Hk).
    destruct (proj1 (elem_of_compute_qa_minhash qa_data (qh_minhash q))) as (u & Hu & E);
      [eauto|]. exists u. by rewrite <- E.
  - intros (u & Hu & Hk).
    destruct (proj2 (elem_of_compute_qa_minhash qa_data (sketch_of (qa_text_of u.2))))
      as (q & Hq & E); [eauto|]. exists q. by rewrite E.
Qed.

Lemma hash_based_evaluation_ok doc qa_data threshold :
  split_document doc ≠ [] →
  ∃ r, hash_based_evaluation doc qa_data threshold = Ok r ∧
       r.1.2 = split_document doc ∧
       covered_paragraphs r.2 = lexical_covered doc qa_data threshold ∧
       hr_covered_paragraphs r.1.1 = size (lexical_covered doc qa_data threshold) ∧
       hr_total_paragraphs r.1.1 = length (split_document doc) ∧
       hr_coverage_rate r.1.1 =
         ratio (size (lexical_covered doc qa_data threshold))
               (length (split_document doc)) ∧
       hr_qa_with_match r.1.1 = qa_with_match r.2 ∧
       hr_qa_match_rate r.1.1 =
         match compute_qa_minhash qa_data with
         | [] => 0%Q
         | _ :: _ => ratio (qa_with_match r.2) (length (compute_qa_minhash qa_data))
         end ∧
       qa_with_match r.2 =
         size (filter (λ kv : nat * list nat, kv.2 ≠ [])
                 (ms_qa_matches
                    (run_queries
                       (build_index threshold (compute_minhash (split_document doc)))
                       (compute_qa_minhash qa_data)))) ∧
       paragraph_details r.1.1 =
         imap (λ i segment,
                 {| pd_index := i;
                    pd_content := take 100 segment ++ ellipsis;
                    matched_qa_count := length (dd_get i (paragraph_coverage r.2));
                    matched_qa_indices := dd_get i (paragraph_coverage r.2) |})
              (split_document doc) ∧
       paragraph_coverage r.2 =
         ms_paragraph_coverage
           (run_queries (build_index threshold (compute_minhash (split_document doc)))
                        (compute_qa_minhash qa_data)).
Proof.
  intros Hne. unfold hash_based_evaluation.
  rewrite compute_lsh_coverage_ok.
  - simpl. eexists. split; [reflexivity|]. simpl.
    unfold compute_minhash. rewrite length_fmap. done.
  - unfold compute_minhash. by destruct (split_document doc).
Qed.

Lemma record_match_consistent qa_idx st para_idx :
  paragraphs_consistent st → paragraphs_consistent (record_match qa_idx st para_idx).
Proof.
  intros [Hc Hne]. split; simpl.
  - unfold dd_append. rewrite dom_insert_L, Hc. set_solver.
  - by apply no_empty_dd_append.
Qed.

Lemma run_queries_consistent lsh (qa_hashes : list qa_hash) :
  paragraphs_consistent (run_queries lsh qa_hashes).
Proof.
  unfold run_queries.
  assert (∀ (l : list (nat * qa_hash)) st,
            paragraphs_consistent st →
            paragraphs_consistent (foldl (query_step lsh) st l)) as Hfold.
  { induction l as [|q l IH]; intros st Hst; simpl; [done|]. apply IH.
    unfold query_step. destruct (lsh_query lsh (qh_minhash q.2)) as [|k res]; [done|].
    generalize (k :: res). intros res'. revert st Hst.
    induction res' as [|i res' IHr]; intros st Hst; simpl; [done|].
    by apply IHr, record_match_consistent. }
  apply Hfold. split; simpl.
  - set_solver.
  - intros k l. by rewrite lookup_empty.
Qed.

(** The paragraphs that the report of a run lists without a matched QA pair
    are the paragraphs that are not covered. *)
Lemma low_coverage_paragraphs_of_run doc qa_data threshold r i :
  hash_based_evaluation doc qa_data threshold = Ok r →
  i ∈ low_coverage_paragraphs r.1.1 ↔
  i < length (split_document doc) ∧ i ∉ covered_paragraphs r.2.
Proof.
  intros Hr.
  destruct (decide (split_document doc = [])) as [Hd|Hd].
  { rewrite hash_based_evaluation_no_segments in Hr by done. done. }
  destruct (hash_based_evaluation_ok doc qa_data threshold Hd)
    as (r' & Hr' & _ & Hcov & _ & _ & _ & _ & _ & _ & Hpd & Hpc).
  rewrite Hr in Hr'. injection Hr' as <-.
  destruct (run_queries_consistent
              (build_index threshold (compute_minhash (split_document doc)))
              (compute_qa_minhash qa_data)) as [Hc Hne].
  rewrite <- Hpc in Hc, Hne. fold (lexical_covered doc qa_data threshold) in Hc.
  rewrite <- Hcov in Hc. rewrite Hc.
  rewrite (elem_of_dom_no_empty _ _ Hne).
  unfold low_coverage_paragraphs. rewrite list_elem_of_fmap, Hpd. split.
  - intros (d & -> & Hin). apply list_elem_of_filter in Hin as [Hz Hin].
    apply elem_of_lookup_imap in Hin as (j & segment & -> & Hj). simpl in *.
    split; [by eapply lookup_lt_Some|]. intros [e He].
    destruct (dd_get j (paragraph_coverage r.2)); [by apply elem_of_nil in He|done].
  - intros [Hlt Hno]. apply lookup_lt_is_Some in Hlt as [segment Hs].
    eexists. split; [|apply list_elem_of_filter; split;
      [|apply elem_of_lookup_imap; exists i, segment; split; [reflexivity|done]]].
    + done.
    + simpl. destruct (dd_get i (paragraph_coverage r.2)) as [|e l] eqn:E; [done|].
      exfalso. apply Hno. exists e. by left.
Qed.

(** C4.  The prioritizer gives priority [high] to exactly the points whose
    known source paragraph is among the paragraphs that the lexical report
    lists with no matched QA pair (for the report of a run: the paragraphs
    that no QA pair covers), and [normal] to all others, changing nothing
    else; its output lists the high points first and then the normal ones,
    each tier in input order (a stable partition). *)
Theorem prioritize_knowledge_points_stable_partition points hr :
  let low := low_coverage_paragraphs hr in
  let pts := assign_priority low <$> points in
  (∀ i, i ∈ low ↔
        ∃ d, d ∈ paragraph_details hr ∧ pd_index d = i ∧ matched_qa_count d = 0) ∧
  (∀ doc qa_data threshold r,
     hash_based_evaluation doc qa_data threshold = Ok r → hr = r.1.1 →
     ∀ i, i ∈ low ↔ i < length (split_document doc) ∧ i ∉ covered_paragraphs r.2) ∧
  (∀ p, (priority (assign_priority low p) = Some high ↔
           ∃ i, paragraph_idx p = Some i ∧ i ∈ low) ∧
        (priority (assign_priority low p) = Some normal ↔
           ¬ ∃ i, paragraph_idx p = Some i ∧ i ∈ low) ∧
        text (assign_priority low p) = text p ∧
        type (assign_priority low p) = type p ∧
        source (assign_priority low p) = source p ∧
        paragraph_idx (assign_priority low p) = paragraph_idx p) ∧
  prioritize_knowledge_points points hr =
    filter (λ p, priority p = Some high) pts ++
    filter (λ p, priority p = Some normal) pts.
Proof.
  intros low pts. split; [|split; [|split]].
  - apply elem_of_low_coverage_paragraphs.
  - intros doc qa_data threshold r Hr -> i.
    by apply (low_coverage_paragraphs_of_run doc qa_data threshold).
  - intros p. split; [apply assign_priority_high|].
    split; [|done].
    rewrite <- assign_priority_high.
    destruct (assign_priority_cases low p) as [E|E]; rewrite E; split; congruence.
  - apply prioritize_unfold.
Qed.

Lemma compute_qa_minhash_fill_defaults qa_data :
  compute_qa_minhash (fill_defaults qa_data) = compute_qa_minhash qa_data.
Proof.
  unfold compute_qa_minhash, fill_defaults. rewrite imap_fmap. f_equal.
  apply imap_ext. intros t g _. simpl.
  unfold get_qa_pairs at 1. simpl. rewrite imap_fmap. by apply imap_ext.
Qed.

(** C1.  With no paragraph the lexical stage does not return rates of 0: the
    quotient by the number of paragraphs is taken without a guard and the
    stage raises [ZeroDivisionError], for the empty document as for any
    document without a paragraph of 50 characters, whatever the QA pairs
    are.  (The QA match rate, two lines below in the source, is guarded.) *)
Theorem coverage_rate_unguarded doc qa_hashes qa_data threshold :
  compute_lsh_coverage [] qa_hashes threshold = Raise ZeroDivisionError ∧
  (hash_based_evaluation doc qa_data threshold = Raise ZeroDivisionError ↔
     split_document doc = []) ∧
  hash_based_evaluation [] qa_data threshold = Raise ZeroDivisionError ∧
  hash_based_evaluation (lit "too short") qa_data threshold = Raise ZeroDivisionError.
Proof.
  split; [reflexivity|]. split; [|split; reflexivity]. split.
  - intros Hraise. destruct (decide (split_document doc = [])) as [|Hd]; [done|].
    destruct (hash_based_evaluation_ok doc qa_data threshold Hd) as (r & Hr & _).
    congruence.
  - apply hash_based_evaluation_no_segments.
Qed.

End Lexical.

(** * Sketches of empty token sequences *)

Section EmptySketch.
Context {C : Collaborators}.
Implicit Types (lsh : MinHashLSH) (mh : MinHash).

Lemma minhash_of_no_tokens n : minhash_of_tokens n [] = replicate n _max_hash.
Proof. reflexivity. Qed.

Lemma elem_of_lsh_query lsh mh k :
  k ∈ lsh_query lsh mh ↔
  ∃ mh', (k, mh') ∈ lsh_entries lsh ∧ band_match (lsh_b lsh) (lsh_r lsh) mh' mh ∧
         ¬ is_empty_sketch mh' ∧ ¬ is_empty_sketch mh.
Proof.
  unfold lsh_query. destruct (decide (is_empty_sketch mh)) as [He|He].
  { split; [by intros ?%elem_of_nil|]. by intros (mh' & _ & _ & _ & ?). }
  rewrite elem_of_elements, elem_of_list_to_set, list_elem_of_fmap.
  split.
  - intros ([k' mh'] & -> & Hin). apply list_elem_of_filter in Hin as [[Hn Hb] Hin].
    exists mh'. done.
  - intros (mh' & Hin & Hb & Hn & _). exists (k, mh'). split; [done|].
    by apply list_elem_of_filter.
Qed.

Lemma lsh_query_empty_sketch lsh mh : is_empty_sketch mh → lsh_query lsh mh = [].
Proof. intros He. unfold lsh_query. by rewrite decide_True. Qed.

Lemma is_empty_sketch_replicate n : is_empty_sketch (replicate n _max_hash).
Proof. apply Forall_forall. by intros v [-> _]%elem_of_replicate. Qed.

Lemma band_match_refl b r mh : 1 ≤ b → band_match b r mh mh.
Proof.
  intros Hb. unfold band_match. apply Exists_exists. exists 0. split; [|done].
  apply elem_of_seq. lia.
Qed.

Lemma build_index_fold (l : list (nat * doc_hash)) : ∀ lsh,
  let lsh' := foldl (λ lsh d, lsh_insert d.1 (dh_minhash d.2) lsh) lsh l in
  lsh_b lsh' = lsh_b lsh ∧ lsh_r lsh' = lsh_r lsh ∧
  lsh_entries lsh' = lsh_entries lsh ++ ((λ d, (d.1, dh_minhash d.2)) <$> l).
Proof.
  induction l as [|d l IH]; intros lsh; simpl.
  - by rewrite app_nil_r.
  - destruct (IH (lsh_insert d.1 (dh_minhash d.2) lsh)) as (-> & -> & ->).
    simpl. by rewrite <- app_assoc.
Qed.

Lemma elem_of_build_index threshold (segments : list str) k mh :
  (k, mh) ∈ lsh_entries (build_index threshold (compute_minhash segments)) ↔
  ∃ segment, segments !! k = Some segment ∧ mh = sketch_of segment.
Proof.
  unfold build_index.
  destruct (build_index_fold (enumerate (compute_minhash segments))
              (MinHashLSH_new threshold)) as (_ & _ & ->).
  simpl. rewrite list_elem_of_fmap. split.
  - intros ([i d] & [= -> ->] & Hin). apply elem_of_enumerate in Hin.
    unfold compute_minhash in Hin. rewrite list_lookup_fmap in Hin.
    destruct (segments !! i) as [segment|]; [|done]. injection Hin as <-. eauto.
  - intros (segment & Hs & ->).
    exists (k, {| dh_minhash := sketch_of segment; dh_content := segment;
                  dh_length := length segment |}).
    split; [done|]. apply elem_of_enumerate.
    unfold compute_minhash. rewrite list_lookup_fmap, Hs. reflexivity.
Qed.

Lemma build_index_params threshold doc_hashes :
  lsh_b (build_index threshold doc_hashes) = (lsh_params threshold).1 ∧
  lsh_r (build_index threshold doc_hashes) = (lsh_params threshold).2.
Proof.
  unfold build_index.
  destruct (build_index_fold (enumerate doc_hashes) (MinHashLSH_new threshold))
    as (-> & -> & _). done.
Qed.

End EmptySketch.

(** * Monotonicity in the QA set *)

Section Monotone.
Context {C : Collaborators}.
Implicit Types (P : list knowledge_point) (p : knowledge_point)
  (qa_data : list topic_group).

Lemma qa_units_append_old t qa qa_data u :
  u ∈ qa_units qa_data → u ∈ qa_units (append_qa t qa qa_data).
Proof.
  rewrite !elem_of_qa_units. intros (g & Hg & Hqa & Hname).
  unfold append_qa. destruct (qa_data !! t) as [g0|] eqn:Ht.
  - destruct (decide (u.1.1.1 = t)) as [E|E].
    + rewrite E in *. rewrite Ht in Hg. injection Hg as ->.
      eexists. split; [|split].
      * apply list_lookup_insert_eq. by eapply lookup_lt_Some.
      * unfold get_qa_pairs at 1. simpl. by apply lookup_app_l_Some.
      * done.
    + exists g. by rewrite list_lookup_insert_ne.
  - exists g. split; [|done]. by apply lookup_app_l_Some.
Qed.

Lemma qa_units_append_new t qa qa_data :
  ∃ u, u ∈ qa_units (append_qa t qa qa_data) ∧ u.2 = qa.
Proof.
  unfold append_qa. destruct (qa_data !! t) as [g0|] eqn:Ht.
  - exists ((t, length (get_qa_pairs g0)), default (unnamed_topic t) (topic g0), qa).
    split; [|done]. apply elem_of_qa_units. simpl.
    exists {| topic := topic g0; qa_pairs := Some (get_qa_pairs g0 ++ [qa]) |}.
    split; [|split].
    + apply list_lookup_insert_eq. by eapply lookup_lt_Some.
    + by apply (list_lookup_middle (get_qa_pairs g0) []).
    + done.
  - exists ((length qa_data, 0), unnamed_topic (length qa_data), qa).
    split; [|done]. apply elem_of_qa_units. simpl.
    exists {| topic := None; qa_pairs := Some [qa] |}. split; [|done].
    by apply list_lookup_middle.
Qed.

Lemma covered_by_append_old t qa qa_data p :
  covered_by qa_data p → covered_by (append_qa t qa qa_data) p.
Proof.
  unfold covered_by. rewrite !Exists_exists. intros (u & Hu & Hm).
  exists u. split; [by apply qa_units_append_old|done].
Qed.

Lemma covered_by_append_new t qa qa_data p :
  matches (qa_text_of qa) p → covered_by (append_qa t qa qa_data) p.
Proof.
  intros Hm. unfold covered_by. rewrite Exists_exists.
  destruct (qa_units_append_new t qa qa_data) as (u & Hu & E).
  exists u. by rewrite E.
Qed.

Lemma length_filter_mono {A} (Q1 Q2 : A → Prop)
    `{∀ x, Decision (Q1 x)} `{∀ x, Decision (Q2 x)} (l : list A) :
  (∀ x, x ∈ l → Q1 x → Q2 x) →
  length (filter Q1 l) ≤ length (filter Q2 l) ∧
  ((∃ x, x ∈ l ∧ Q2 x ∧ ¬ Q1 x) → length (filter Q1 l) < length (filter Q2 l)).
Proof.
  induction l as [|x l IH]; intros Himp.
  - split; [done|]. intros (x & Hx & _). by apply elem_of_nil in Hx.
  - destruct IH as [IHle IHlt]; [intros; apply Himp; [by right|done]|].
    rewrite !filter_cons.
    destruct (decide (Q1 x)) as [H1|H1], (decide (Q2 x)) as [H2|H2]; simpl.
    + split; [lia|]. intros (y & [->|Hy]%elem_of_cons & H2' & H1'); [done|].
      assert (length (filter Q1 l) < length (filter Q2 l)) by (apply IHlt; eauto). lia.
    + exfalso. apply H2, Himp; [by left|done].
    + split; lia.
    + split; [lia|]. intros (y & [->|Hy]%elem_of_cons & H2' & H1'); [done|].
      apply IHlt. eauto.
Qed.

(** The number of covered points is the number of points that some QA pair
    matches. *)
Lemma size_dom_knowledge_coverage qa_data P :
  size (dom (knowledge_coverage (map_qa_to_knowledge qa_data P))) =
    length (filter (covered_by qa_data) P).
Proof.
  set (idx := (filter (λ ip : nat * knowledge_point, covered_by qa_data ip.2)
                      (enumerate P)).*1).
  assert (dom (knowledge_coverage (map_qa_to_knowledge qa_data P)) =
            list_to_set idx) as ->.
  { apply set_eq. intros k.
    rewrite elem_of_dom_knowledge_coverage, elem_of_list_to_set.
    unfold idx. rewrite list_elem_of_fmap. split.
    - intros (p & Hp & Hc). exists (k, p). split; [done|].
      apply list_elem_of_filter. by rewrite elem_of_enumerate.
    - intros ([k' p] & -> & Hin). apply list_elem_of_filter in Hin as [Hc Hin].
      apply elem_of_enumerate in Hin. eauto. }
  rewrite size_list_to_set.
  - unfold idx. rewrite length_fmap.
    rewrite <- (snd_enumerate P) at 2. rewrite filter_fmap_comm, length_fmap. done.
  - unfold idx. eapply sublist_NoDup; [|apply fmap_sublist, sublist_filter].
    rewrite fst_enumerate. apply NoDup_seq.
Qed.

Lemma prioritize_Permutation points hr :
  prioritize_knowledge_points points hr ≡ₚ
    assign_priority (low_coverage_paragraphs hr) <$> points.
Proof.
  rewrite prioritize_unfold. simpl.
  induction points as [|p points IH]; [done|].
  rewrite fmap_cons, !filter_cons.
  destruct (assign_priority_cases (low_coverage_paragraphs hr) p) as [E|E]; rewrite E.
  - rewrite decide_True, decide_False by done. simpl. by rewrite IH.
  - rewrite decide_False, decide_True by done.
    rewrite <- Permutation_middle. by rewrite IH.
Qed.

(** Priorities do not change how many points are covered. *)
Lemma covered_points_prioritized qa_data points hr :
  covered_points (kr_coverage_stats (knowledge_mapping_evaluation qa_data points hr)) =
    length (filter (covered_by qa_data) points).
Proof.
  unfold knowledge_mapping_evaluation. cbn [kr_coverage_stats].
  rewrite covered_points_size, size_dom_knowledge_coverage.
  rewrite prioritize_Permutation, filter_fmap_comm, length_fmap. done.
Qed.

Lemma lexical_covered_append t qa qa_data doc threshold :
  lexical_covered doc qa_data threshold ⊆
    lexical_covered doc (append_qa t qa qa_data) threshold ∧
  ∀ i, i ∈ lsh_query (build_index threshold (compute_minhash (split_document doc)))
                     (sketch_of (qa_text_of qa)) →
       i ∈ lexical_covered doc (append_qa t qa qa_data) threshold.
Proof.
  split.
  - intros k. rewrite !elem_of_lexical_covered. intros (u & Hu & Hk).
    exists u. split; [by apply qa_units_append_old|done].
  - intros i Hi. apply elem_of_lexical_covered.
    destruct (qa_units_append_new t qa qa_data) as (u & Hu & E).
    exists u. by rewrite E.
Qed.

(** C9.  Appending a QA pair never lowers the counts.  Lexical stage: on a
    document without paragraphs both runs raise; otherwise both return, the
    second with at least as many covered paragraphs, and with more when the
    sketch of the new pair retrieves a paragraph that was not covered.
    Semantic stage, whatever the lexical results used for the priorities:
    the second run covers at least as many knowledge points, and more when
    the new pair matches a point that no earlier pair matched. *)
Theorem coverage_counts_monotone doc qa_data t qa threshold points hr hr' :
  let qa_data' := append_qa t qa qa_data in
  ((split_document doc = [] ∧
    hash_based_evaluation doc qa_data threshold = Raise ZeroDivisionError ∧
    hash_based_evaluation doc qa_data' threshold = Raise ZeroDivisionError) ∨
   (∃ r r',
      hash_based_evaluation doc qa_data threshold = Ok r ∧
      hash_based_evaluation doc qa_data' threshold = Ok r' ∧
      hr_covered_paragraphs r.1.1 ≤ hr_covered_paragraphs r'.1.1 ∧
      ((∃ i, i ∈ lsh_query (build_index threshold (compute_minhash (split_document doc)))
                           (sketch_of (qa_text_of qa)) ∧
             i ∉ covered_paragraphs r.2) →
       hr_covered_paragraphs r.1.1 < hr_covered_paragraphs r'.1.1))) ∧
  let n := covered_points (kr_coverage_stats
             (knowledge_mapping_evaluation qa_data points hr)) in
  let n' := covered_points (kr_coverage_stats
              (knowledge_mapping_evaluation qa_data' points hr')) in
  n ≤ n' ∧
  ((∃ p, p ∈ points ∧ matches (qa_text_of qa) p ∧ ¬ covered_by qa_data p) → n < n').
Proof.
  intros qa_data'. split.
  - destruct (decide (split_document doc = [])) as [Hd|Hd].
    + left. split; [done|]. split; by apply hash_based_evaluation_no_segments.
    + right.
      destruct (hash_based_evaluation_ok doc qa_data threshold Hd)
        as (r & Hr & _ & Hcov & Hn & _).
      destruct (hash_based_evaluation_ok doc qa_data' threshold Hd)
        as (r' & Hr' & _ & Hcov' & Hn' & _).
      exists r, r'. split; [done|]. split; [done|].
      destruct (lexical_covered_append t qa qa_data doc threshold) as [Hsub Hnew].
      rewrite Hn, Hn', Hcov. split.
      * by apply subseteq_size.
      * intros (i & Hi & Hnot). apply subset_size. split; [done|].
        intros Hsup. apply Hnot, Hsup, Hnew, Hi.
  - intros n n'. unfold n, n'. rewrite !covered_points_prioritized.
    destruct (length_filter_mono (covered_by qa_data) (covered_by qa_data') points)
      as [Hle Hlt].
    { intros p _. apply covered_by_append_old. }
    split; [exact Hle|]. intros (p & Hp & Hm & Hnot). apply Hlt.
    exists p. split; [done|]. split; [by apply covered_by_append_new|done].
Qed.

End Monotone.

(** * The rates of a run lie in the unit interval *)

Section Bounds.
Context {C : Collaborators}.
Implicit Types (P : list knowledge_point) (qa_data : list topic_group).

Lemma ratio_unit a b : a ≤ b → 0 < b → (0 <= ratio a b <= 1)%Q.
Proof.
  intros Hab Hb. unfold ratio.
  assert (0 < inject_Z (Z.of_nat b))%Q as Hpos.
  { change 0%Q with (inject_Z 0). rewrite <- Zlt_Qlt. lia. }
  split.
  - apply Qle_shift_div_l; [done|]. rewrite Qmult_0_l.
    change 0%Q with (inject_Z 0). rewrite <- Zle_Qle. lia.
  - apply Qle_shift_div_r; [done|]. rewrite Qmult_1_l. rewrite <- Zle_Qle. lia.
Qed.

Lemma size_below (X : gset nat) n : (∀ k, k ∈ X → k < n) → size X ≤ n.
Proof.
  intros HX. trans (size (list_to_set (C := gset nat) (seq 0 n))).
  - apply subseteq_size. intros k Hk. apply elem_of_list_to_set, elem_of_seq.
    apply HX in Hk. lia.
  - rewrite size_list_to_set by apply NoDup_seq. by rewrite length_seq.
Qed.








(** The keys of the coverage map of the mapper are the indices of the
    covered points. *)
Lemma elements_dom_knowledge_coverage qa_data P :
  elements (dom (knowledge_coverage (map_qa_to_knowledge qa_data P))) ≡ₚ
    (filter (λ ip : nat * knowledge_point, covered_by qa_data ip.2) (enumerate P)).*1.
Proof.
  apply NoDup_Permutation.
  - apply NoDup_elements.
  - eapply sublist_NoDup; [|apply fmap_sublist, sublist_filter].
    rewrite fst_enumerate. apply NoDup_seq.
  - intros k. rewrite elem_of_elements, elem_of_dom_knowledge_coverage.
    rewrite list_elem_of_fmap. split.
    + intros (p & Hp & Hc). exists (k, p). split; [done|].
      apply list_elem_of_filter. by rewrite elem_of_enumerate.
    + intros ([k' p] & -> & Hin). apply list_elem_of_filter in Hin as [Hc Hin].
      apply elem_of_enumerate in Hin. eauto.
Qed.

Lemma mapped_weight qa_data P :
  (Qsum (point_weight P <$>
           elements (dom (knowledge_coverage (map_qa_to_knowledge qa_data P)))) ==
   Qsum (weight_of <$> filter (covered_by qa_data) P))%Q.
Proof.
  rewrite (Qsum_perm _ _ (fmap_Permutation _ _ _ (elements_dom_knowledge_coverage _ _))).
  assert (filter (covered_by qa_data) P =
            (filter (λ ip : nat * knowledge_point, covered_by qa_data ip.2)
                    (enumerate P)).*2) as ->.
  { by rewrite <- (filter_fmap_comm snd (covered_by qa_data)), snd_enumerate. }
  rewrite <- !list_fmap_compose.
  assert ((point_weight P ∘ fst) <$>
            filter (λ ip : nat * knowledge_point, covered_by qa_data ip.2) (enumerate P)
          = (weight_of ∘ snd) <$>
            filter (λ ip : nat * knowledge_point, covered_by qa_data ip.2) (enumerate P))
    as ->; [|reflexivity].
  apply list_fmap_ext. intros i [k p] Hi. simpl.
  apply list_elem_of_lookup_2, list_elem_of_filter in Hi as [_ Hi].
  apply elem_of_enumerate in Hi. unfold point_weight, knowledge_weights.
  by rewrite list_lookup_fmap, Hi.
Qed.




End Bounds.

(** * The engine on explicit inputs *)

Section Runs.
Import Sample.
Existing Instance collab.

Lemma prioritize_knowledge_points_stable_partition_witness :
  ∃ r, hash_based_evaluation doc1 [] 0.3 = Ok r ∧
       (0 ∈ low_coverage_paragraphs r.1.1 ↔
        0 < length (split_document doc1) ∧ 0 ∉ covered_paragraphs r.2).
Proof.
  destruct (hash_based_evaluation doc1 [] 0.3) as [r|e] eqn:E.
  - exists r. split; [reflexivity|].
    exact (proj1 (proj2 (prioritize_knowledge_points_stable_partition [] r.1.1))
             doc1 [] 0.3%Q r E eq_refl 0).
  - vm_compute in E. discriminate E.
Defined.

Lemma map_qa_to_knowledge_threshold_witness :
  let qa_data := [group "t" [qa_answered]] in
  let mr := map_qa_to_knowledge qa_data [supply_point] in
  (qa_data !! 0 = Some (group "t" [qa_answered]) ∧
   default [] (qa_pairs (group "t" [qa_answered])) !! 0 = Some qa_answered ∧
   [supply_point] !! 0 = Some supply_point) ∧
  0 ∈ default [] (qa_knowledge_points mr !! (0, 0)).
Proof.
  intros qa_data mr. split; [done|].
  apply (proj2 (proj1 (proj2
    (map_qa_to_knowledge_threshold qa_data [supply_point] 0 (group "t" [qa_answered])
       0 qa_answered 0 supply_point eq_refl eq_refl eq_refl)))).
  vm_compute. reflexivity.
Defined.

Lemma identify_knowledge_gaps_stable_partition_witness :
  let qa_data := [group "t" [qa "what" "goods"]] in
  let mr := map_qa_to_knowledge qa_data [supply_point] in
  [supply_point] !! 0 = Some supply_point ∧
  (0 ∉ dom (knowledge_coverage mr) ↔ ¬ covered_by qa_data supply_point).
Proof.
  intros qa_data mr. split; [done|].
  exact (proj2 (proj1 (proj2 (proj2
    (identify_knowledge_gaps_stable_partition mr [supply_point])))
    qa_data 0 supply_point eq_refl eq_refl)).
Defined.

Lemma coverage_counts_monotone_witness :
  (∃ p, p ∈ [supply_point] ∧ matches (qa_text_of qa_doc) p ∧ ¬ covered_by [] p) ∧
  covered_points (kr_coverage_stats
    (knowledge_mapping_evaluation [] [supply_point] hr_uncovered)) <
  covered_points (kr_coverage_stats
    (knowledge_mapping_evaluation (append_qa 0 qa_doc []) [supply_point] hr_uncovered)).
Proof.
  assert (∃ p, p ∈ [supply_point] ∧ matches (qa_text_of qa_doc) p ∧ ¬ covered_by [] p)
    as H.
  { exists supply_point. split; [apply list_elem_of_here|]. split.
    - vm_compute. reflexivity.
    - unfold covered_by. simpl. intros Hex. by apply Exists_nil in Hex. }
  split; [exact H|].
  exact (proj2 (proj2
    (coverage_counts_monotone doc1 [] 0 qa_doc 0.3 [supply_point]
       hr_uncovered hr_uncovered)) H).
Defined.

Lemma basic_points_always_normal_witness :
  let p := assign_priority [0] (entity_point (lit "supply", lit "TERM")) in
  (p ∈ prioritize_knowledge_points
         (extract_knowledge_points doc1 (Some two_lines)) hr_uncovered ∧
   (source p = src_entity ∨ source p = src_noun_chunk)) ∧
  priority p = Some normal.
Proof.
  intros p.
  assert (p ∈ prioritize_knowledge_points
                (extract_knowledge_points doc1 (Some two_lines)) hr_uncovered) as H.
  { apply (bool_decide_unpack _). vm_compute. exact I. }
  split; [split; [exact H|by left]|].
  exact (proj1 (proj2 (proj2
    (basic_points_always_normal doc1 (Some two_lines) hr_uncovered no_mapping)))
    p H (or_introl eq_refl)).
Defined.

End Runs.

(** * Segments of a document *)

Section Segments.
Implicit Types (s p : str).

Lemma dropwhile_split f s :
  ∃ pre, s = pre ++ dropwhile f s ∧ Forall (λ c, f c = true) pre.
Proof.
  induction s as [|c s (pre & Hs & Hpre)]; simpl.
  - by exists [].
  - destruct (f c) eqn:E.
    + exists (c :: pre). split; [by rewrite Hs at 1|]. by constructor.
    + by exists [].
Qed.

Lemma dropwhile_head f s c :
  head (dropwhile f s) = Some c → f c = false.
Proof.
  induction s as [|a s IH]; simpl; [done|].
  destruct (f a) eqn:E; [done|]. simpl. by intros [= <-].
Qed.

Lemma dropwhile_id f s :
  (∀ c, head s = Some c → f c = false) → dropwhile f s = s.
Proof. destruct s as [|a s]; simpl; [done|]. intros H. by rewrite H. Qed.

Lemma length_dropwhile f s : length (dropwhile f s) ≤ length s.
Proof.
  destruct (dropwhile_split f s) as (pre & Hs & _). rewrite Hs at 2.
  rewrite length_app. lia.
Qed.

Lemma takewhile_dropwhile f s : takewhile f s ++ dropwhile f s = s.
Proof. induction s as [|c s IH]; simpl; [done|]. destruct (f c); simpl; by f_equal. Qed.

(** What [strip] keeps: a middle part of the text that neither starts nor
    ends with white space. *)
Lemma strip_spec s :
  ∃ pre post,
    s = pre ++ strip s ++ post ∧
    (∀ c, head (strip s) = Some c → isspace c = false) ∧
    (∀ c, last (strip s) = Some c → isspace c = false).
Proof.
  unfold strip.
  destruct (dropwhile_split isspace s) as (pre & Hs & _).
  destruct (dropwhile_split isspace (reverse (dropwhile isspace s)))
    as (post & Ht & Hpost).
  set (t := dropwhile isspace s) in *.
  set (v := dropwhile isspace (reverse t)) in *.
  assert (t = reverse v ++ reverse post) as Hts.
  { rewrite <- reverse_app, <- Ht. by rewrite reverse_involutive. }
  exists pre, (reverse post). split; [by rewrite <- Hts|]. split.
  - intros c Hc. apply (dropwhile_head isspace s). fold t. rewrite Hts.
    destruct (reverse v); [done|]. done.
  - intros c Hc. rewrite last_reverse in Hc. by apply (dropwhile_head _ _ _ Hc).
Qed.


Lemma strip_idemp s : strip (strip s) = strip s.
Proof.
  destruct (strip_spec s) as (_ & _ & _ & Hhd & Hlast).
  generalize dependent (strip s). intros u Hhd Hlast. unfold strip.
  rewrite (dropwhile_id isspace u Hhd).
  rewrite dropwhile_id; [apply reverse_involutive|].
  intros c Hc. apply Hlast. by rewrite <- head_reverse.
Qed.

Lemma substring_of_refl s : substring_of s s.
Proof. exists [], []. by rewrite app_nil_r. Qed.

Lemma substring_of_trans p q s :
  substring_of p q → substring_of q s → substring_of p s.
Proof.
  intros (a & b & ->) (c & d & ->). exists (c ++ a), (b ++ d).
  by rewrite <- !app_assoc.
Qed.

Lemma substring_of_app p a s b :
  substring_of p s → substring_of p (a ++ s ++ b).
Proof. intros H. eapply substring_of_trans; [exact H|]. by exists a, b. Qed.


Lemma substring_of_not_elem p s c : substring_of p s → c ∉ s → c ∉ p.
Proof. intros (a & b & ->) Hc Hp. apply Hc. set_solver. Qed.

Lemma strip_substring s : substring_of (strip s) s.
Proof. destruct (strip_spec s) as (pre & post & Hs & _). by exists pre, post. Qed.

Lemma after_last_LF_suffix ws tl :
  after_last_LF ws = Some tl → ∃ x, ws = x ++ tl.
Proof.
  revert tl. induction ws as [|c ws IH]; intros tl; simpl; [done|].
  destruct (after_last_LF ws) as [t|].
  - intros [= <-]. destruct (IH t eq_refl) as (x & ->). by exists (c :: x).
  - destruct (c =? LF)%N; [|done]. intros [= <-]. by exists [c].
Qed.

Lemma match_blank_suffix s rest :
  match_blank s = Some rest → ∃ m, s = m ++ rest.
Proof.
  destruct s as [|c t]; simpl; [done|]. destruct (c =? LF)%N; [|done].
  destruct (after_last_LF (takewhile isspace t)) as [tl|] eqn:E; [|done].
  simpl. intros [= <-]. apply after_last_LF_suffix in E as (x & Hx).
  exists (c :: x). simpl. f_equal. rewrite app_assoc, <- Hx.
  by rewrite takewhile_dropwhile.
Qed.

Lemma re_split_blank_go_substring fuel : ∀ cur s p,
  p ∈ re_split_blank_go fuel cur s → substring_of p (cur ++ s).
Proof.
  induction fuel as [|fuel IH]; intros cur s p; simpl.
  - intros ->%list_elem_of_singleton. apply substring_of_refl.
  - destruct (match_blank s) as [rest|] eqn:E.
    + apply match_blank_suffix in E as (m & ->).
      intros [->|Hp]%elem_of_cons.
      * exists [], (m ++ rest). done.
      * apply IH in Hp. simpl in Hp. destruct Hp as (a & b & ->).
        exists (cur ++ m ++ a), b. by rewrite <- !app_assoc.
    + destruct s as [|c s'].
      * intros ->%list_elem_of_singleton. rewrite app_nil_r. apply substring_of_refl.
      * intros Hp. apply IH in Hp. by rewrite <- app_assoc in Hp.
Qed.

Lemma re_split_blank_substring s p : p ∈ re_split_blank s → substring_of p s.
Proof. apply (re_split_blank_go_substring _ []). Qed.

(** The pieces of [split]: the first is a prefix, all are parts of the text
    and none holds the separator. *)
Lemma split_on_spec sep s :
  ∃ q ps, split_on sep s = q :: ps ∧ (∃ r, s = q ++ r) ∧
          ∀ p, p ∈ q :: ps → substring_of p s ∧ sep ∉ p.
Proof.
  induction s as [|c s (q & ps & Hsplit & (r & Hr) & Hall)]; simpl.
  - exists [], []. split; [done|]. split; [by exists []|].
    intros p ->%list_elem_of_singleton. split; [apply substring_of_refl|].
    apply not_elem_of_nil.
  - destruct (c =? sep)%N eqn:E.
    + exists [], (split_on sep s). split; [done|]. split; [by exists (c :: s)|].
      intros p [->|Hp]%elem_of_cons.
      * split; [by exists [], (c :: s)|apply not_elem_of_nil].
      * rewrite Hsplit in Hp. destruct (Hall p Hp) as [Hsub Hsep].
        split; [|done]. by apply (substring_of_app p [c] s []) in Hsub;
          rewrite app_nil_r in Hsub.
    + rewrite Hsplit. exists (c :: q), ps. split; [done|].
      split; [exists r; by rewrite Hr|].
      intros p [->|Hp]%elem_of_cons.
      * split.
        -- exists [], r. simpl. by rewrite Hr.
        -- apply not_elem_of_cons. split.
           ++ intros ->. by rewrite N.eqb_refl in E.
           ++ apply Hall. by left.
      * destruct (Hall p) as [Hsub Hsep]; [by right|]. split; [|done].
        by apply (substring_of_app p [c] s []) in Hsub; rewrite app_nil_r in Hsub.
Qed.

Lemma split_on_substring sep s p :
  p ∈ split_on sep s → substring_of p s ∧ sep ∉ p.
Proof.
  destruct (split_on_spec sep s) as (q & ps & -> & _ & Hall). apply Hall.
Qed.

Section WithCollaborators.
Context {C : Collaborators}.

Lemma elem_of_kept_paragraphs (pieces : list str) min_length p :
  p ∈ strip <$> filter (λ q, min_length ≤ length (strip q)) pieces →
  ∃ q, q ∈ pieces ∧ p = strip q ∧ min_length ≤ length p.
Proof.
  rewrite list_elem_of_fmap. intros (q & -> & Hq).
  apply list_elem_of_filter in Hq as [Hlen Hq]. eauto.
Qed.

Lemma split_document_with_origin min_length content p :
  p ∈ split_document_with min_length content →
  ∃ q, substring_of q content ∧ p = strip q ∧ min_length ≤ length p.
Proof.
  unfold split_document_with. destruct (_ <? 5); intros Hp;
    apply elem_of_kept_paragraphs in Hp as (q & Hq & -> & Hlen); exists q.
  - split; [|done]. by apply (split_on_substring LF).
  - split; [|done]. by apply re_split_blank_substring.
Qed.

(** X1.  Every segment of [split_document] is a contiguous part of the
    document with at least 50 characters that neither starts nor ends with
    white space (stripping it again changes nothing). *)
Theorem split_document_segments content p :
  p ∈ split_document content →
  50 ≤ length p ∧ substring_of p content ∧ strip p = p ∧
  (∀ c, head p = Some c → isspace c = false) ∧
  (∀ c, last p = Some c → isspace c = false).
Proof.
  intros Hp. apply split_document_with_origin in Hp as (q & Hq & -> & Hlen).
  destruct (strip_spec q) as (_ & _ & _ & Hhd & Hlast).
  split; [done|]. split; [|split; [apply strip_idemp|done]].
  eapply substring_of_trans; [apply strip_substring|done].
Qed.


(** X3.  When [split_document] returns fewer than five segments they come
    from the line-by-line fallback: none of them contains a line feed. *)
Theorem few_segments_are_single_lines content p :
  length (split_document content) < 5 →
  p ∈ split_document content → LF ∉ p.
Proof.
  unfold split_document, split_document_with.
  destruct (length _ <? 5) eqn:E.
  - intros _ Hp. apply elem_of_kept_paragraphs in Hp as (q & Hq & -> & _).
    apply (split_on_substring LF) in Hq as [_ Hq].
    eapply substring_of_not_elem; [apply strip_substring|done].
  - apply Nat.ltb_ge in E. lia.
Qed.

End WithCollaborators.

End Segments.

(** * Links between paragraphs and QA pairs *)

Section Links.
Context {C : Collaborators}.
Implicit Types (lsh : MinHashLSH) (st : match_state).

Lemma dd_get_append_eq {V} (k k' : nat) (v : V) (d : gmap nat (list V)) :
  dd_get k (dd_append k' v d) =
    dd_get k d ++ (if decide (k = k') then [v] else []).
Proof.
  unfold dd_get, dd_append. destruct (decide (k = k')) as [->|Hne].
  - by rewrite lookup_insert_eq.
  - rewrite lookup_insert_ne by done. by rewrite app_nil_r.
Qed.

Lemma NoDup_lsh_query lsh mh : NoDup (lsh_query lsh mh).
Proof.
  unfold lsh_query. destruct (decide _); [constructor|apply NoDup_elements].
Qed.

(** One query result recorded for QA pair [j]. *)
Lemma record_fold_paragraphs j (res : list nat) i : ∀ st,
  NoDup res →
  dd_get i (ms_paragraph_coverage (foldl (record_match j) st res)) =
    dd_get i (ms_paragraph_coverage st) ++ (if decide (i ∈ res) then [j] else []).
Proof.
  induction res as [|k res IH]; intros st Hnd; cbn [foldl].
  - rewrite decide_False by apply not_elem_of_nil. by rewrite app_nil_r.
  - apply NoDup_cons in Hnd as [Hk Hnd]. rewrite IH by done.
    cbn [record_match ms_paragraph_coverage].
    rewrite dd_get_append_eq, <- app_assoc. f_equal.
    destruct (decide (i = k)) as [->|Hne].
    + rewrite (decide_False (P := k ∈ res)) by done.
      rewrite (decide_True (P := k ∈ k :: res)) by (by left). done.
    + destruct (decide (i ∈ res)) as [Hin|Hin].
      * rewrite (decide_True (P := i ∈ k :: res)) by (by right). done.
      * rewrite (decide_False (P := i ∈ k :: res)); [done|].
        by intros [?|?]%elem_of_cons.
Qed.

Lemma record_fold_qas j (res : list nat) j' : ∀ st,
  dd_get j' (ms_qa_matches (foldl (record_match j) st res)) =
    dd_get j' (ms_qa_matches st) ++ (if decide (j' = j) then res else []).
Proof.
  induction res as [|k res IH]; intros st; simpl.
  - case_decide; by rewrite app_nil_r.
  - rewrite IH. simpl. rewrite dd_get_append_eq, <- app_assoc. f_equal.
    by destruct (decide (j' = j)).
Qed.

Lemma query_step_paragraphs lsh st (q : nat * qa_hash) i :
  dd_get i (ms_paragraph_coverage (query_step lsh st q)) =
    dd_get i (ms_paragraph_coverage st) ++
    (if decide (i ∈ lsh_query lsh (qh_minhash q.2)) then [q.1] else []).
Proof.
  unfold query_step.
  pose proof (record_fold_paragraphs q.1 (lsh_query lsh (qh_minhash q.2)) i st
                (NoDup_lsh_query _ _)) as H.
  destruct (lsh_query lsh (qh_minhash q.2)) as [|k res']; [|exact H].
  rewrite decide_False by apply not_elem_of_nil. by rewrite app_nil_r.
Qed.

Lemma query_step_qas lsh st (q : nat * qa_hash) j' :
  dd_get j' (ms_qa_matches (query_step lsh st q)) =
    dd_get j' (ms_qa_matches st) ++
    (if decide (j' = q.1) then lsh_query lsh (qh_minhash q.2) else []).
Proof.
  unfold query_step.
  pose proof (record_fold_qas q.1 (lsh_query lsh (qh_minhash q.2)) j' st) as H.
  destruct (lsh_query lsh (qh_minhash q.2)) as [|k res']; [|exact H].
  case_decide; by rewrite app_nil_r.
Qed.

Lemma enumerate_snoc {A} (l : list A) x :
  enumerate (l ++ [x]) = enumerate l ++ [(length l, x)].
Proof. unfold enumerate. rewrite imap_app. simpl. by rewrite Nat.add_0_r. Qed.

(** The two maps after the query loop. *)
Lemma run_queries_paragraphs lsh (qa_hashes : list qa_hash) i :
  dd_get i (ms_paragraph_coverage (run_queries lsh qa_hashes)) =
    filter (λ j, i ∈ candidates lsh qa_hashes j) (seq 0 (length qa_hashes)).
Proof.
  unfold run_queries. induction qa_hashes as [|q l IH] using rev_ind.
  { simpl. unfold dd_get. by rewrite lookup_empty. }
  rewrite enumerate_snoc, foldl_app. simpl.
  rewrite query_step_paragraphs, IH, length_app. simpl.
  rewrite Nat.add_1_r, seq_S, filter_app. simpl. f_equal.
  - apply filter_ext_in. intros j Hj%elem_of_seq. unfold candidates.
    by rewrite lookup_app_l by lia.
  - rewrite filter_cons, filter_nil. unfold candidates.
    rewrite list_lookup_middle by done. simpl.
    by destruct (decide (i ∈ lsh_query lsh (qh_minhash q))).
Qed.

Lemma run_queries_qas lsh (qa_hashes : list qa_hash) j :
  dd_get j (ms_qa_matches (run_queries lsh qa_hashes)) = candidates lsh qa_hashes j.
Proof.
  unfold run_queries. induction qa_hashes as [|q l IH] using rev_ind.
  { simpl. unfold dd_get, candidates. by rewrite lookup_empty. }
  rewrite enumerate_snoc, foldl_app. simpl.
  rewrite query_step_qas, IH. simpl. unfold candidates.
  destruct (decide (j = length l)) as [->|Hne].
  - rewrite list_lookup_middle by done. rewrite lookup_ge_None_2 by done. done.
  - rewrite app_nil_r. destruct (decide (j < length l)).
    + by rewrite lookup_app_l by done.
    + rewrite !lookup_ge_None_2; [done| |lia]. rewrite length_app. simpl. lia.
Qed.

Lemma candidates_lt lsh (qa_hashes : list qa_hash) j i :
  i ∈ candidates lsh qa_hashes j → j < length qa_hashes.
Proof.
  unfold candidates. destruct (qa_hashes !! j) eqn:E; simpl.
  - intros _. by eapply lookup_lt_Some.
  - by intros ?%elem_of_nil.
Qed.

(** The size of a set of numbers below [n], by counting. *)
Lemma size_as_filter (X : gset nat) n :
  (∀ k, k ∈ X → k < n) → size X = length (filter (λ k, k ∈ X) (seq 0 n)).
Proof.
  intros HX. rewrite <- (size_list_to_set (C := gset nat)).
  - f_equal. apply set_eq. intros k.
    rewrite elem_of_list_to_set, list_elem_of_filter, elem_of_seq.
    split; [|tauto]. intros Hk. split; [done|]. apply HX in Hk. lia.
  - eapply sublist_NoDup; [apply NoDup_seq|apply sublist_filter].
Qed.

Lemma length_filter_imap {A B} (f : nat → A → B) (Q : B → Prop)
    `{∀ y, Decision (Q y)} (R : nat → Prop) `{∀ i, Decision (R i)} (l : list A) :
  (∀ i x, l !! i = Some x → Q (f i x) ↔ R i) →
  length (filter Q (imap f l)) = length (filter R (seq 0 (length l))).
Proof.
  intros HQR. rewrite imap_enumerate, filter_fmap_comm, length_fmap.
  rewrite <- fst_enumerate, filter_fmap_comm, length_fmap. f_equal.
  apply filter_ext_in. intros [i x] Hix%elem_of_enumerate. by apply HQR.
Qed.

Lemma compute_lsh_coverage_Ok_inv doc_hashes qa_hashes threshold cs :
  compute_lsh_coverage doc_hashes qa_hashes threshold = Ok cs →
  doc_hashes ≠ [] ∧
  covered_paragraphs cs = ms_covered (run_queries (build_index threshold doc_hashes) qa_hashes) ∧
  paragraph_coverage cs =
    ms_paragraph_coverage (run_queries (build_index threshold doc_hashes) qa_hashes) ∧
  qa_matches cs = ms_qa_matches (run_queries (build_index threshold doc_hashes) qa_hashes) ∧
  qa_with_match cs = size (filter (λ kv : nat * list nat, kv.2 ≠ []) (qa_matches cs)) ∧
  total_paragraphs cs = length doc_hashes.
Proof.
  intros Hcs. destruct (decide (doc_hashes = [])) as [->|Hne].
  { by rewrite compute_lsh_coverage_no_segments in Hcs. }
  rewrite compute_lsh_coverage_ok in Hcs by done. injection Hcs as <-. done.
Qed.

Lemma qa_matches_no_empty lsh (qa_hashes : list qa_hash) :
  no_empty (ms_qa_matches (run_queries lsh qa_hashes)).
Proof.
  unfold run_queries.
  assert (∀ (l : list (nat * qa_hash)) st,
            no_empty (ms_qa_matches st) →
            no_empty (ms_qa_matches (foldl (query_step lsh) st l))) as Hfold.
  { induction l as [|q l IH]; intros st Hst; simpl; [done|]. apply IH.
    unfold query_step. destruct (lsh_query lsh (qh_minhash q.2)) as [|k res]; [done|].
    generalize (k :: res). intros res'. revert st Hst.
    induction res' as [|i res' IHr]; intros st Hst; simpl; [done|].
    apply IHr. simpl. by apply no_empty_dd_append. }
  apply Hfold. simpl. intros k l. by rewrite lookup_empty.
Qed.

(** X4.  When the lexical stage returns, its two link maps mirror each
    other: the QA list of a paragraph holds, in increasing order and without
    repetition, the numbers of the QA pairs whose query returned the
    paragraph, the paragraph list of a QA pair is the result of its query,
    a paragraph is covered exactly when its QA list is not empty, and the
    count of QA pairs with a match is the number of queries with a result. *)
Theorem lexical_links_mirror doc_hashes qa_hashes threshold cs :
  compute_lsh_coverage doc_hashes qa_hashes threshold = Ok cs →
  let lsh := build_index threshold doc_hashes in
  (∀ i, dd_get i (paragraph_coverage cs) =
          filter (λ j, i ∈ candidates lsh qa_hashes j) (seq 0 (length qa_hashes))) ∧
  (∀ j, dd_get j (qa_matches cs) = candidates lsh qa_hashes j) ∧
  (∀ i j, j ∈ dd_get i (paragraph_coverage cs) ↔ i ∈ dd_get j (qa_matches cs)) ∧
  (∀ i, i ∈ covered_paragraphs cs ↔ dd_get i (paragraph_coverage cs) ≠ []) ∧
  qa_with_match cs =
    length (filter (λ j, candidates lsh qa_hashes j ≠ []) (seq 0 (length qa_hashes))).
Proof.
  intros Hcs lsh.
  apply compute_lsh_coverage_Ok_inv in Hcs as (_ & Hcov & Hpc & Hqm & Hwith & _).
  fold lsh in Hcov, Hpc, Hqm.
  assert (Hp : ∀ i, dd_get i (paragraph_coverage cs) =
            filter (λ j, i ∈ candidates lsh qa_hashes j) (seq 0 (length qa_hashes))).
  { intros i. rewrite Hpc. apply run_queries_paragraphs. }
  assert (Hq : ∀ j, dd_get j (qa_matches cs) = candidates lsh qa_hashes j).
  { intros j. rewrite Hqm. apply run_queries_qas. }
  split; [done|]. split; [done|]. split; [|split].
  - intros i j. rewrite Hp, Hq, list_elem_of_filter, elem_of_seq. split; [tauto|].
    intros Hi. split; [done|]. apply candidates_lt in Hi. lia.
  - intros i. destruct (run_queries_consistent lsh qa_hashes) as [Hc Hne].
    rewrite Hcov, Hc, <- Hpc. rewrite <- Hpc in Hne.
    rewrite (elem_of_dom_no_empty _ _ Hne). split.
    + intros [e He] E. rewrite E in He. by apply elem_of_nil in He.
    + destruct (dd_get i (paragraph_coverage cs)) as [|e l]; [done|].
      intros _. exists e. by left.
  - rewrite Hwith. rewrite <- (size_dom (D := gset nat)).
    rewrite (size_as_filter _ (length qa_hashes)).
    + f_equal. apply filter_ext_in. intros j _.
      rewrite elem_of_dom. rewrite <- Hq. unfold dd_get. split.
      * intros [l [Hl Hne]%map_lookup_filter_Some]. by rewrite Hl.
      * destruct (qa_matches cs !! j) as [l|] eqn:E; [|done]. simpl. intros Hne.
        exists l. by apply map_lookup_filter_Some.
    + intros j [l [Hl Hne]%map_lookup_filter_Some]%elem_of_dom. simpl in Hne.
      pose proof (Hq j) as Hj. unfold dd_get in Hj. rewrite Hl in Hj. simpl in Hj.
      destruct l as [|i l]; [done|]. apply (candidates_lt lsh _ _ i).
      rewrite <- Hj. by left.
Qed.

(** What is needed of the link maps to count the report. *)
Lemma lexical_links_cover doc_hashes qa_hashes threshold cs :
  compute_lsh_coverage doc_hashes qa_hashes threshold = Ok cs →
  doc_hashes ≠ [] ∧
  total_paragraphs cs = length doc_hashes ∧
  (∀ i, i ∈ covered_paragraphs cs ↔ dd_get i (paragraph_coverage cs) ≠ []) ∧
  (∀ i, i ∈ covered_paragraphs cs → i < length doc_hashes) ∧
  qa_with_match cs =
    length (filter (λ j, dd_get j (qa_matches cs) ≠ []) (seq 0 (length qa_hashes))).
Proof.
  intros Hcs.
  apply compute_lsh_coverage_Ok_inv in Hcs as (Hd & Hcov & Hpc & Hqm & Hwith & Htot).
  set (lsh := build_index threshold doc_hashes) in *.
  split; [done|]. split; [done|]. split; [|split].
  - intros i. destruct (run_queries_consistent lsh qa_hashes) as [Hc Hne].
    rewrite Hcov, Hc, <- Hpc. rewrite <- Hpc in Hne.
    rewrite (elem_of_dom_no_empty _ _ Hne). split.
    + intros [e He] E. rewrite E in He. by apply elem_of_nil in He.
    + destruct (dd_get i (paragraph_coverage cs)) as [|e l]; [done|].
      intros _. exists e. by left.
  - intros i. rewrite Hcov. intros (q & _ & Hi)%elem_of_run_queries.
    apply elem_of_lsh_query in Hi as (mh & Hin & _). unfold lsh, build_index in Hin.
    destruct (build_index_fold (enumerate doc_hashes) (MinHashLSH_new threshold))
      as (_ & _ & Hent).
    rewrite Hent in Hin. simpl in Hin.
    apply list_elem_of_fmap in Hin as ([k d] & [= -> ->] & Hk%elem_of_enumerate).
    by eapply lookup_lt_Some.
  - assert (Hq : ∀ j, dd_get j (qa_matches cs) = candidates lsh qa_hashes j).
    { intros j. rewrite Hqm. apply run_queries_qas. }
    rewrite Hwith. rewrite <- (size_dom (D := gset nat)).
    rewrite (size_as_filter _ (length qa_hashes)).
    + f_equal. apply filter_ext_in. intros j _.
      rewrite elem_of_dom. unfold dd_get. split.
      * intros [l [Hl Hne]%map_lookup_filter_Some]. by rewrite Hl.
      * destruct (qa_matches cs !! j) as [l|] eqn:E; [|done]. simpl. intros Hne.
        exists l. by apply map_lookup_filter_Some.
    + intros j [l [Hl Hne]%map_lookup_filter_Some]%elem_of_dom. simpl in Hne.
      pose proof (Hq j) as Hj. unfold dd_get in Hj. rewrite Hl in Hj. simpl in Hj.
      destruct l as [|i l]; [done|]. apply (candidates_lt lsh _ _ i).
      rewrite <- Hj. by left.
Qed.

Lemma hash_based_evaluation_Ok_inv doc qa_data threshold r :
  hash_based_evaluation doc qa_data threshold = Ok r →
  let segments := split_document doc in
  let qa_hashes := compute_qa_minhash qa_data in
  compute_lsh_coverage (compute_minhash segments) qa_hashes threshold = Ok r.2 ∧
  r.1.2 = segments ∧
  hr_coverage_rate r.1.1 = coverage_rate r.2 ∧
  hr_covered_paragraphs r.1.1 = size (covered_paragraphs r.2) ∧
  hr_total_paragraphs r.1.1 = total_paragraphs r.2 ∧
  hr_qa_with_match r.1.1 = qa_with_match r.2 ∧
  hr_qa_match_rate r.1.1 = qa_match_rate r.2 ∧
  paragraph_details r.1.1 =
    imap (λ i segment,
            {| pd_index := i;
               pd_content := take 100 segment ++ ellipsis;
               matched_qa_count := length (dd_get i (paragraph_coverage r.2));
               matched_qa_indices := dd_get i (paragraph_coverage r.2) |}) segments ∧
  qa_details r.1.1 =
    imap (λ i q,
            {| qd_index := i;
               qd_question := qh_question q;
               qd_topic := qh_topic q;
               matched_paragraphs := dd_get i (qa_matches r.2) |}) qa_hashes.
Proof.
  unfold hash_based_evaluation.
  destruct (compute_lsh_coverage _ _ _) as [cs|e]; [|done].
  simpl. by intros [= <-].
Qed.

Lemma length_compute_qa_minhash qa_data :
  length (compute_qa_minhash qa_data) = length (qa_units qa_data).
Proof.
  unfold compute_qa_minhash, qa_units. rewrite !imap_enumerate.
  induction (enumerate qa_data) as [|[t g] l IH]; [done|].
  rewrite !fmap_cons. simpl. rewrite !length_app, IH. f_equal.
  by rewrite !length_imap.
Qed.

(** X5.  The report of the lexical stage adds up: it has one paragraph entry
    per segment, numbered in order, whose count is the length of its QA list
    and is non-zero exactly for the covered paragraphs; the covered and the
    low-coverage paragraphs together are all paragraphs; there is one QA
    entry per QA pair, and the QA pairs counted as matched are the entries
    with a paragraph. *)
Theorem lexical_report_adds_up doc qa_data threshold r :
  hash_based_evaluation doc qa_data threshold = Ok r →
  let hr := r.1.1 in
  0 < hr_total_paragraphs hr ∧
  hr_total_paragraphs hr = length (split_document doc) ∧
  length (paragraph_details hr) = hr_total_paragraphs hr ∧
  (∀ i d, paragraph_details hr !! i = Some d →
          pd_index d = i ∧ matched_qa_count d = length (matched_qa_indices d) ∧
          (matched_qa_count d ≠ 0 ↔ i ∈ covered_paragraphs r.2)) ∧
  hr_covered_paragraphs hr + length (low_coverage_paragraphs hr) =
    hr_total_paragraphs hr ∧
  length (qa_details hr) = length (qa_units qa_data) ∧
  hr_qa_with_match hr =
    length (filter (λ d, matched_paragraphs d ≠ []) (qa_details hr)) ∧
  hr_qa_with_match hr ≤ length (qa_units qa_data).
Proof.
  intros Hr hr. unfold hr.
  apply hash_based_evaluation_Ok_inv in Hr
    as (Hcs & _ & _ & Hcov & Htot & Hwith & _ & Hpd & Hqd).
  pose proof (lexical_links_cover _ _ _ _ Hcs) as (Hne & Htotal & Hcovered & Hbelow & Hwm).
  rewrite Htot, Htotal. unfold compute_minhash in *. rewrite length_fmap in *.
  assert (0 < length (split_document doc)) as Hpos.
  { destruct (split_document doc); [done|]. simpl. lia. }
  assert (Hcount : hr_covered_paragraphs r.1.1 =
            length (filter (λ d, matched_qa_count d ≠ 0) (paragraph_details r.1.1))).
  { rewrite Hcov, Hpd. rewrite (size_as_filter _ (length (split_document doc))) by done.
    symmetry. apply length_filter_imap. intros i x _. simpl.
    rewrite Hcovered. by destruct (dd_get i (paragraph_coverage r.2)). }
  split; [done|]. split; [done|].
  split; [by rewrite Hpd, length_imap|].
  split.
  { intros i d. rewrite Hpd, list_lookup_imap.
    intros (segment & _ & ->)%fmap_Some. simpl. split; [done|]. split; [done|].
    rewrite Hcovered. by destruct (dd_get i (paragraph_coverage r.2)). }
  split.
  { assert (length (paragraph_details r.1.1) = length (split_document doc)) as Hlen
      by (by rewrite Hpd, length_imap).
    rewrite Hcount. unfold low_coverage_paragraphs. rewrite length_fmap, <- Hlen.
    generalize (paragraph_details r.1.1). intros l.
    induction l as [|d l IH]; [done|]. rewrite !filter_cons.
    destruct (decide (matched_qa_count d = 0)) as [E|E].
    - rewrite decide_False by (by intros ?). simpl. lia.
    - rewrite decide_True by done. simpl. lia. }
  split; [by rewrite Hqd, length_imap, length_compute_qa_minhash|].
  assert (hr_qa_with_match r.1.1 =
            length (filter (λ d, matched_paragraphs d ≠ []) (qa_details r.1.1))) as Hw.
  { rewrite Hwith, Hwm, Hqd. symmetry. apply length_filter_imap.
    intros j q _. simpl. done. }
  split; [done|]. rewrite Hw, Hqd.
  etrans; [apply length_filter|]. by rewrite length_imap, length_compute_qa_minhash.
Qed.

End Links.

(** * The points that the model contributes *)

Section ModelPoints.
Context {C : Collaborators}.
Implicit Types (mc : ModelCaller) (p : knowledge_point).

Lemma llm_points_acc mc paras : ∀ acc,
  llm_points mc paras acc = acc ++ llm_points mc paras [].
Proof.
  induction paras as [|[i para] rest IH]; intros acc; simpl.
  - by rewrite app_nil_r.
  - destruct (length para <? 50); [apply IH|].
    destruct (mc _ _) as [reply|]; [|by rewrite app_nil_r].
    rewrite (IH (acc ++ _)), (IH (llm_point i <$> _)). by rewrite app_assoc.
Qed.

(** The loop up to the first call that raises. *)
Lemma llm_points_prefix mc (paras rest : list (nat * str)) :
  Forall (λ ip, 50 ≤ length ip.2 ∧ is_Some (reply_of mc ip.2)) paras →
  (∀ ip, head rest = Some ip → 50 ≤ length ip.2 ∧ reply_of mc ip.2 = None) →
  llm_points mc (paras ++ rest) [] =
    mjoin ((λ ip, paragraph_points mc ip.1 ip.2) <$> paras).
Proof.
  intros Hparas Hrest. induction Hparas as [|[i para] paras [Hlen [reply Hr]] _ IH].
  - simpl. destruct rest as [|[i para] rest]; [done|].
    destruct (Hrest (i, para) eq_refl) as [Hlen Hr]. simpl in *.
    apply Nat.ltb_ge in Hlen. rewrite Hlen. unfold reply_of in Hr. by rewrite Hr.
  - simpl in *. apply Nat.ltb_ge in Hlen. rewrite Hlen.
    unfold paragraph_points. rewrite Hr. unfold reply_of in Hr. rewrite Hr.
    simpl. rewrite llm_points_acc. f_equal. apply IH.
Qed.

Lemma enumerate_take {A} (l : list A) n : take n (enumerate l) = enumerate (take n l).
Proof.
  apply list_eq. intros i. rewrite enumerate_lookup.
  destruct (decide (i < n)) as [Hi|Hi].
  - by rewrite !lookup_take_lt, enumerate_lookup by done.
  - by rewrite !lookup_take_ge by lia.
Qed.

Lemma segment_long content para :
  para ∈ split_document content → 50 ≤ length para.
Proof. by intros (q & _ & _ & ?)%split_document_with_origin. Qed.

(** Where a point of the loop comes from. *)
Lemma elem_of_llm_points mc paras p :
  p ∈ llm_points mc paras [] →
  ∃ pre i para post reply,
    paras = pre ++ (i, para) :: post ∧ reply_of mc para = Some reply ∧
    p ∈ llm_point i <$> points_of_reply reply ∧
    Forall (λ ip, 50 ≤ length ip.2 → is_Some (reply_of mc ip.2)) pre.
Proof.
  induction paras as [|[i para] rest IH]; simpl; [by intros ?%elem_of_nil|].
  destruct (length para <? 50) eqn:Hlen.
  - intros (pre & j & para' & post & reply & -> & Hr & Hp & Hpre)%IH.
    exists ((i, para) :: pre), j, para', post, reply.
    split; [done|]. split; [done|]. split; [done|].
    constructor; [|done]. simpl. apply Nat.ltb_lt in Hlen. lia.
  - destruct (mc _ _) as [reply|] eqn:Hr; [|by intros ?%elem_of_nil].
    rewrite llm_points_acc, elem_of_app. simpl. intros [Hp|Hp].
    + exists [], i, para, rest, reply. by repeat split.
    + apply IH in Hp as (pre & j & para' & post & reply' & -> & Hr' & Hp & Hpre).
      exists ((i, para) :: pre), j, para', post, reply'.
      split; [done|]. split; [done|]. split; [done|].
      constructor; [|done]. simpl. intros _. by exists reply.
Qed.

Lemma contains_spec (needle s : str) :
  contains needle s = true ↔ substring_of needle s.
Proof.
  assert (Hsw : ∀ n t, startswith n t = true ↔ ∃ post, t = n ++ post).
  { induction n as [|c n IH]; intros t; simpl.
    - split; [by exists t|done].
    - destruct t as [|d t]; [split; [done|by intros [? ?]]|].
      rewrite andb_true_iff, N.eqb_eq, IH. split.
      + intros [-> [post ->]]. by exists post.
      + intros [post [= -> ->]]. split; [done|by exists post]. }
  unfold substring_of. induction s as [|c s IH]; simpl.
  - rewrite orb_false_r, Hsw. split.
    + intros [post H]. by exists [], post.
    + intros (pre & post & H). symmetry in H.
      apply app_eq_nil in H as [-> [-> ->]%app_eq_nil]. by exists [].
  - rewrite orb_true_iff, Hsw, IH. split.
    + intros [[post ->]|(pre & post & ->)]; [by exists [], post|].
      by exists (c :: pre), post.
    + intros ([|d pre] & post & H); simpl in H; [left; by exists post|].
      injection H as -> ->. right. by exists pre, post.
Qed.

Lemma elem_of_points_of_reply reply (t : str) :
  t ∈ points_of_reply reply →
  (∃ line, line ∈ split_on LF reply ∧ t = strip line) ∧
  t ≠ [] ∧ strip t = t ∧ (LF ∉ t) ∧ ¬ substring_of no_points_marker t.
Proof.
  unfold points_of_reply.
  intros (line & -> & [[Hne Hm] Hline]%list_elem_of_filter)%list_elem_of_fmap.
  split; [by exists line|]. split; [done|]. split; [apply strip_idemp|].
  apply split_on_substring in Hline as [_ HLF]. split.
  - eapply substring_of_not_elem; [apply strip_substring|done].
  - intros Hsub. apply not_true_iff_false in Hm. apply Hm, contains_spec.
    eapply substring_of_trans; [exact Hsub|apply strip_substring].
Qed.

(** X7.  Calling the model only appends: the points extracted with a model
    are the points extracted without one, in the same order, followed by
    points of the model; the points extracted without a model carry no
    paragraph index, the appended ones all carry one. *)
Theorem model_points_are_appended content mc :
  ∃ rest,
    extract_knowledge_points content (Some mc) =
      extract_knowledge_points content None ++ rest ∧
    sublist rest (advanced_points_of content (Some mc)) ∧
    (∀ p, p ∈ extract_knowledge_points content None → paragraph_idx p = None) ∧
    (∀ p, p ∈ rest → is_Some (paragraph_idx p)).
Proof.
  unfold extract_knowledge_points, unique_points_of.
  change (advanced_points_of content None) with (@nil knowledge_point).
  rewrite app_nil_r, foldl_app.
  destruct (foldl dedup_step ([], ∅) (basic_points content)) as [acc seen] eqn:E.
  rewrite dedup_foldl_app. simpl.
  exists (foldl dedup_step ([], seen) (advanced_points_of content (Some mc))).1.
  split; [done|]. split; [apply dedup_sublist|]. split.
  - intros p Hp. apply (basic_points_no_paragraph content).
    apply unique_points_subseteq. unfold unique_points_of. by rewrite E.
  - intros p Hp.
    assert (p ∈ advanced_points_of content (Some mc)) as Hadv.
    { eapply elem_of_sublist; [exact Hp|apply dedup_sublist]. }
    apply advanced_points_paragraph in Hadv as (i & -> & _). by exists i.
Qed.

(** X8.  Every paragraph is sent to the model, in order, until a call
    raises: when the calls for the first [n] paragraphs return and the
    document has no further paragraph or the next call raises, the points of
    the model are those of the replies to these [n] paragraphs. *)
Theorem model_points_until_first_failure content mc n :
  n ≤ length (split_document content) →
  (∀ i para, i < n → split_document content !! i = Some para →
             is_Some (reply_of mc para)) →
  (∀ para, split_document content !! n = Some para → reply_of mc para = None) →
  advanced_points_of content (Some mc) =
    mjoin (imap (paragraph_points mc) (take n (split_document content))).
Proof.
  intros Hn Hfirst Hnext. unfold advanced_points_of.
  rewrite <- (take_drop n (enumerate (split_document content))).
  rewrite llm_points_prefix.
  - by rewrite enumerate_take, imap_enumerate.
  - apply Forall_forall. intros [i para] Hin.
    apply elem_of_take in Hin as (k & Hk & Hlt).
    rewrite enumerate_lookup in Hk. apply fmap_Some in Hk as (para' & Hk & [= -> ->]).
    split; [|by eapply Hfirst]. apply (segment_long content).
    by eapply list_elem_of_lookup_2.
  - intros [i para]. rewrite head_lookup, lookup_drop, Nat.add_0_r, enumerate_lookup.
    intros (para' & Hk & [= -> ->])%fmap_Some. split; [|by apply Hnext].
    apply (segment_long content). by eapply list_elem_of_lookup_2.
Qed.

(** X9.  A point with a paragraph index comes from a reply of the model: the
    index names a paragraph of the document whose call returned, the text of
    the point is a stripped line of that reply, it is not empty, holds no
    line feed and not the marker for a paragraph without points, and the
    calls for all earlier paragraphs returned as well. *)
Theorem model_points_come_from_replies content mc p i :
  p ∈ extract_knowledge_points content (Some mc) → paragraph_idx p = Some i →
  ∃ para reply,
    split_document content !! i = Some para ∧ reply_of mc para = Some reply ∧
    (∃ line, line ∈ split_on LF reply ∧ text p = strip line) ∧
    text p ≠ [] ∧ strip (text p) = text p ∧ (LF ∉ text p) ∧
    ¬ substring_of no_points_marker (text p) ∧
    (∀ j para', j < i → split_document content !! j = Some para' →
                is_Some (reply_of mc para')).
Proof.
  intros Hp Hi. apply unique_points_subseteq, elem_of_app in Hp as [Hp|Hp].
  { apply basic_points_no_paragraph in Hp as [Hnone _]. congruence. }
  unfold advanced_points_of in Hp.
  apply elem_of_llm_points in Hp
    as (pre & k & para & post & reply & Hsplit & Hr & Hin & Hpre).
  apply list_elem_of_fmap in Hin as (t & -> & Ht). simpl in Hi. injection Hi as ->.
  assert (enumerate (split_document content) !! length pre = Some (i, para)) as Hk.
  { rewrite Hsplit. by apply list_lookup_middle. }
  rewrite enumerate_lookup in Hk. apply fmap_Some in Hk as (para' & Hk & [= -> ->]).
  exists para', reply. split; [done|]. split; [done|].
  apply elem_of_points_of_reply in Ht as (Hline & Hne & Hstrip & HLF & Hm).
  simpl. do 5 (split; [done|]).
  intros j q Hj Hq.
  assert (enumerate (split_document content) !! j = Some (j, q)) as Hjq.
  { by rewrite enumerate_lookup, Hq. }
  rewrite Hsplit, lookup_app_l in Hjq by done.
  rewrite Forall_forall in Hpre. apply (Hpre (j, q)).
  - by eapply list_elem_of_lookup_2.
  - simpl. apply (segment_long content). by eapply list_elem_of_lookup_2.
Qed.

End ModelPoints.

(** * Prioritising twice *)

Section Reorder.
Context {C : Collaborators}.

Lemma filter_filter_same {A} (Q : A → Prop) `{∀ x, Decision (Q x)} (l : list A) :
  filter Q (filter Q l) = filter Q l.
Proof.
  induction l as [|x l IH]; [done|]. rewrite filter_cons.
  destruct (decide (Q x)); [|done]. by rewrite filter_cons_True, IH.
Qed.

Lemma filter_filter_none {A} (Q R : A → Prop)
    `{∀ x, Decision (Q x)} `{∀ x, Decision (R x)} (l : list A) :
  (∀ x, Q x → R x → False) → filter Q (filter R l) = [].
Proof.
  intros HQR. induction l as [|x l IH]; [done|]. rewrite filter_cons.
  destruct (decide (R x)); [|done]. rewrite filter_cons_False; [done|].
  intros ?. by eapply HQR.
Qed.

Lemma fmap_assign_priority_filter low (Q : knowledge_point → Prop)
    `{∀ p, Decision (Q p)} (points : list knowledge_point) :
  assign_priority low <$> filter Q (assign_priority low <$> points) =
    filter Q (assign_priority low <$> points).
Proof.
  rewrite filter_fmap_comm, <- list_fmap_compose. by apply list_fmap_ext.
Qed.

(** X10.  Prioritising is idempotent: prioritising the prioritised points
    against the same lexical results changes nothing.  It keeps the number of
    points and, up to order, their texts. *)
Theorem prioritize_knowledge_points_idempotent points hr :
  let once := prioritize_knowledge_points points hr in
  prioritize_knowledge_points once hr = once ∧
  length once = length points ∧
  text <$> once ≡ₚ text <$> points.
Proof.
  intros once. unfold once. split; [|split].
  - rewrite (prioritize_unfold (prioritize_knowledge_points points hr)).
    rewrite (prioritize_unfold points). simpl.
    set (low := low_coverage_paragraphs hr).
    rewrite fmap_app, !fmap_assign_priority_filter, !filter_app.
    rewrite !filter_filter_same.
    rewrite (filter_filter_none (λ p, priority p = Some high)
                                (λ p, priority p = Some normal)) by congruence.
    rewrite (filter_filter_none (λ p, priority p = Some normal)
                                (λ p, priority p = Some high)) by congruence.
    by rewrite app_nil_r.
  - by rewrite prioritize_Permutation, length_fmap.
  - rewrite prioritize_Permutation, <- list_fmap_compose. done.
Qed.

End Reorder.

(** * The shape of the mapping results *)

Section Mappings.
Context {C : Collaborators}.
Implicit Types (P : list knowledge_point) (p : knowledge_point)
  (u : qa_id_t * str * qa_pair) (mr : mapping_results_t).

Lemma StronglySorted_sublist {A} (R : relation A) (k l : list A) :
  sublist k l → StronglySorted R l → StronglySorted R k.
Proof.
  induction 1 as [|x k l Hs IH|x k l Hs IH]; intros Hl.
  - constructor.
  - apply StronglySorted_inv in Hl as [Hl Hx]. constructor; [by apply IH|].
    rewrite Forall_forall in *. intros y Hy. apply Hx.
    by eapply elem_of_sublist.
  - apply StronglySorted_inv in Hl as [Hl _]. by apply IH.
Qed.

Lemma StronglySorted_seq n : ∀ a, StronglySorted lt (seq a n).
Proof.
  induction n as [|n IH]; intros a; simpl; constructor; [apply IH|].
  apply Forall_forall. intros k Hk%elem_of_seq. lia.
Qed.

Lemma matched_indices qa_text (l : list (nat * knowledge_point)) :
  knowledge_idx <$> omap (matched_point_of qa_text) l =
    (filter (λ kp, matches qa_text kp.2) l).*1.
Proof.
  induction l as [|kp l IH]; [done|]. rewrite filter_cons. simpl.
  destruct (decide (matches qa_text kp.2)) as [Hm|Hm]; unfold matches in Hm.
  - unfold matched_point_of at 1. rewrite Hm. simpl. f_equal. exact IH.
  - apply not_true_is_false in Hm. unfold matched_point_of at 1. rewrite Hm.
    exact IH.
Qed.

(** The ids of the QA pairs from group [n] on. *)
Lemma NoDup_unit_ids_from (qa_data : list topic_group) : ∀ n,
  let ids :=
    (λ u : qa_id_t * str * qa_pair, u.1.1) <$>
      mjoin (imap (λ t g,
               imap (λ q qa, ((n + t, q), default (unnamed_topic (n + t)) (topic g), qa))
                    (get_qa_pairs g)) qa_data) in
  NoDup ids ∧ ∀ id, id ∈ ids → n ≤ id.1.
Proof.
  induction qa_data as [|g qa_data IH]; intros n ids; unfold ids.
  - split; [constructor|]. by intros id ?%elem_of_nil.
  - rewrite imap_cons. simpl. rewrite fmap_app.
    rewrite (imap_ext _ (λ t g,
               imap (λ q qa, ((S n + t, q), default (unnamed_topic (S n + t)) (topic g), qa))
                    (get_qa_pairs g))).
    2:{ intros t g' _. simpl. by rewrite Nat.add_succ_r. }
    destruct (IH (S n)) as [Hnd Hge].
    assert (Hrow : ∀ id,
      id ∈ (λ u : qa_id_t * str * qa_pair, u.1.1) <$>
             imap (λ q qa, ((n + 0, q), default (unnamed_topic (n + 0)) (topic g), qa))
                  (get_qa_pairs g) → id.1 = n).
    { intros id (u & -> & Hu)%list_elem_of_fmap.
      apply elem_of_lookup_imap in Hu as (q & qa & -> & _). simpl. lia. }
    split.
    + apply NoDup_app. split; [|split; [|exact Hnd]].
      * rewrite fmap_imap. apply NoDup_alt. intros i j id.
        rewrite !list_lookup_imap.
        intros (qa & _ & ->)%fmap_Some (qa' & _ & Heq)%fmap_Some.
        simpl in Heq. by injection Heq.
      * intros id Hid%Hrow Hid'%Hge. lia.
    + intros id [Hid%Hrow|Hid%Hge]%elem_of_app; lia.
Qed.

Lemma NoDup_qa_unit_ids qa_data :
  NoDup ((λ u : qa_id_t * str * qa_pair, u.1.1) <$> qa_units qa_data).
Proof. apply (NoDup_unit_ids_from qa_data 0). Qed.

Lemma dom_qa_knowledge_points P us (id : qa_id_t) :
  id ∈ dom (qa_knowledge_points
              (foldl (map_unit P)
                 {| mappings := []; knowledge_coverage := ∅; qa_knowledge_points := ∅ |}
                 us)) ↔
  id ∈ (λ u : qa_id_t * str * qa_pair, u.1.1) <$> us.
Proof.
  rewrite elem_of_dom, units_fold_qkp, list_elem_of_fmap.
  destruct (last _) as [u|] eqn:Hlast.
  - apply last_Some_elem_of, list_elem_of_filter in Hlast as [Hid Hin].
    split; [|by eauto]. intros _. by exists u.
  - simpl. rewrite lookup_empty. split; [by intros [? ?]|].
    intros (u & -> & Hu). apply last_None in Hlast.
    assert (u ∈ filter (λ u' : qa_id_t * str * qa_pair, u'.1.1 = u.1.1) us) as Hf
      by (by apply list_elem_of_filter).
    rewrite Hlast in Hf. by apply elem_of_nil in Hf.
Qed.

(** X11.  The mapping results follow the QA pairs: there is one mapping per
    QA pair, in the order of the two loops and with distinct ids, and the
    ids are the keys of [qa_knowledge_points].  In every mapping the answer
    is cut to at most 103 characters, the matched points are listed by
    strictly increasing index, [qa_knowledge_points] holds these indices
    under the id of the mapping, and every matched point is a copy of the
    point at its index, with similarity above one half. *)
Theorem mappings_follow_qa_pairs qa_data P :
  let mr := map_qa_to_knowledge qa_data P in
  m_qa_id <$> mappings mr =
    (λ u : qa_id_t * str * qa_pair, u.1.1) <$> qa_units qa_data ∧
  NoDup (m_qa_id <$> mappings mr) ∧
  dom (qa_knowledge_points mr) = list_to_set (m_qa_id <$> mappings mr) ∧
  ∀ m, m ∈ mappings mr →
    length (m_answer m) ≤ 103 ∧
    qa_knowledge_points mr !! m_qa_id m = Some (knowledge_idx <$> matched_points m) ∧
    StronglySorted lt (knowledge_idx <$> matched_points m) ∧
    ∀ mp, mp ∈ matched_points m →
      (1 # 2 < mp_similarity mp)%Q ∧
      ∃ p, P !! knowledge_idx mp = Some p ∧ knowledge_text mp = text p ∧
           mp_priority mp = default normal (priority p).
Proof.
  intros mr.
  assert (Hm : mappings mr = mapping_of P <$> qa_units qa_data).
  { unfold mr. by rewrite map_qa_to_knowledge_units, units_fold_mappings. }
  assert (Hids : m_qa_id <$> mappings mr =
            (λ u : qa_id_t * str * qa_pair, u.1.1) <$> qa_units qa_data).
  { rewrite Hm, <- list_fmap_compose. done. }
  split; [done|]. split; [rewrite Hids; apply NoDup_qa_unit_ids|]. split.
  { apply set_eq. intros id. rewrite elem_of_list_to_set, Hids. unfold mr.
    rewrite map_qa_to_knowledge_units. apply dom_qa_knowledge_points. }
  intros m. rewrite Hm. intros (u & -> & Hu)%list_elem_of_fmap.
  split; [|split; [|split]].
  - simpl. rewrite length_app, length_take. change (length ellipsis) with 3. lia.
  - apply elem_of_qa_units in Hu as (g & Hg & Hqa & _).
    destruct u as [[[t q] name] qa]. simpl in *. unfold mr.
    by rewrite (qa_knowledge_points_at _ _ _ _ _ _ Hg Hqa).
  - simpl. rewrite matched_indices.
    eapply StronglySorted_sublist; [|apply (StronglySorted_seq (length P) 0)].
    rewrite <- fst_enumerate. apply fmap_sublist, sublist_filter.
  - simpl. intros mp (p & Hp & Hmatch & Hmp)%elem_of_matched_points. split.
    + rewrite Hmp. simpl. by apply matches_iff.
    + exists p. split; [done|]. by rewrite Hmp.
Qed.

Lemma match_step_get_list qa_id qa_text st (kp : nat * knowledge_point) k :
  dd_get k (match_step qa_id qa_text st kp).2 =
    dd_get k st.2 ++
    (if decide (k = kp.1) then option_list (coverage_entry_of qa_id qa_text kp.2)
     else []).
Proof.
  unfold match_step, coverage_entry_of.
  destruct (Qgtb _ _); simpl.
  - rewrite dd_get_append_eq. by destruct (decide _).
  - destruct (decide _); by rewrite app_nil_r.
Qed.

Lemma match_fold_get_list qa_id qa_text (l : list (nat * knowledge_point)) k : ∀ st,
  dd_get k (foldl (match_step qa_id qa_text) st l).2 =
    dd_get k st.2 ++
    omap (λ kp, if decide (k = kp.1) then coverage_entry_of qa_id qa_text kp.2
                else None) l.
Proof.
  induction l as [|kp l IH]; intros st; simpl; [by rewrite app_nil_r|].
  rewrite IH, match_step_get_list, <- app_assoc. f_equal.
  destruct (decide _); [|done]. by destruct (coverage_entry_of _ _ _).
Qed.

Lemma omap_at_index {A B} (g : A → option B) k (l : list A) : ∀ n,
  omap (λ kp : nat * A, if decide (k = kp.1) then g kp.2 else None)
       (imap (λ i x, (n + i, x)) l) =
    if decide (n ≤ k) then option_list (l !! (k - n) ≫= g) else [].
Proof.
  induction l as [|x l IH]; intros n.
  - simpl. by destruct (decide _).
  - rewrite imap_cons.
    rewrite (imap_ext _ (λ i x, (S n + i, x))).
    2:{ intros i y _. simpl. f_equal. lia. }
    cbn [omap list_omap]. fold (@omap list _ _ _
      (λ kp : nat * A, if decide (k = kp.1) then g kp.2 else None)).
    rewrite IH. simpl. destruct (decide (k = n + 0)) as [->|Hne].
    + destruct (decide (S n ≤ n + 0)) as [?|_]; [lia|].
      destruct (decide (n ≤ n + 0)) as [_|?]; [|lia].
      replace (n + 0 - n) with 0 by lia. simpl. by destruct (g x).
    + destruct (decide (S n ≤ k)) as [Hle|Hgt].
      * destruct (decide (n ≤ k)) as [_|?]; [|lia].
        replace (k - n) with (S (k - S n)) by lia. done.
      * destruct (decide (n ≤ k)) as [?|_]; [lia|]. done.
Qed.

Lemma map_unit_get_list P mr u k :
  dd_get k (knowledge_coverage (map_unit P mr u)) =
    dd_get k (knowledge_coverage mr) ++
    option_list (P !! k ≫= coverage_entry_of u.1.1 (qa_text_of u.2)).
Proof.
  unfold map_unit, map_qa. simpl. rewrite match_fold_get_list. simpl. f_equal.
  destruct u as [[[t q] name] qa]. simpl. unfold enumerate.
  change (imap pair P) with (imap (λ i x, (0 + i, x)) P).
  rewrite (omap_at_index (coverage_entry_of (t, q) (qa_text_of qa)) k P 0).
  rewrite decide_True by lia. by rewrite Nat.sub_0_r.
Qed.

Lemma units_fold_get_list P us k : ∀ mr,
  dd_get k (knowledge_coverage (foldl (map_unit P) mr us)) =
    dd_get k (knowledge_coverage mr) ++
    omap (λ u, P !! k ≫= coverage_entry_of u.1.1 (qa_text_of u.2)) us.
Proof.
  induction us as [|u us IH]; intros mr; simpl; [by rewrite app_nil_r|].
  rewrite IH, map_unit_get_list, <- app_assoc. f_equal.
  by destruct (P !! k ≫= _).
Qed.

Lemma coverage_entry_ids (qa_units : list (qa_id_t * str * qa_pair)) p :
  ce_qa_id <$> omap (λ u, coverage_entry_of u.1.1 (qa_text_of u.2) p) qa_units =
    (λ u : qa_id_t * str * qa_pair, u.1.1) <$>
      filter (λ u, matches (qa_text_of u.2) p) qa_units.
Proof.
  induction qa_units as [|u us IH]; [done|]. rewrite filter_cons. simpl.
  destruct (decide (matches (qa_text_of u.2) p)) as [Hm|Hm]; unfold matches in Hm.
  - unfold coverage_entry_of at 1. rewrite Hm. simpl. f_equal. exact IH.
  - apply not_true_is_false in Hm. unfold coverage_entry_of at 1. rewrite Hm.
    exact IH.
Qed.

Lemma knowledge_coverage_in_order qa_data P k p :
  P !! k = Some p →
  dd_get k (knowledge_coverage (map_qa_to_knowledge qa_data P)) =
    omap (λ u, coverage_entry_of u.1.1 (qa_text_of u.2) p) (qa_units qa_data).
Proof.
  intros Hp. rewrite map_qa_to_knowledge_units, units_fold_get_list. simpl.
  unfold dd_get at 1. rewrite lookup_empty. simpl. by rewrite Hp.
Qed.

(** X12.  The two link maps of the mapping results mirror each other.  The
    entries recorded for a knowledge point are the QA pairs that match it,
    each once and in the order of the QA pairs; an index beyond the points
    has no entry; and a point is listed for a QA pair exactly when the id of
    the pair appears among the entries of the point. *)
Theorem coverage_entries_follow_qa_pairs qa_data P :
  let mr := map_qa_to_knowledge qa_data P in
  (∀ k p, P !! k = Some p →
     ce_qa_id <$> dd_get k (knowledge_coverage mr) =
       (λ u : qa_id_t * str * qa_pair, u.1.1) <$>
         filter (λ u, matches (qa_text_of u.2) p) (qa_units qa_data) ∧
     NoDup (ce_qa_id <$> dd_get k (knowledge_coverage mr))) ∧
  (∀ k, length P ≤ k → knowledge_coverage mr !! k = None) ∧
  (∀ k id, k ∈ default [] (qa_knowledge_points mr !! id) ↔
           id ∈ ce_qa_id <$> dd_get k (knowledge_coverage mr)).
Proof.
  intros mr.
  assert (Hids : ∀ k p, P !! k = Some p →
     ce_qa_id <$> dd_get k (knowledge_coverage mr) =
       (λ u : qa_id_t * str * qa_pair, u.1.1) <$>
         filter (λ u, matches (qa_text_of u.2) p) (qa_units qa_data)).
  { intros k p Hp. unfold mr.
    by rewrite (knowledge_coverage_in_order _ _ _ _ Hp), coverage_entry_ids. }
  assert (Hout : ∀ k, P !! k = None → knowledge_coverage mr !! k = None).
  { intros k Hk. apply not_elem_of_dom. unfold mr.
    rewrite elem_of_dom_knowledge_coverage. intros (p & Hp & _). congruence. }
  split; [|split].
  - intros k p Hp. split; [by apply Hids|]. rewrite (Hids k p Hp).
    eapply sublist_NoDup; [apply NoDup_qa_unit_ids|].
    apply fmap_sublist, sublist_filter.
  - intros k Hk. apply Hout. by apply lookup_ge_None.
  - intros k id. split.
    + unfold mr at 1. rewrite map_qa_to_knowledge_units, units_fold_qkp.
      destruct (last _) as [u|] eqn:Hlast; simpl;
        [|rewrite lookup_empty; by intros ?%elem_of_nil].
      apply last_Some_elem_of, list_elem_of_filter in Hlast as [Hid Hu].
      intros (mp & -> & (p & Hp & Hm & _)%elem_of_matched_points)%list_elem_of_fmap.
      rewrite (Hids _ p Hp). apply list_elem_of_fmap. exists u.
      split; [done|]. by apply list_elem_of_filter.
    + destruct (P !! k) as [p|] eqn:Hp.
      2:{ unfold dd_get. rewrite (Hout k Hp). by intros ?%elem_of_nil. }
      rewrite (Hids k p Hp).
      intros (u & -> & [Hm Hu]%list_elem_of_filter)%list_elem_of_fmap.
      apply elem_of_qa_units in Hu as (g & Hg & Hqa & _).
      destruct u as [[[t q] name] qa]. simpl in *. unfold mr.
      rewrite (qa_knowledge_points_at _ _ _ _ _ _ Hg Hqa). simpl.
      apply list_elem_of_fmap.
      exists {| knowledge_idx := k; knowledge_text := text p;
                mp_similarity := text_similarity (qa_text_of qa) (text p);
                mp_priority := default normal (priority p) |}.
      split; [done|]. apply elem_of_matched_points. by exists p.
Qed.

End Mappings.

(** * The counts of the semantic stage *)

Section Accounting.
Context {C : Collaborators}.
Implicit Types (P : list knowledge_point) (p : knowledge_point).

Lemma covered_by_assign_priority qa_data low p :
  covered_by qa_data (assign_priority low p) ↔ covered_by qa_data p.
Proof. done. Qed.

Lemma length_filter_snd_enumerate {A} (Q : A → Prop) `{∀ x, Decision (Q x)}
    (l : list A) :
  length (filter (λ ix : nat * A, Q ix.2) (enumerate l)) = length (filter Q l).
Proof.
  rewrite <- (snd_enumerate l) at 2. by rewrite filter_fmap_comm, length_fmap.
Qed.

Lemma length_filter_complement {A} (Q : A → Prop) `{∀ x, Decision (Q x)}
    (l : list A) :
  length (filter Q l) + length (filter (λ x, ¬ Q x) l) = length l.
Proof. by rewrite <- length_app, filter_app_complement. Qed.

Lemma length_uncovered_points qa_data P :
  length (uncovered_points_of (map_qa_to_knowledge qa_data P) P) =
    length (filter (λ p, ¬ covered_by qa_data p) P).
Proof.
  unfold uncovered_points_of. rewrite length_fmap.
  rewrite <- (length_filter_snd_enumerate (λ p, ¬ covered_by qa_data p)).
  f_equal. apply filter_ext_in. intros [i p] Hip%elem_of_enumerate. simpl.
  rewrite elem_of_dom_knowledge_coverage. split.
  - intros Hn Hc. apply Hn. by exists p.
  - intros Hn (p' & Hp' & Hc). rewrite Hip in Hp'. injection Hp' as <-. done.
Qed.

Lemma gap_count_unfold mr P :
  gap_count (identify_knowledge_gaps mr P) = length (uncovered_points_of mr P).
Proof.
  change (gap_count (identify_knowledge_gaps mr P))
    with (length (all_gaps (identify_knowledge_gaps mr P))).
  rewrite all_gaps_unfold, length_app. symmetry. apply length_filter_complement_gap.
Qed.

Lemma gap_count_prioritized qa_data points hr :
  gap_count (kr_knowledge_gaps (knowledge_mapping_evaluation qa_data points hr)) =
    length (filter (λ p, ¬ covered_by qa_data p) points).
Proof.
  unfold knowledge_mapping_evaluation. cbn [kr_knowledge_gaps].
  rewrite gap_count_unfold, length_uncovered_points.
  rewrite prioritize_Permutation, filter_fmap_comm, length_fmap. done.
Qed.

Lemma semantic_counts_of_evaluation qa_data points hr :
  let kr := knowledge_mapping_evaluation qa_data points hr in
  total_points (kr_coverage_stats kr) = length points ∧
  covered_points (kr_coverage_stats kr) + gap_count (kr_knowledge_gaps kr) =
    total_points (kr_coverage_stats kr) ∧
  high_priority_gap_count (kr_knowledge_gaps kr) ≤ gap_count (kr_knowledge_gaps kr).
Proof.
  intros kr.
  assert (Htotal : total_points (kr_coverage_stats kr) = length points).
  { unfold kr, knowledge_mapping_evaluation. cbn.
    by rewrite prioritize_Permutation, length_fmap. }
  split; [done|]. split.
  - rewrite Htotal. unfold kr.
    rewrite gap_count_prioritized, covered_points_prioritized.
    apply length_filter_complement.
  - unfold kr, knowledge_mapping_evaluation. cbn [kr_knowledge_gaps].
    rewrite gap_count_unfold.
    change (high_priority_gap_count (identify_knowledge_gaps ?mr ?P))
      with (length (high_priority_gaps (identify_knowledge_gaps mr P))).
    rewrite high_priority_gaps_unfold. apply length_filter.
Qed.

(** X13.  The counts of the semantic stage add up: every point is either
    covered or a gap, the gaps of high priority are among the gaps, there is
    no gap exactly when every point is matched by some QA pair, and every gap
    is a point that no QA pair matches. *)
Theorem semantic_counts_add_up qa_data points hr :
  let kr := knowledge_mapping_evaluation qa_data points hr in
  let stats := kr_coverage_stats kr in
  let gaps := kr_knowledge_gaps kr in
  total_points stats = length points ∧
  covered_points stats + gap_count gaps = total_points stats ∧
  high_priority_gap_count gaps ≤ gap_count gaps ∧
  (gap_count gaps = 0 ↔ ∀ p, p ∈ points → covered_by qa_data p) ∧
  (∀ g, g ∈ all_gaps gaps →
        ∃ p, p ∈ points ∧ gap_text g = text p ∧ ¬ covered_by qa_data p).
Proof.
  intros kr stats gaps.
  assert (Htotal : total_points stats = length points).
  { unfold stats, kr, knowledge_mapping_evaluation. cbn.
    by rewrite prioritize_Permutation, length_fmap. }
  assert (Hgaps : gap_count gaps = length (filter (λ p, ¬ covered_by qa_data p) points))
    by apply gap_count_prioritized.
  split; [done|]. split; [|split; [|split]].
  - rewrite Htotal, Hgaps. unfold stats, kr. rewrite covered_points_prioritized.
    apply length_filter_complement.
  - unfold gaps, kr, knowledge_mapping_evaluation. cbn [kr_knowledge_gaps].
    rewrite gap_count_unfold.
    change (high_priority_gap_count (identify_knowledge_gaps ?mr ?P))
      with (length (high_priority_gaps (identify_knowledge_gaps mr P))).
    rewrite high_priority_gaps_unfold. apply length_filter.
  - rewrite Hgaps. split.
    + intros Hnil%nil_length_inv p Hp.
      destruct (decide (covered_by qa_data p)) as [?|Hn]; [done|].
      assert (p ∈ filter (λ p, ¬ covered_by qa_data p) points) as Hin
        by (by apply list_elem_of_filter).
      rewrite Hnil in Hin. by apply elem_of_nil in Hin.
    + intros Hall. destruct (filter _ points) as [|p l] eqn:E; [done|].
      assert (p ∈ filter (λ p, ¬ covered_by qa_data p) points) as Hin
        by (rewrite E; by left).
      apply list_elem_of_filter in Hin as [Hn Hp]. by apply Hall in Hp.
  - intros g. unfold gaps, kr, knowledge_mapping_evaluation. cbn [kr_knowledge_gaps].
    rewrite elem_of_all_gaps, elem_of_uncovered_points.
    intros (i & p & Hp & Hi & ->).
    assert (p ∈ prioritize_knowledge_points points hr) as Hin
      by (by eapply list_elem_of_lookup_2).
    apply elem_of_prioritize in Hin as (p0 & Hp0 & ->).
    exists p0. split; [done|]. split; [done|]. intros Hc. apply Hi.
    apply elem_of_dom_knowledge_coverage. eexists. split; [exact Hp|done].
Qed.

Lemma Qsum_weights_normal P :
  (∀ p, p ∈ P → priority p ≠ Some high) →
  (Qsum (weight_of <$> P) == inject_Z (Z.of_nat (length P)))%Q.
Proof.
  induction P as [|p P IH]; intros Hn; [reflexivity|].
  rewrite fmap_cons, Qsum_cons, IH by (intros; apply Hn; by right).
  simpl length. rewrite inject_nat_S.
  destruct (weight_of_cases p) as [[Hp _]|[_ ->]]; [|lra].
  exfalso. by apply (Hn p); [left|].
Qed.

(** X14.  When no point has high priority the weighted rate is the simple
    rate: this is the case when no point comes from a paragraph without a
    matched QA pair. *)
Theorem weighted_coverage_without_high_priority qa_data points hr :
  (∀ p i, p ∈ points → paragraph_idx p = Some i →
          i ∉ low_coverage_paragraphs hr) →
  let stats := kr_coverage_stats (knowledge_mapping_evaluation qa_data points hr) in
  (weighted_coverage stats == simple_coverage stats)%Q ∧
  Forall (λ p, priority p = Some normal)
         (kr_prioritized_points (knowledge_mapping_evaluation qa_data points hr)).
Proof.
  intros Hlow stats.
  set (P := prioritize_knowledge_points points hr).
  assert (Hnormal : ∀ p, p ∈ P → priority p = Some normal).
  { intros p (p0 & Hp0 & ->)%elem_of_prioritize. simpl.
    destruct (paragraph_idx p0) as [i|] eqn:Hi; [|done].
    rewrite decide_False; [done|]. by eapply Hlow. }
  split; [|by apply Forall_forall].
  unfold stats, knowledge_mapping_evaluation. cbn [kr_coverage_stats]. fold P.
  rewrite weighted_coverage_unfold, simple_coverage_unfold.
  destruct (decide (P = [])) as [_|HP]; [reflexivity|].
  rewrite mapped_weight, size_dom_knowledge_coverage.
  rewrite !Qsum_weights_normal.
  - reflexivity.
  - intros p Hp. rewrite (Hnormal p Hp). done.
  - intros p [_ Hp]%list_elem_of_filter. rewrite (Hnormal p Hp). done.
Qed.

End Accounting.

(** * Coverage by topic *)

Section Topics.
Context {C : Collaborators}.
Implicit Types (P : list knowledge_point) (tc : gmap str (gset nat)).

Lemma ds_add_elem tc (t name : str) (v k : nat) :
  k ∈ default ∅ (ds_add t v tc !! name) ↔
  k ∈ default ∅ (tc !! name) ∨ (t = name ∧ v = k).
Proof.
  unfold ds_add. destruct (decide (t = name)) as [->|Hne].
  - rewrite lookup_insert_eq. simpl. rewrite elem_of_union, elem_of_singleton.
    naive_solver.
  - rewrite lookup_insert_ne by done. naive_solver.
Qed.

Lemma ds_add_nonempty tc (t : str) (v : nat) :
  (∀ name S, tc !! name = Some S → S ≠ ∅) →
  ∀ name S, ds_add t v tc !! name = Some S → S ≠ ∅.
Proof.
  intros Htc name S. unfold ds_add. destruct (decide (t = name)) as [->|Hne].
  - rewrite lookup_insert_eq. intros [= <-]. set_solver.
  - rewrite lookup_insert_ne by done. apply Htc.
Qed.

Lemma topic_points_elem (t name : str) (mps : list matched_point) k : ∀ tc,
  k ∈ default ∅ (foldl (λ tc point, ds_add t (knowledge_idx point) tc) tc mps !! name) ↔
  k ∈ default ∅ (tc !! name) ∨
  (t = name ∧ ∃ mp, mp ∈ mps ∧ knowledge_idx mp = k).
Proof.
  induction mps as [|mp mps IH]; intros tc; simpl.
  - split; [auto|]. intros [?|[_ (mp & Hmp & _)]]; [done|]. by apply elem_of_nil in Hmp.
  - rewrite IH, ds_add_elem. setoid_rewrite elem_of_cons. split.
    + intros [[?|[? ?]]|[? (mp' & ? & ?)]]; [auto| |]; right; split; eauto.
    + intros [?|[? (mp' & [->|?] & ?)]]; [auto|auto|]. right. split; eauto.
Qed.

Lemma topic_points_nonempty (t : str) (mps : list matched_point) : ∀ tc,
  (∀ name S, tc !! name = Some S → S ≠ ∅) →
  ∀ name S,
    foldl (λ tc point, ds_add t (knowledge_idx point) tc) tc mps !! name = Some S →
    S ≠ ∅.
Proof.
  induction mps as [|mp mps IH]; intros tc Htc; simpl; [done|].
  apply IH. by apply ds_add_nonempty.
Qed.

Lemma topic_fold_elem (ms : list mapping) (name : str) k : ∀ tc,
  k ∈ default ∅
        (foldl (λ tc m,
                  foldl (λ tc point, ds_add (m_topic m) (knowledge_idx point) tc)
                        tc (matched_points m)) tc ms !! name) ↔
  k ∈ default ∅ (tc !! name) ∨
  ∃ m mp, m ∈ ms ∧ m_topic m = name ∧ mp ∈ matched_points m ∧ knowledge_idx mp = k.
Proof.
  induction ms as [|m ms IH]; intros tc; simpl.
  - split; [auto|]. intros [?|(m & mp & Hm & _)]; [done|]. by apply elem_of_nil in Hm.
  - rewrite IH, topic_points_elem. setoid_rewrite elem_of_cons. split.
    + intros [[?|[? (mp & ? & ?)]]|(m' & mp & ? & ? & ? & ?)]; [auto| |].
      * right. exists m, mp. auto.
      * right. exists m', mp. auto.
    + intros [?|(m' & mp & [->|?] & ? & ? & ?)]; [auto| |].
      * left. right. eauto.
      * right. exists m', mp. auto.
Qed.

Lemma topic_fold_nonempty (ms : list mapping) : ∀ tc,
  (∀ name S, tc !! name = Some S → S ≠ ∅) →
  ∀ name S,
    foldl (λ tc m,
             foldl (λ tc point, ds_add (m_topic m) (knowledge_idx point) tc)
                   tc (matched_points m)) tc ms !! name = Some S →
    S ≠ ∅.
Proof.
  induction ms as [|m ms IH]; intros tc Htc; simpl; [done|].
  apply IH. by apply topic_points_nonempty.
Qed.

Lemma matched_point_covered qa_data P m mp :
  m ∈ mappings (map_qa_to_knowledge qa_data P) → mp ∈ matched_points m →
  knowledge_idx mp ∈ dom (knowledge_coverage (map_qa_to_knowledge qa_data P)).
Proof.
  rewrite map_qa_to_knowledge_units, units_fold_mappings. simpl.
  intros (u & -> & Hu)%list_elem_of_fmap. simpl.
  intros (p & Hp & Hm & _)%elem_of_matched_points.
  rewrite <- map_qa_to_knowledge_units. apply elem_of_dom_knowledge_coverage.
  exists p. split; [done|]. apply Exists_exists. by exists u.
Qed.

(** X15.  Coverage by topic.  A topic has an entry exactly when some QA pair
    filed under its name matches some point; the count of the entry is the
    number of distinct points matched under that name, it is positive and at
    most the overall number of covered points, and the rate of the entry is
    that count over the number of points. *)
Theorem topic_coverage_counts qa_data P (name : str) :
  let mr := map_qa_to_knowledge qa_data P in
  let cs := calculate_weighted_coverage mr P in
  (topic_coverage cs !! name = None ↔
     ¬ ∃ m, m ∈ mappings mr ∧ m_topic m = name ∧ matched_points m ≠ []) ∧
  ∀ ts, topic_coverage cs !! name = Some ts →
    ∃ S : gset nat,
      (∀ k, k ∈ S ↔ ∃ m mp, m ∈ mappings mr ∧ m_topic m = name ∧
                            mp ∈ matched_points m ∧ knowledge_idx mp = k) ∧
      ts_covered_points ts = size S ∧
      0 < ts_covered_points ts ∧ ts_covered_points ts ≤ covered_points cs ∧
      ts_coverage_rate ts = ratio (ts_covered_points ts) (length P) ∧
      (0 <= ts_coverage_rate ts <= 1)%Q.
Proof.
  intros mr cs.
  assert (Helem : ∀ k, k ∈ default ∅ (topic_coverage_sets mr !! name) ↔
            ∃ m mp, m ∈ mappings mr ∧ m_topic m = name ∧
                    mp ∈ matched_points m ∧ knowledge_idx mp = k).
  { intros k. unfold topic_coverage_sets. rewrite topic_fold_elem, lookup_empty.
    simpl. split; [|auto]. by intros [?%elem_of_empty|?]. }
  assert (Hne : ∀ S, topic_coverage_sets mr !! name = Some S → S ≠ ∅).
  { intros S. apply (topic_fold_nonempty (mappings mr) ∅). intros ? ?.
    by rewrite lookup_empty. }
  assert (Hlook : topic_coverage cs !! name =
            (λ points : gset nat,
               {| ts_covered_points := size points;
                  ts_coverage_rate :=
                    match P with
                    | [] => 0%Q
                    | _ :: _ => ratio (size points) (length P)
                    end |}) <$> topic_coverage_sets mr !! name).
  { unfold cs, calculate_weighted_coverage. cbn [topic_coverage].
    by rewrite lookup_fmap. }
  split.
  - rewrite Hlook, fmap_None. split.
    + intros Hnone (m & Hm & Ht & Hmp). destruct (matched_points m) as [|mp l] eqn:E;
        [done|].
      assert (knowledge_idx mp ∈ default ∅ (topic_coverage_sets mr !! name)) as Hin.
      { apply Helem. exists m, mp. rewrite E. split; [done|]. split; [done|].
        split; [by left|done]. }
      rewrite Hnone in Hin. by apply elem_of_empty in Hin.
    + intros Hno. destruct (topic_coverage_sets mr !! name) as [S|] eqn:E; [|done].
      exfalso. apply (Hne S eq_refl). apply set_eq. intros k. split; [|by intros ?%elem_of_empty].
      intros Hk. exfalso. apply Hno. simpl in Helem.
      apply Helem in Hk as (m & mp & Hm & Ht & Hmp & _). exists m.
      split; [done|]. split; [done|]. intros Hnil. rewrite Hnil in Hmp.
      by apply elem_of_nil in Hmp.
  - intros ts. rewrite Hlook. intros (S & HS & ->)%fmap_Some. exists S.
    rewrite HS in Helem. simpl in Helem. split; [exact Helem|]. simpl.
    split; [done|].
    assert (0 < size S) as Hpos.
    { apply Hne in HS. assert (size S ≠ 0); [|lia].
      apply size_non_empty_iff. by intros ?%leibniz_equiv. }
    assert (size S ≤ covered_points cs) as Hle.
    { unfold cs. rewrite covered_points_size. apply subseteq_size.
      intros k (m & mp & Hm & _ & Hmp & <-)%Helem.
      by eapply matched_point_covered. }
    split; [done|]. split; [done|].
    assert (P ≠ []) as HP.
    { intros ->. unfold cs in Hle. rewrite covered_points_size in Hle.
      assert (size (dom (knowledge_coverage mr)) = 0); [|lia].
      unfold mr. rewrite size_dom_knowledge_coverage. done. }
    destruct P as [|p0 P']; [done|]. split; [done|].
    apply ratio_unit; [|simpl; lia].
    etrans; [exact Hle|]. unfold cs. rewrite covered_points_size. unfold mr.
    rewrite size_dom_knowledge_coverage. apply length_filter.
Qed.

End Topics.

(** * The two stages together *)

Section EndToEnd.
Context {C : Collaborators}.
Implicit Types (p : knowledge_point) (mc : ModelCaller).

Lemma main_Ok_inv doc qa_data threshold mc r :
  main doc qa_data threshold mc = Ok r →
  ∃ hr, hash_based_evaluation doc qa_data threshold = Ok hr ∧
        r.1 = hr.1.1 ∧
        r.2 = knowledge_mapping_evaluation qa_data
                (extract_knowledge_points doc (Some mc)) hr.1.1.
Proof.
  unfold main. destruct (hash_based_evaluation doc qa_data threshold) as [hr|e]; [|done].
  simpl. intros [= <-]. by exists hr.
Qed.

Lemma covered_paragraphs_of_run doc qa_data threshold hr :
  hash_based_evaluation doc qa_data threshold = Ok hr →
  covered_paragraphs hr.2 = lexical_covered doc qa_data threshold.
Proof.
  intros (Hcs & _)%hash_based_evaluation_Ok_inv.
  by apply compute_lsh_coverage_Ok_inv in Hcs as (_ & Hcov & _).
Qed.

Lemma paragraph_idx_lt content (model_caller : option ModelCaller) p i :
  p ∈ extract_knowledge_points content model_caller → paragraph_idx p = Some i →
  i < length (split_document content).
Proof.
  intros Hp Hi. apply unique_points_subseteq, elem_of_app in Hp as [Hp|Hp].
  { apply basic_points_no_paragraph in Hp as [Hnone _]. congruence. }
  destruct model_caller as [mc|]; [|by apply elem_of_nil in Hp].
  apply elem_of_llm_points in Hp as (pre & k & para & post & reply & Hsplit & _ & Hin & _).
  apply list_elem_of_fmap in Hin as (t & -> & _). simpl in Hi. injection Hi as ->.
  assert (enumerate (split_document content) !! length pre = Some (i, para)) as Hk.
  { rewrite Hsplit. by apply list_lookup_middle. }
  rewrite enumerate_lookup in Hk. apply fmap_Some in Hk as (para' & Hk & [= -> ->]).
  by eapply lookup_lt_Some.
Qed.

(** A prioritized point that carries a paragraph comes from the model, its
    paragraph is one of the document, and its priority is high exactly when
    no QA pair covers that paragraph lexically. *)
Lemma prioritized_point_of_run doc qa_data threshold mc hr p i :
  hash_based_evaluation doc qa_data threshold = Ok hr →
  p ∈ prioritize_knowledge_points (extract_knowledge_points doc (Some mc)) hr.1.1 →
  paragraph_idx p = Some i →
  type p = Some LLM_EXTRACTED ∧ i < length (split_document doc) ∧
  (priority p = Some high ↔ i ∉ lexical_covered doc qa_data threshold).
Proof.
  intros Hhr (p0 & Hp0 & ->)%elem_of_prioritize Hi.
  change (paragraph_idx p0 = Some i) in Hi.
  assert (i < length (split_document doc)) as Hlt by (by eapply paragraph_idx_lt).
  split.
  { destruct (extract_knowledge_points_origin _ _ _ Hp0) as [[Hn _]|(j & _ & _ & Ht)];
      [congruence|done]. }
  split; [done|].
  rewrite assign_priority_high, <- (covered_paragraphs_of_run _ _ _ _ Hhr). split.
  - intros (j & Hj & Hlow). rewrite Hi in Hj. injection Hj as <-.
    by apply (low_coverage_paragraphs_of_run _ _ _ _ _ Hhr) in Hlow as [_ Hcov].
  - intros Hcov. exists i. split; [done|].
    by apply (low_coverage_paragraphs_of_run _ _ _ _ _ Hhr).
Qed.

(** X16.  The gaps of high priority in the result of a run are the points
    that carry a paragraph which no QA pair covers lexically and that no QA
    pair matches themselves; every point of the result that carries a
    paragraph was extracted by the model from a paragraph of the document,
    and its priority is high exactly when no QA pair covers that paragraph
    lexically. *)
Theorem high_priority_gaps_of_main doc qa_data threshold mc r :
  main doc qa_data threshold mc = Ok r →
  (∀ g, g ∈ high_priority_gaps (kr_knowledge_gaps r.2) ↔
        ∃ k p i,
          kr_prioritized_points r.2 !! k = Some p ∧ g = gap_of (k, p) ∧
          paragraph_idx p = Some i ∧
          (i ∉ lexical_covered doc qa_data threshold) ∧ ¬ covered_by qa_data p) ∧
  (∀ k p i,
     kr_prioritized_points r.2 !! k = Some p → paragraph_idx p = Some i →
     type p = Some LLM_EXTRACTED ∧ i < length (split_document doc) ∧
     (priority p = Some high ↔ i ∉ lexical_covered doc qa_data threshold)) ∧
  (∀ g, g ∈ high_priority_gaps (kr_knowledge_gaps r.2) →
        gap_type g = LLM_EXTRACTED ∧ gap_priority g = high).
Proof.
  intros (hr & Hhr & Hr1 & Hr2)%main_Ok_inv. rewrite Hr2.
  unfold knowledge_mapping_evaluation.
  cbn [kr_knowledge_gaps kr_prioritized_points].
  set (points := extract_knowledge_points doc (Some mc)).
  set (P := prioritize_knowledge_points points hr.1.1).
  assert (Hdom : ∀ k p, P !! k = Some p →
            k ∈ dom (knowledge_coverage (map_qa_to_knowledge qa_data P)) ↔
            covered_by qa_data p).
  { intros k p Hp. rewrite elem_of_dom_knowledge_coverage. split.
    - intros (p' & Hp' & Hc). rewrite Hp in Hp'. by injection Hp' as <-.
    - intros Hc. by exists p. }
  assert (Hpoint : ∀ k p i, P !! k = Some p → paragraph_idx p = Some i →
            type p = Some LLM_EXTRACTED ∧ i < length (split_document doc) ∧
            (priority p = Some high ↔ i ∉ lexical_covered doc qa_data threshold)).
  { intros k p i Hp Hi. apply (prioritized_point_of_run _ _ _ mc hr); [done| |done].
    by eapply list_elem_of_lookup_2. }
  assert (Hhigh : ∀ g,
            g ∈ filter (λ g, gap_priority g = high)
                  (uncovered_points_of (map_qa_to_knowledge qa_data P) P) →
            ∃ k p i, P !! k = Some p ∧ g = gap_of (k, p) ∧ priority p = Some high ∧
                     paragraph_idx p = Some i ∧ ¬ covered_by qa_data p).
  { intros g [Hg (k & p & Hp & Hk & ->)%elem_of_uncovered_points]%list_elem_of_filter.
    simpl in Hg.
    assert (priority p = Some high) as Hprio.
    { destruct (priority p) as [[]|]; simpl in Hg; congruence. }
    assert (p ∈ P) as Hin by (by eapply list_elem_of_lookup_2).
    apply elem_of_prioritize in Hin as (p0 & Hp0 & Hp0eq).
    assert (∃ i, paragraph_idx p0 = Some i ∧ i ∈ low_coverage_paragraphs hr.1.1)
      as (i & Hi & _).
    { apply assign_priority_high. by rewrite <- Hp0eq. }
    exists k, p, i. split; [done|]. split; [done|]. split; [done|].
    split; [by rewrite Hp0eq|]. by rewrite <- (Hdom k p Hp). }
  split; [|split; [exact Hpoint|]].
  - intros g. rewrite high_priority_gaps_unfold. split.
    + intros (k & p & i & Hp & -> & Hprio & Hi & Hn)%Hhigh.
      exists k, p, i. split; [done|]. split; [done|]. split; [done|].
      split; [|done]. by apply (Hpoint k p i Hp Hi).
    + intros (k & p & i & Hp & -> & Hi & Hcov & Hn).
      apply list_elem_of_filter. split.
      * simpl. destruct (Hpoint k p i Hp Hi) as (_ & _ & Hprio).
        by rewrite (proj2 Hprio Hcov).
      * apply elem_of_uncovered_points. exists k, p.
        split; [done|]. split; [|done]. by rewrite (Hdom k p Hp).
  - intros g. rewrite high_priority_gaps_unfold.
    intros (k & p & i & Hp & -> & Hprio & Hi & _)%Hhigh. simpl.
    destruct (Hpoint k p i Hp Hi) as (-> & _). by rewrite Hprio.
Qed.

Lemma no_pairs_no_units qa_data :
  Forall (λ g, get_qa_pairs g = []) qa_data → qa_units qa_data = [].
Proof.
  intros Hall. destruct (qa_units qa_data) as [|u us] eqn:E; [done|].
  assert (u ∈ qa_units qa_data) as Hu by (rewrite E; by left).
  apply elem_of_qa_units in Hu as (g & Hg & Hqa & _).
  rewrite Forall_forall in Hall.
  rewrite (Hall g) in Hqa by (by eapply list_elem_of_lookup_2). done.
Qed.

Lemma filter_all {A} (Q : A → Prop) `{∀ x, Decision (Q x)} (l : list A) :
  (∀ x, Q x) → filter Q l = l.
Proof.
  intros HQ. induction l as [|x l IH]; [done|].
  by rewrite filter_cons_True, IH.
Qed.

Lemma ratio_zero n : (ratio 0 n == 0)%Q.
Proof. unfold ratio. simpl. unfold Qdiv. by rewrite Qmult_0_l. Qed.

(** X17.  A run without any QA pair on a document with a paragraph returns,
    and reports that nothing is covered: no paragraph and no knowledge point
    is covered, all rates are zero, every paragraph is a low-coverage
    paragraph, every point is a gap and every point of the model has high
    priority. *)
Theorem no_qa_pairs_cover_nothing doc qa_data threshold mc :
  Forall (λ g, get_qa_pairs g = []) qa_data → split_document doc ≠ [] →
  ∃ r, main doc qa_data threshold mc = Ok r ∧
       hr_covered_paragraphs r.1 = 0 ∧ (hr_coverage_rate r.1 == 0)%Q ∧
       hr_qa_with_match r.1 = 0 ∧ hr_qa_match_rate r.1 = 0%Q ∧
       qa_details r.1 = [] ∧
       low_coverage_paragraphs r.1 = seq 0 (length (split_document doc)) ∧
       covered_points (kr_coverage_stats r.2) = 0 ∧
       (simple_coverage (kr_coverage_stats r.2) == 0)%Q ∧
       (weighted_coverage (kr_coverage_stats r.2) == 0)%Q ∧
       gap_count (kr_knowledge_gaps r.2) = total_points (kr_coverage_stats r.2) ∧
       (∀ p, p ∈ kr_prioritized_points r.2 → is_Some (paragraph_idx p) →
             priority p = Some high).
Proof.
  intros Hunits%no_pairs_no_units Hdoc.
  assert (compute_qa_minhash qa_data = []) as Hqa.
  { apply nil_length_inv. by rewrite length_compute_qa_minhash, Hunits. }
  assert (∀ p, ¬ covered_by qa_data p) as Hnc.
  { intros p. unfold covered_by. rewrite Hunits. by intros ?%Exists_nil. }
  destruct (hash_based_evaluation_ok doc qa_data threshold Hdoc)
    as (hr & Hhr & _ & _ & Hcovered & _ & Hrate & Hwith & Hqrate & Hwm & Hpd & Hpc).
  assert (lexical_covered doc qa_data threshold = ∅) as Hlex.
  { unfold lexical_covered. by rewrite Hqa. }
  assert (Hlow : low_coverage_paragraphs hr.1.1 = seq 0 (length (split_document doc))).
  { unfold low_coverage_paragraphs. rewrite Hpd, Hpc, Hqa. cbn [run_queries enumerate imap foldl ms_paragraph_coverage].
    rewrite imap_enumerate, filter_fmap_comm, <- list_fmap_compose.
    rewrite <- fst_enumerate. f_equal.
    by apply filter_all. }
  exists (hr.1.1, knowledge_mapping_evaluation qa_data
                    (extract_knowledge_points doc (Some mc)) hr.1.1).
  split; [unfold main; by rewrite Hhr|]. cbn [fst snd].
  split; [by rewrite Hcovered, Hlex|].
  split; [rewrite Hrate, Hlex; apply ratio_zero|].
  assert (hr_qa_with_match hr.1.1 = 0) as Hw0.
  { rewrite Hwith, Hwm, Hqa. done. }
  split; [done|]. split; [by rewrite Hqrate, Hqa|].
  split.
  { apply hash_based_evaluation_Ok_inv in Hhr as (_ & _ & _ & _ & _ & _ & _ & _ & ->).
    by rewrite Hqa. }
  split; [done|].
  pose proof (covered_points_prioritized qa_data
                (extract_knowledge_points doc (Some mc)) hr.1.1) as Hcp.
  assert (Hnil : ∀ l : list knowledge_point, filter (covered_by qa_data) l = []).
  { intros l. induction l as [|p l IH]; [done|].
    rewrite filter_cons_False; [done|apply Hnc]. }
  rewrite Hnil in Hcp. split; [done|].
  unfold knowledge_mapping_evaluation in *. cbn [kr_coverage_stats kr_knowledge_gaps
    kr_prioritized_points] in *.
  set (P := prioritize_knowledge_points (extract_knowledge_points doc (Some mc)) hr.1.1)
    in *.
  split; [|split; [|split]].
  - rewrite simple_coverage_unfold. destruct (decide (P = [])); [reflexivity|].
    rewrite covered_points_size in Hcp. rewrite Hcp. apply ratio_zero.
  - rewrite weighted_coverage_unfold. destruct (decide (P = [])); [reflexivity|].
    rewrite mapped_weight, Hnil. unfold Qdiv. by rewrite Qmult_0_l.
  - rewrite gap_count_unfold, length_uncovered_points.
    change (total_points (calculate_weighted_coverage ?mr ?P0)) with (length P0).
    f_equal. by apply filter_all.
  - intros p (p0 & Hp0 & ->)%elem_of_prioritize [i Hi]. simpl in Hi.
    apply assign_priority_high. exists i. split; [done|].
    rewrite Hlow. apply elem_of_seq. pose proof (paragraph_idx_lt _ _ _ _ Hp0 Hi). lia.
Qed.

End EndToEnd.

(** * The report *)

Section Report.
Context {C : Collaborators}.

Lemma elem_of_if_singleton {A} (b : bool) (x y : A) :
  y ∈ (if b then [x] else []) ↔ b = true ∧ y = x.
Proof.
  destruct b.
  - rewrite list_elem_of_singleton. naive_solver.
  - split; [by intros ?%elem_of_nil|by intros [? _]].
Qed.

Lemma Qltb_true x y : Qltb x y = true ↔ (x < y)%Q.
Proof.
  unfold Qltb. destruct (Qlt_le_dec x y) as [H|H]; split; try done.
  intros H'. exfalso. by apply (Qlt_not_le _ _ H').
Qed.

(** X18.  The recommendations of the report.  There are at most three
    suggestions and at most five uncovered areas; the areas are the first
    gaps of high priority, in order; the request for more QA pairs is made
    exactly when the count of such gaps is positive, and each of the two
    warnings about a low rate exactly when that rate is below 0.7, quoting
    the rate. *)
Theorem report_recommendations hash_results knowledge_results :
  let report := generate_report hash_results knowledge_results in
  let gaps := kr_knowledge_gaps knowledge_results in
  let rate := hr_coverage_rate hash_results in
  let simple := simple_coverage (kr_coverage_stats knowledge_results) in
  length (suggested_improvements report) ≤ 3 ∧
  length (uncovered_areas report) ≤ 5 ∧
  ua_knowledge_point <$> uncovered_areas report `prefix_of`
    gap_text <$> high_priority_gaps gaps ∧
  (add_high_priority_pairs ∈ suggested_improvements report ↔
     0 < high_priority_gap_count gaps) ∧
  (∀ x, low_paragraph_coverage x ∈ suggested_improvements report ↔
        x = rate ∧ (rate < 7 # 10)%Q) ∧
  (∀ x, low_knowledge_coverage x ∈ suggested_improvements report ↔
        x = simple ∧ (simple < 7 # 10)%Q) ∧
  (high_priority_gap_count gaps = 0 → uncovered_areas report = []).
Proof.
  intros report gaps rate simple. unfold report, generate_report.
  cbn [suggested_improvements uncovered_areas]. fold gaps rate simple.
  split; [|split; [|split; [|split; [|split; [|split]]]]].
  - rewrite !length_app.
    destruct (0 <? _), (Qltb rate _), (Qltb simple _); simpl; lia.
  - destruct (0 <? _); [|simpl; lia].
    rewrite length_fmap, length_take. lia.
  - destruct (0 <? _); [|apply prefix_nil].
    rewrite <- (take_drop 5 (high_priority_gaps gaps)) at 2.
    rewrite fmap_app, <- list_fmap_compose. by apply prefix_app_r.
  - rewrite !elem_of_app, !elem_of_if_singleton, Nat.ltb_lt. naive_solver.
  - intros x. rewrite !elem_of_app, !elem_of_if_singleton, !Qltb_true.
    unfold threshold_07. split.
    + intros [[_ [=]]|[[? [= ->]]|[_ [=]]]]. split; [reflexivity|assumption].
    + intros [-> ?]. right. left. split; [assumption|reflexivity].
  - intros x. rewrite !elem_of_app, !elem_of_if_singleton, !Qltb_true.
    unfold threshold_07. split.
    + intros [[_ [=]]|[[_ [=]]|[? [= ->]]]]. split; [reflexivity|assumption].
    + intros [-> ?]. right. right. split; [assumption|reflexivity].
  - intros ->. reflexivity.
Qed.

Lemma main_report_Ok_inv doc qa_data threshold mc report :
  main_report doc qa_data threshold mc = Ok report →
  ∃ r, main doc qa_data threshold mc = Ok r ∧ report = generate_report r.1 r.2.
Proof.
  unfold main_report. destruct (main doc qa_data threshold mc) as [r|e]; [|done].
  simpl. intros [= <-]. by exists r.
Qed.

Local Ltac summary_fields :=
  unfold generate_report;
  cbn [summary s_total_paragraphs s_covered_paragraphs s_covered_knowledge_points
       s_uncovered_knowledge_points s_total_knowledge_points s_high_priority_gaps].

(** X19.  The report of a run is consistent.  Its summary adds up: the
    covered paragraphs are among the paragraphs, of which there is one at
    least; the covered and the uncovered points together are all points; the
    gaps of high priority are among the uncovered points.  The uncovered
    areas are the first five gaps of high priority, each marked high, and
    they are listed exactly when more QA pairs are asked for and exactly when
    the text report lists gaps.  When no point was extracted the report still
    warns about a knowledge coverage of zero. *)
Theorem report_of_a_run doc qa_data threshold mc report :
  main_report doc qa_data threshold mc = Ok report →
  let s := summary report in
  0 < s_total_paragraphs s ∧
  s_covered_paragraphs s ≤ s_total_paragraphs s ∧
  s_covered_knowledge_points s + s_uncovered_knowledge_points s =
    s_total_knowledge_points s ∧
  s_high_priority_gaps s ≤ s_uncovered_knowledge_points s ∧
  length (uncovered_areas report) = 5 `min` s_high_priority_gaps s ∧
  Forall (λ a, ua_priority a = high) (uncovered_areas report) ∧
  (add_high_priority_pairs ∈ suggested_improvements report ↔
     uncovered_areas report ≠ []) ∧
  (∀ r, main doc qa_data threshold mc = Ok r →
        (text_report_gaps r.2 = no_gap_line ↔ uncovered_areas report = [])) ∧
  (s_total_knowledge_points s = 0 →
     low_knowledge_coverage 0 ∈ suggested_improvements report).
Proof.
  intros (r & Hr & ->)%main_report_Ok_inv s.
  pose proof Hr as (hr & Hhr & Hr1 & Hr2)%main_Ok_inv.
  set (points := extract_knowledge_points doc (Some mc)) in *.
  destruct (semantic_counts_of_evaluation qa_data points hr.1.1) as (Htot & Hsum & Hhigh).
  rewrite <- Hr2 in Htot, Hsum, Hhigh.
  set (gaps := kr_knowledge_gaps r.2) in *.
  assert (Hcount : high_priority_gap_count gaps = length (high_priority_gaps gaps)).
  { unfold gaps. by rewrite Hr2. }
  assert (Hall : Forall (λ g, gap_priority g = high) (high_priority_gaps gaps)).
  { unfold gaps. rewrite Hr2. unfold knowledge_mapping_evaluation.
    cbn [kr_knowledge_gaps]. rewrite high_priority_gaps_unfold.
    apply Forall_forall. by intros g [? _]%list_elem_of_filter. }
  assert (Hareas : uncovered_areas (generate_report r.1 r.2) =
            (λ gap, {| ua_knowledge_point := gap_text gap;
                       ua_priority := gap_priority gap |})
              <$> take 5 (high_priority_gaps gaps)).
  { unfold generate_report. cbn [uncovered_areas]. fold gaps. rewrite Hcount.
    by destruct (high_priority_gaps gaps). }
  unfold s.
  split; [|split; [|split; [|split; [|split; [|split; [|split; [|split]]]]]]].
  - summary_fields. rewrite Hr1.
    apply hash_based_evaluation_Ok_inv in Hhr as (Hcs & _ & _ & _ & -> & _).
    apply lexical_links_cover in Hcs as (Hne & -> & _).
    destruct (compute_minhash _); [done|]. simpl. lia.
  - summary_fields. rewrite Hr1.
    apply hash_based_evaluation_Ok_inv in Hhr as (Hcs & _ & _ & -> & -> & _).
    apply lexical_links_cover in Hcs as (_ & -> & _ & Hbelow & _).
    by apply size_below.
  - summary_fields. done.
  - summary_fields. done.
  - rewrite Hareas, length_fmap, length_take. summary_fields. fold gaps.
    by rewrite Hcount.
  - rewrite Hareas. apply Forall_fmap, Forall_forall. intros g Hg. simpl.
    rewrite Forall_forall in Hall. apply Hall.
    eapply elem_of_sublist; [exact Hg|apply sublist_take].
  - rewrite Hareas. unfold generate_report. cbn [suggested_improvements]. fold gaps.
    rewrite !elem_of_app, !elem_of_if_singleton, Nat.ltb_lt, Hcount.
    destruct (high_priority_gaps gaps) as [|g l]; simpl; [|split; [done|]].
    + split; [|done]. intros [[? _]|[[_ ?]|[_ ?]]]; [lia|done|done].
    + intros _. left. split; [lia|done].
  - intros r' Hr'. rewrite Hr in Hr'. injection Hr' as <-. rewrite Hareas.
    unfold text_report_gaps. fold gaps.
    destruct (high_priority_gaps gaps) as [|g l]; [done|]. split; [|done].
    intros Heq. exfalso. apply (f_equal (take 3)) in Heq.
    rewrite firstn_cons in Heq. cbn [imap mjoin gap_line] in Heq.
    vm_compute in Heq. discriminate Heq.
  - summary_fields. intros Hzero. cbn [suggested_improvements].
    rewrite !elem_of_app, !elem_of_if_singleton. right. right.
    assert (simple_coverage (kr_coverage_stats r.2) = 0%Q) as ->; [|done].
    rewrite Hr2 in Hzero |- *. unfold knowledge_mapping_evaluation in *.
    cbn [kr_coverage_stats] in *. revert Hzero. unfold calculate_weighted_coverage.
    cbn [total_points simple_coverage].
    by destruct (prioritize_knowledge_points points hr.1.1).
Qed.

End Report.

(** * The heat map *)

Section HeatMap.
Context {C : Collaborators}.

Lemma ceil_div4_bounds n : n ≤ 4 * ceil_div4 n ∧ 4 * ceil_div4 n < n + 4.
Proof.
  unfold ceil_div4. pose proof (Nat.div_mod_eq (n + 3) 4) as Hdm.
  pose proof (Nat.mod_upper_bound (n + 3) 4). lia.
Qed.

(** The loop that fills the matrix, on any list of values that fits. *)
Lemma heatmap_fold (R : nat) (vs : list nat) :
  length vs ≤ 4 * R →
  let m := foldl (heatmap_step R) (zeros R 4) (enumerate vs) in
  length m = R ∧
  ∀ row col, row < R → col < 4 →
    ∃ cells, m !! row = Some cells ∧ length cells = 4 ∧
             cells !! col = Some (default 0 (vs !! (4 * row + col))).
Proof.
  induction vs as [|v vs IH] using rev_ind; intros Hlen.
  - simpl. unfold zeros. split; [by rewrite length_replicate|].
    intros row col Hrow Hcol. exists (replicate 4 0).
    split; [by apply lookup_replicate_2|]. split; [done|].
    by apply lookup_replicate_2.
  - rewrite length_app in Hlen. simpl in Hlen.
    destruct IH as [IHlen IHcells]; [lia|].
    rewrite enumerate_snoc, foldl_app. cbn [foldl].
    set (m := foldl (heatmap_step R) (zeros R 4) (enumerate vs)) in *.
    set (k := length vs) in *.
    pose proof (Nat.div_mod_eq k 4) as Hdm.
    pose proof (Nat.mod_upper_bound k 4) as Hmod.
    unfold heatmap_step. cbn [fst snd].
    assert ((k / 4 <? R) && (k mod 4 <? 4) = true) as ->.
    { apply andb_true_iff. split; apply Nat.ltb_lt; lia. }
    split; [by rewrite length_alter|].
    intros row col Hrow Hcol.
    destruct (IHcells row col Hrow Hcol) as (cells & Hcells & Hlen4 & Hcell).
    destruct (decide (row = k / 4)) as [->|Hne].
    + exists (<[k mod 4 := v]> cells). rewrite list_lookup_alter_eq, Hcells.
      split; [done|]. split; [by rewrite length_insert|].
      destruct (decide (col = k mod 4)) as [->|Hcne].
      * rewrite list_lookup_insert_eq by lia.
        replace (4 * (k / 4) + k mod 4) with k by lia.
        unfold k. by rewrite list_lookup_middle.
      * rewrite list_lookup_insert_ne by done. rewrite Hcell. f_equal.
        destruct (decide (4 * (k / 4) + col < k)) as [Hlt|Hge].
        -- by rewrite lookup_app_l.
        -- rewrite !(lookup_ge_None_2 _ (4 * (k / 4) + col)); [done| |].
           ++ rewrite length_app. cbn [length]. fold k. lia.
           ++ fold k. lia.
    + exists cells. rewrite list_lookup_alter_ne by done.
      split; [done|]. split; [done|]. rewrite Hcell. f_equal.
      destruct (decide (4 * row + col < k)) as [Hlt|Hge].
      * by rewrite lookup_app_l.
      * rewrite !(lookup_ge_None_2 _ (4 * row + col)); [done| |].
        -- rewrite length_app. cbn [length]. fold k. lia.
        -- fold k. lia.
Qed.

(** X20.  The matrix of the heat map.  It has as many rows of four cells as
    are needed for one cell per paragraph, and no row more; paragraph [i] is
    shown in row [i / 4], column [i mod 4] with the number of QA pairs that
    match it, and the cells after the last paragraph stay zero.  The bounds
    check of the loop never skips a paragraph. *)
Theorem heatmap_cells segments cs :
  let m := generate_coverage_heatmap segments cs in
  let n := length segments in
  length m = ceil_div4 n ∧ n ≤ 4 * length m ∧ 4 * length m < n + 4 ∧
  Forall (λ cells, length cells = 4) m ∧
  (∀ i, i < n →
        ∃ cells, m !! (i / 4) = Some cells ∧
                 cells !! (i mod 4) =
                   Some (length (dd_get i (paragraph_coverage cs)))) ∧
  (∀ row col cells, m !! row = Some cells → col < 4 → n ≤ 4 * row + col →
                    cells !! col = Some 0).
Proof.
  intros m n. pose proof (ceil_div4_bounds n) as [Hlo Hhi].
  assert (length (coverage_values segments cs) = n) as Hvs.
  { unfold coverage_values. by rewrite length_fmap, length_seq. }
  destruct (heatmap_fold (ceil_div4 n) (coverage_values segments cs)) as [Hlen Hcells];
    [lia|].
  fold n in Hlen, Hcells. change (foldl _ _ _) with m in Hlen, Hcells.
  rewrite Hlen. split; [done|]. split; [done|]. split; [done|]. split; [|split].
  - apply Forall_forall. intros cells Hin.
    apply list_elem_of_lookup in Hin as [row Hrow].
    assert (row < ceil_div4 n) as Hlt by (rewrite <- Hlen; by eapply lookup_lt_Some).
    destruct (Hcells row 0 Hlt) as (cells' & Hcells' & Hlen4 & _); [lia|].
    rewrite Hrow in Hcells'. by injection Hcells' as <-.
  - intros i Hi.
    pose proof (Nat.div_mod_eq i 4) as Hdm.
    pose proof (Nat.mod_upper_bound i 4) as Hmod.
    destruct (Hcells (i / 4) (i mod 4)) as (cells & Hrow & _ & Hcell); [lia|lia|].
    exists cells. split; [done|]. rewrite Hcell. f_equal.
    replace (4 * (i / 4) + i mod 4) with i by lia.
    unfold coverage_values. rewrite list_lookup_fmap, lookup_seq_lt by done. done.
  - intros row col cells Hrow Hcol Hout.
    assert (row < ceil_div4 n) as Hlt by (rewrite <- Hlen; by eapply lookup_lt_Some).
    destruct (Hcells row col Hlt Hcol) as (cells' & Hcells' & _ & Hcell).
    rewrite Hrow in Hcells'. injection Hcells' as <-. rewrite Hcell. f_equal.
    rewrite lookup_ge_None_2; [done|]. rewrite Hvs. lia.
Qed.

End HeatMap.

(** * The two stages number the QA pairs alike *)

Section Numbering.
Context {C : Collaborators}.

Lemma compute_qa_minhash_units qa_data :
  compute_qa_minhash qa_data =
    (λ u : qa_id_t * str * qa_pair,
       {| qh_minhash := sketch_of (qa_text_of u.2);
          qh_topic := u.1.2;
          qh_question := get_question u.2;
          qh_answer := get_answer u.2;
          qh_qa_idx := u.1.1.2;
          qh_topic_idx := u.1.1.1 |}) <$> qa_units qa_data.
Proof.
  unfold compute_qa_minhash, qa_units. rewrite !imap_enumerate.
  induction (enumerate qa_data) as [|[t g] l IH]; [done|].
  rewrite !fmap_cons. simpl. rewrite fmap_app, IH. f_equal.
  rewrite fmap_imap. by apply imap_ext.
Qed.

(** X21.  The two stages number the QA pairs alike: the lexical results and
    the mapping results have one entry per QA pair, and the entries at the
    same position describe the same pair, with the same question and the
    same topic name; the position of the lexical entry is its index. *)
Theorem stages_number_qa_pairs_alike doc qa_data threshold r P j d m :
  hash_based_evaluation doc qa_data threshold = Ok r →
  qa_details r.1.1 !! j = Some d →
  mappings (map_qa_to_knowledge qa_data P) !! j = Some m →
  length (qa_details r.1.1) = length (mappings (map_qa_to_knowledge qa_data P)) ∧
  qd_index d = j ∧ qd_question d = m_question m ∧ qd_topic d = m_topic m ∧
  ∃ t q g qa, m_qa_id m = (t, q) ∧ qa_data !! t = Some g ∧
              get_qa_pairs g !! q = Some qa ∧
              m_question m = get_question qa ∧
              m_topic m = default (unnamed_topic t) (topic g).
Proof.
  intros Hr Hd Hm.
  apply hash_based_evaluation_Ok_inv in Hr as (_ & _ & _ & _ & _ & _ & _ & _ & Hqd).
  rewrite Hqd, compute_qa_minhash_units in Hd |- *.
  rewrite map_qa_to_knowledge_units, units_fold_mappings in Hm |- *. simpl in Hm |- *.
  rewrite length_imap, !length_fmap. split; [done|].
  rewrite list_lookup_imap, list_lookup_fmap in Hd.
  rewrite list_lookup_fmap in Hm.
  destruct (qa_units qa_data !! j) as [u|] eqn:Hu; [|done].
  simpl in Hd, Hm. injection Hd as <-. injection Hm as <-. simpl.
  split; [done|]. split; [done|]. split; [done|].
  apply list_elem_of_lookup_2, elem_of_qa_units in Hu as (g & Hg & Hqa & Hname).
  destruct u as [[[t q] name] qa]. simpl in *. by exists t, q, g, qa.
Qed.

End Numbering.

(** * The key of the deduplication *)

Section Normalisation.
Context {C : Collaborators}.
Implicit Types (s n w : str).

Lemma re_sub_ws_run w s :
  w ≠ [] → Forall (λ c, isspace c = true) w →
  (∀ c, head s = Some c → isspace c = false) →
  re_sub_ws (w ++ s) = SPACE :: re_sub_ws s.
Proof.
  intros Hne Hw Hs. induction Hw as [|c w Hc Hw IH]; [done|].
  destruct w as [|c' w].
  - simpl. rewrite Hc. destruct s as [|d s]; [done|].
    by rewrite (Hs d eq_refl).
  - inversion Hw as [|? ? Hc' _]; subst.
    change (re_sub_ws ((c :: c' :: w) ++ s))
      with (if isspace c then
              if isspace c' then re_sub_ws ((c' :: w) ++ s)
              else SPACE :: re_sub_ws ((c' :: w) ++ s)
            else c :: re_sub_ws ((c' :: w) ++ s)).
    rewrite Hc, Hc'. by apply IH.
Qed.

Lemma collapse_spec_sound s n : collapse_spec s n → re_sub_ws s = n.
Proof.
  induction 1 as [|c s n Hc _ IH|w s n Hne Hw Hs _ IH].
  - done.
  - simpl. by rewrite Hc, IH.
  - by rewrite re_sub_ws_run, IH.
Qed.

Lemma collapse_spec_complete s : collapse_spec s (re_sub_ws s).
Proof.
  remember (length s) as k eqn:Hk. revert s Hk.
  induction k as [k IH] using lt_wf_ind. intros s Hk.
  destruct s as [|c s]; [constructor|].
  destruct (isspace c) eqn:Hc.
  - pose proof (takewhile_dropwhile isspace s) as Hsplit.
    assert (c :: s = (c :: takewhile isspace s) ++ dropwhile isspace s) as ->
      by (simpl; by rewrite Hsplit).
    assert (Forall (λ c, isspace c = true) (c :: takewhile isspace s)) as Hw.
    { constructor; [done|]. clear. induction s as [|d s IH]; simpl; [constructor|].
      destruct (isspace d) eqn:Hd; [by constructor|constructor]. }
    rewrite re_sub_ws_run; [|done|done|apply dropwhile_head].
    apply collapse_run; [done|done|apply dropwhile_head|].
    eapply IH; [|reflexivity]. subst k. simpl.
    pose proof (length_dropwhile isspace s). lia.
  - simpl. rewrite Hc. apply collapse_char; [done|].
    eapply IH; [|reflexivity]. subst k. simpl. lia.
Qed.

Lemma re_sub_ws_spec s n : re_sub_ws s = n ↔ collapse_spec s n.
Proof.
  split; [intros <-; apply collapse_spec_complete|apply collapse_spec_sound].
Qed.

(** A later point with the key of an earlier one leaves no trace. *)
Lemma dedup_later_duplicate (l1 : list knowledge_point) p l2 q l3 :
  normalized_text p = normalized_text q →
  unique_points_of (l1 ++ p :: l2 ++ q :: l3) =
    unique_points_of (l1 ++ p :: l2 ++ l3).
Proof.
  intros Hkey. unfold unique_points_of.
  replace (l1 ++ p :: l2 ++ q :: l3) with ((l1 ++ p :: l2) ++ q :: l3)
    by (by rewrite <- app_assoc).
  replace (l1 ++ p :: l2 ++ l3) with ((l1 ++ p :: l2) ++ l3)
    by (by rewrite <- app_assoc).
  rewrite (foldl_app dedup_step (l1 ++ p :: l2) (q :: l3)).
  rewrite (foldl_app dedup_step (l1 ++ p :: l2) l3). cbn [foldl].
  assert (dedup_step (foldl dedup_step ([], ∅) (l1 ++ p :: l2)) q =
            foldl dedup_step ([], ∅) (l1 ++ p :: l2)) as ->; [|done].
  unfold dedup_step at 1. rewrite decide_True; [done|].
  rewrite dedup_foldl_seen, <- Hkey. apply elem_of_union_r, elem_of_list_to_set.
  rewrite fmap_app, fmap_cons. apply elem_of_app. right. by left.
Qed.

(** C5.  The extraction deduplicates its points, entity and noun-phrase
    points first and model-extracted points after them.  The key of a point
    is its text lower-cased and with every white-space run collapsed to one
    space, so two points have the same key exactly when their texts are equal
    after lower-casing and collapsing white-space runs.  The result is a
    subsequence of the collected points in which no two points have the same
    key; a point is kept exactly when it is the first occurrence of its key,
    unchanged (so with that occurrence's source paragraph), and a later point
    with the key of an earlier one is dropped without a trace. *)
Theorem extract_knowledge_points_dedup content mc :
  let all_points := basic_points content ++ advanced_points_of content mc in
  let kept := extract_knowledge_points content mc in
  (∀ p n, normalized_text p = n ↔ collapse_spec (str_lower (text p)) n) ∧
  (∀ p q, normalized_text p = normalized_text q ↔
          ∃ n, collapse_spec (str_lower (text p)) n ∧
               collapse_spec (str_lower (text q)) n) ∧
  sublist kept all_points ∧
  NoDup (normalized_text <$> kept) ∧
  (∀ q, q ∈ kept ↔
        ∃ l1 l2, all_points = l1 ++ q :: l2 ∧
                 normalized_text q ∉ (normalized_text <$> l1)) ∧
  (∀ p, p ∈ all_points → ∃ q, q ∈ kept ∧ normalized_text q = normalized_text p) ∧
  (∀ l1 p l2 q l3,
     all_points = l1 ++ p :: l2 ++ q :: l3 →
     normalized_text p = normalized_text q →
     kept = unique_points_of (l1 ++ p :: l2 ++ l3)).
Proof.
  intros all_points kept. unfold kept, extract_knowledge_points. fold all_points.
  split; [intros p n; apply re_sub_ws_spec|]. split.
  { intros p q. unfold normalized_text. split.
    - intros Heq. exists (re_sub_ws (str_lower (text p))).
      split; [apply collapse_spec_complete|]. rewrite Heq.
      apply collapse_spec_complete.
    - intros (n & Hp%collapse_spec_sound & Hq%collapse_spec_sound). congruence. }
  unfold unique_points_of.
  split; [apply dedup_sublist|]. split; [apply dedup_NoDup|].
  assert (Hiff : ∀ q, q ∈ (foldl dedup_step ([], ∅) all_points).1 ↔
        ∃ l1 l2, all_points = l1 ++ q :: l2 ∧
                 normalized_text q ∉ (normalized_text <$> l1)).
  { intros q. split.
    - intros Hq. apply dedup_first_occurrence in Hq as (l1 & l2 & ? & ? & _). eauto.
    - intros (l1 & l2 & Hl & Hn). eapply dedup_keeps_first; [done..|set_solver]. }
  split; [exact Hiff|]. split.
  - intros p Hp. apply dedup_covers; [done|set_solver].
  - intros l1 p l2 q l3 Hall Hkey. rewrite Hall.
    by apply dedup_later_duplicate.
Qed.

End Normalisation.

(** * QA groups as read from JSON *)

Section JsonInput.
Context {C : Collaborators}.

Lemma mapM_Ok {A B} (f : A → result B) (g : A → B) (l : list A) :
  (∀ x, x ∈ l → f x = Ok (g x)) → mapM f l = Ok (g <$> l).
Proof.
  induction l as [|x l IH]; intros Hf; [done|]. simpl.
  rewrite (Hf x) by left. simpl. rewrite IH; [done|].
  intros y Hy. apply Hf. by right.
Qed.

Lemma mapM_Raise {A B} (f : A → result B) (e : exn) (l : list A) :
  (∀ x e', f x = Raise e' → e' = e) → Exists (λ x, ∃ e', f x = Raise e') l →
  mapM f l = Raise e.
Proof.
  intros Hone. induction 1 as [x l [e' Hx]|x l _ IH]; simpl.
  - rewrite Hx. simpl. by rewrite (Hone x e' Hx).
  - destruct (f x) as [y|e'] eqn:Hx; simpl.
    + by rewrite IH.
    + by rewrite (Hone x e' Hx).
Qed.


Lemma read_qa_Raise (qa : json_qa_pair) e :
  read_qa qa = Raise e →
  e = TypeError ∧ ¬ (text_or_absent (json_question qa) ∧ text_or_absent (json_answer qa)).
Proof.
  destruct qa as [[[]|] [[]|]]; simpl; unfold read_qa; simpl;
    intros [= <-]; (split; [done|]); intros [? ?]; done.
Qed.

Lemma read_qa_not_text (qa : json_qa_pair) :
  ¬ (text_or_absent (json_question qa) ∧ text_or_absent (json_answer qa)) →
  read_qa qa = Raise TypeError.
Proof.
  destruct qa as [[[]|] [[]|]]; simpl; unfold read_qa; simpl; intros Hn;
    try reflexivity; exfalso; apply Hn; done.
Qed.










(** A question or answer that is present but not a string (a JSON [null],
    a number) is not read as a missing one: the stage raises [TypeError],
    from the concatenation of the two texts and whatever the document is. *)
Lemma present_non_string_raises doc (qa_data : list json_topic_group) threshold g qa :
  g ∈ qa_data → qa ∈ default [] (json_qa_pairs g) →
  ¬ (text_or_absent (json_question qa) ∧ text_or_absent (json_answer qa)) →
  hash_based_evaluation_json doc qa_data threshold = Raise TypeError.
Proof.
  intros Hg Hqa Hbad. unfold hash_based_evaluation_json, compute_qa_minhash_json.
  assert (Hinner : ∀ (it : nat * json_topic_group) e',
    mapM (λ iq : nat * json_qa_pair,
            qa0 ← read_qa iq.2;
            Ok {| qh_minhash :=
                    minhash_of_tokens num_perm_default
                      (jieba_cut (re_sub_ws (qa0.1 ++ [SPACE] ++ qa0.2)));
                  qh_topic := default (unnamed_topic it.1) (json_topic it.2);
                  qh_question := qa0.1; qh_answer := qa0.2;
                  qh_qa_idx := iq.1; qh_topic_idx := it.1 |})
         (enumerate (default [] (json_qa_pairs it.2))) = Raise e' → e' = TypeError).
  { intros it e'. generalize (enumerate (default [] (json_qa_pairs it.2))).
    intros l. revert e'. induction l as [|iq l IH]; intros e'; [done|]. simpl.
    destruct (read_qa iq.2) as [qa0|e0] eqn:Hr; simpl.
    - destruct (mapM _ l) as [k|e1]; simpl; [done|]. intros [= <-]. by apply IH.
    - intros [= <-]. by apply read_qa_Raise in Hr as [-> _]. }
  rewrite (mapM_Raise _ TypeError); [done|exact Hinner|].
  apply list_elem_of_lookup in Hg as [t Ht].
  apply Exists_exists. exists (t, g). split; [by apply elem_of_enumerate|].
  simpl. exists TypeError.
  apply mapM_Raise.
  - intros iq e'. destruct (read_qa iq.2) as [qa0|e0] eqn:Hr; simpl; [done|].
    intros [= <-]. by apply read_qa_Raise in Hr as [-> _].
  - apply list_elem_of_lookup in Hqa as [q Hq].
    apply Exists_exists. exists (q, qa). split; [by apply elem_of_enumerate|].
    simpl. exists TypeError. by rewrite (read_qa_not_text qa Hbad).
Qed.

End JsonInput.


(** * The divisions of the weighted coverage *)

Section Division.
Context {C : Collaborators}.
Implicit Types (P : list knowledge_point) (p : knowledge_point)
  (mr : mapping_results_t).

Lemma Qsum_foldr (l : list Q) : (Qsum l == foldr Qplus 0 l)%Q.
Proof.
  induction l as [|x l IH]; [reflexivity|].
  rewrite Qsum_cons, IH. reflexivity.
Qed.

Lemma float_div_pos (x y : Q) : (0 < y)%Q → float_div x y = Ok (x / y)%Q.
Proof.
  intros Hy. unfold float_div.
  destruct (Qeq_bool y 0) eqn:E; [|done].
  apply Qeq_bool_iff in E. rewrite E in Hy. by apply Qlt_irrefl in Hy.
Qed.

Lemma guarded_true_div P (a : nat) :
  match P with [] => Ok 0%Q | _ :: _ => true_div a (length P) end =
    Ok (match P with
        | [] => 0%Q
        | _ :: _ => inject_Z (Z.of_nat a) / inject_Z (Z.of_nat (length P))
        end)%Q.
Proof. by destruct P. Qed.

Lemma guarded_float_div (x y : Q) :
  (if Qgtb y 0 then float_div x y else Ok 0%Q) =
    Ok (if Qgtb y 0 then x / y else 0)%Q.
Proof.
  destruct (Qgtb y 0) eqn:E; [|done].
  apply Qgtb_true in E. by apply float_div_pos.
Qed.

(** No division of [calculate_weighted_coverage] raises: whatever the
    mapping results and the points are, it returns the statistics. *)
Lemma calculate_weighted_coverage_returns mr P :
  calculate_weighted_coverage_raising mr P = Ok (calculate_weighted_coverage mr P).
Proof.
  unfold calculate_weighted_coverage_raising, calculate_weighted_coverage.
  rewrite guarded_true_div, guarded_float_div. cbn [mbind result_bind].
  erewrite (mapM_Ok _ (λ item : str * gset nat,
    (item.1, {| ts_covered_points := size item.2;
                ts_coverage_rate :=
                  match P with
                  | [] => 0%Q
                  | _ :: _ => ratio (size item.2) (length P)
                  end |}))).
  2:{ intros item _. by rewrite guarded_true_div. }
  cbn [mbind result_bind]. do 2 f_equal.
  rewrite <- (list_to_map_to_list (topic_coverage_sets mr)) at 2.
  rewrite <- list_to_map_fmap. reflexivity.
Qed.

(** C7.  No division of the weighted coverage is one by zero: for every
    mapping result and every list of points the statistics are returned.  A
    point weighs 1.5 when its priority is high and 1.0 otherwise (a key of
    the coverage map that is no index of the list weighs 1.0).  The simple
    coverage is the number of distinct mapped points divided by the number of
    points, the weighted coverage the sum of the weights of the mapped points
    divided by the sum of the weights of all points, and with no knowledge
    point both are 0. *)
Theorem calculate_weighted_coverage_rates mr P :
  let mapped := dom (knowledge_coverage mr) in
  let weight p : Q := if decide (priority p = Some high) then 1.5%Q else 1.0%Q in
  let weight_at (k : nat) : Q :=
    match P !! k with Some p => weight p | None => 1.0%Q end in
  ∃ cs, calculate_weighted_coverage_raising mr P = Ok cs ∧
        cs = calculate_weighted_coverage mr P ∧
        (∀ p, weight_of p = weight p) ∧
        (∀ k, point_weight P k = weight_at k) ∧
        covered_points cs = size mapped ∧
        total_points cs = length P ∧
        simple_coverage cs =
          (if decide (P = []) then 0
           else inject_Z (Z.of_nat (size mapped)) / inject_Z (Z.of_nat (length P)))%Q ∧
        (weighted_coverage cs ==
           if decide (P = []) then 0
           else foldr Qplus 0 (weight_at <$> elements mapped)
                / foldr Qplus 0 (weight <$> P))%Q ∧
        (foldr Qplus 0 (weight <$> P) ==
           (3 # 2) * inject_Z (Z.of_nat (length (filter (λ p, priority p = Some high) P)))
           + inject_Z (Z.of_nat (length (filter (λ p, priority p ≠ Some high) P))))%Q.
Proof.
  intros mapped weight weight_at.
  assert (∀ k, point_weight P k = weight_at k) as Hat.
  { intros k. unfold weight_at, point_weight, knowledge_weights.
    rewrite list_lookup_fmap. by destruct (P !! k). }
  exists (calculate_weighted_coverage mr P).
  split; [apply calculate_weighted_coverage_returns|].
  split; [done|]. split; [done|]. split; [exact Hat|].
  split; [apply covered_points_size|].
  split; [done|].
  split; [apply simple_coverage_unfold|].
  split.
  - rewrite weighted_coverage_unfold. destruct (decide (P = [])); [reflexivity|].
    rewrite !Qsum_foldr.
    replace (point_weight P <$> elements (dom (knowledge_coverage mr)))
      with (weight_at <$> elements mapped); [reflexivity|].
    apply list_fmap_ext. intros _ k _. symmetry. apply Hat.
  - rewrite <- Qsum_foldr. apply Qsum_weights.
Qed.

End Division.

(** * Sketches without tokens *)

Section SketchGuard.
Context {C : Collaborators}.

Lemma sketch_of_no_tokens text :
  jieba_cut (re_sub_ws text) = [] →
  sketch_of text = replicate num_perm_default _max_hash.
Proof. intros Ht. unfold sketch_of. by rewrite Ht. Qed.

Lemma empty_segment_not_returned threshold (segments : list str) k segment mh :
  segments !! k = Some segment → jieba_cut (re_sub_ws segment) = [] →
  k ∉ lsh_query (build_index threshold (compute_minhash segments)) mh.
Proof.
  intros Hs Htok (mh' & Hin & _ & Hne & _)%elem_of_lsh_query.
  apply elem_of_build_index in Hin as (segment' & Hs' & ->).
  rewrite Hs in Hs'. injection Hs' as <-. apply Hne.
  rewrite (sketch_of_no_tokens _ Htok). apply is_empty_sketch_replicate.
Qed.

(** C3.  The sketch of a text unit without tokens consists of the sentinel
    maximum, and the similarity index never registers such a sketch as
    similar to anything: a query with it returns no match, and a paragraph
    without tokens is returned by no query, not even by one with another
    sketch without tokens.  In the lexical stage a QA pair with such a sketch
    therefore gets no paragraph and is listed for none, a paragraph without
    tokens is never covered, and a QA pair whose combined text has no token
    has such a sketch. *)
Theorem empty_sketch_query text threshold (segments : list str) :
  jieba_cut (re_sub_ws text) = [] →
  let lsh := build_index threshold (compute_minhash segments) in
  sketch_of text = replicate num_perm_default _max_hash ∧
  lsh_query lsh (sketch_of text) = [] ∧
  (∀ k segment mh, segments !! k = Some segment →
        jieba_cut (re_sub_ws segment) = [] → k ∉ lsh_query lsh mh) ∧
  (∀ qa_hashes cs j q,
     compute_lsh_coverage (compute_minhash segments) qa_hashes threshold = Ok cs →
     qa_hashes !! j = Some q → qh_minhash q = sketch_of text →
     dd_get j (qa_matches cs) = [] ∧ ∀ i, j ∉ dd_get i (paragraph_coverage cs)) ∧
  (∀ qa_hashes cs k segment,
     compute_lsh_coverage (compute_minhash segments) qa_hashes threshold = Ok cs →
     segments !! k = Some segment → jieba_cut (re_sub_ws segment) = [] →
     (k ∉ covered_paragraphs cs) ∧ dd_get k (paragraph_coverage cs) = []) ∧
  (∀ qa_data j q,
     compute_qa_minhash qa_data !! j = Some q →
     jieba_cut (re_sub_ws (qh_question q ++ [SPACE] ++ qh_answer q)) = [] →
     qh_minhash q = replicate num_perm_default _max_hash).
Proof.
  intros Htok lsh.
  assert (Hq : lsh_query lsh (sketch_of text) = []).
  { apply lsh_query_empty_sketch. rewrite (sketch_of_no_tokens _ Htok).
    apply is_empty_sketch_replicate. }
  split; [by apply sketch_of_no_tokens|]. split; [exact Hq|].
  split; [intros k segment mh; apply empty_segment_not_returned|].
  split; [|split].
  - intros qa_hashes cs j q Hcs Hj Hmh.
    apply compute_lsh_coverage_Ok_inv in Hcs as (_ & _ & Hpc & Hqm & _).
    assert (candidates lsh qa_hashes j = []) as Hcand.
    { unfold candidates. rewrite Hj. simpl. by rewrite Hmh. }
    split.
    + rewrite Hqm. fold lsh. by rewrite run_queries_qas.
    + intros i. rewrite Hpc. fold lsh. rewrite run_queries_paragraphs.
      intros [Hi _]%list_elem_of_filter. rewrite Hcand in Hi.
      by apply elem_of_nil in Hi.
  - intros qa_hashes cs k segment Hcs Hs Hseg.
    apply compute_lsh_coverage_Ok_inv in Hcs as (_ & Hcov & Hpc & _).
    split.
    + rewrite Hcov. intros (q & _ & Hk)%elem_of_run_queries.
      by eapply empty_segment_not_returned.
    + rewrite Hpc. fold lsh. rewrite run_queries_paragraphs.
      destruct (filter _ _) as [|j l] eqn:E; [done|]. exfalso.
      assert (j ∈ filter (λ j, k ∈ candidates lsh qa_hashes j)
                         (seq 0 (length qa_hashes))) as Hj by (rewrite E; by left).
      apply list_elem_of_filter in Hj as [Hk _]. unfold candidates in Hk.
      destruct (qa_hashes !! j) as [q|]; simpl in Hk; [|by apply elem_of_nil in Hk].
      by eapply empty_segment_not_returned.
  - intros qa_data j q Hj Hno. rewrite compute_qa_minhash_units in Hj.
    rewrite list_lookup_fmap in Hj.
    destruct (qa_units qa_data !! j) as [u|]; [|done]. injection Hj as <-.
    simpl in *. by apply sketch_of_no_tokens.
Qed.

End SketchGuard.

Section SketchRuns.
Import Sample.
Existing Instance collab_words.

Lemma empty_sketch_query_witness :
  jieba_cut (re_sub_ws (qa_text_of qa_bare)) = [] ∧
  sketch_of (qa_text_of qa_bare) = replicate num_perm_default _max_hash ∧
  lsh_query (build_index 0.3 (compute_minhash [doc1])) (sketch_of (qa_text_of qa_bare))
    = [].
Proof.
  assert (jieba_cut (re_sub_ws (qa_text_of qa_bare)) = []) as H by reflexivity.
  split; [exact H|].
  destruct (empty_sketch_query (qa_text_of qa_bare) 0.3%Q [doc1] H) as (H1 & H2 & _).
  exact (conj H1 H2).
Defined.

End SketchRuns.

(** * Further runs on the sample inputs *)

Section MoreRuns.
Import Sample.
Existing Instance collab.

Lemma split_document_segments_witness :
  doc1 ∈ split_document doc1 ∧
  50 ≤ length doc1 ∧ substring_of doc1 doc1 ∧ strip doc1 = doc1.
Proof.
  assert (doc1 ∈ split_document doc1) as H.
  { apply (bool_decide_unpack _). vm_compute. exact I. }
  split; [exact H|].
  destruct (split_document_segments doc1 doc1 H) as (H1 & H2 & H3 & _).
  exact (conj H1 (conj H2 H3)).
Defined.


Lemma few_segments_are_single_lines_witness :
  (length (split_document doc1) < 5 ∧ doc1 ∈ split_document doc1) ∧ LF ∉ doc1.
Proof.
  assert (length (split_document doc1) < 5) as Hlen by (vm_compute; lia).
  assert (doc1 ∈ split_document doc1) as H.
  { apply (bool_decide_unpack _). vm_compute. exact I. }
  split; [exact (conj Hlen H)|].
  exact (few_segments_are_single_lines doc1 doc1 Hlen H).
Defined.

Lemma lexical_links_mirror_witness :
  ∃ cs, compute_lsh_coverage (compute_minhash [doc1])
          (compute_qa_minhash [group "t" [qa_doc]]) 0.3 = Ok cs ∧
        ∀ i j, j ∈ dd_get i (paragraph_coverage cs) ↔ i ∈ dd_get j (qa_matches cs).
Proof.
  destruct (compute_lsh_coverage (compute_minhash [doc1])
              (compute_qa_minhash [group "t" [qa_doc]]) 0.3) as [cs|e] eqn:E.
  - exists cs. split; [reflexivity|].
    exact (proj1 (proj2 (proj2 (lexical_links_mirror _ _ _ cs E)))).
  - vm_compute in E. discriminate E.
Defined.

Lemma lexical_report_adds_up_witness :
  ∃ r, hash_based_evaluation doc1 [group "t" [qa_doc]] 0.3 = Ok r ∧
       hr_covered_paragraphs r.1.1 + length (low_coverage_paragraphs r.1.1) =
         hr_total_paragraphs r.1.1.
Proof.
  destruct (hash_based_evaluation doc1 [group "t" [qa_doc]] 0.3) as [r|e] eqn:E.
  - exists r. split; [reflexivity|].
    exact (proj1 (proj2 (proj2 (proj2 (proj2
             (lexical_report_adds_up doc1 [group "t" [qa_doc]] 0.3%Q r E)))))).
  - vm_compute in E. discriminate E.
Defined.

Lemma model_points_are_appended_witness :
  entity_point (lit "supply", lit "TERM") ∈ extract_knowledge_points doc1 None ∧
  (∃ rest, extract_knowledge_points doc1 (Some two_lines) =
             extract_knowledge_points doc1 None ++ rest) ∧
  paragraph_idx (entity_point (lit "supply", lit "TERM")) = None.
Proof.
  assert (entity_point (lit "supply", lit "TERM") ∈ extract_knowledge_points doc1 None)
    as H.
  { apply (bool_decide_unpack _). vm_compute. exact I. }
  split; [exact H|].
  destruct (model_points_are_appended doc1 two_lines) as (rest & Heq & _ & Hnone & _).
  split; [by exists rest|]. exact (Hnone _ H).
Defined.

Lemma model_points_until_first_failure_witness :
  1 ≤ length (split_document doc1) ∧
  advanced_points_of doc1 (Some two_lines) =
    mjoin (imap (paragraph_points two_lines) (take 1 (split_document doc1))).
Proof.
  assert (1 ≤ length (split_document doc1)) as H by (vm_compute; lia).
  split; [exact H|].
  refine (model_points_until_first_failure doc1 two_lines 1 H _ _).
  - intros i para _ _. eexists. reflexivity.
  - intros para Hpara. vm_compute in Hpara. discriminate Hpara.
Defined.

Lemma model_points_come_from_replies_witness :
  let p := llm_point 0 (lit "goods move to buyers") in
  (p ∈ extract_knowledge_points doc1 (Some two_lines) ∧ paragraph_idx p = Some 0) ∧
  ∃ para reply, split_document doc1 !! 0 = Some para ∧
                reply_of two_lines para = Some reply.
Proof.
  intros p.
  assert (p ∈ extract_knowledge_points doc1 (Some two_lines)) as H.
  { apply (bool_decide_unpack _). vm_compute. exact I. }
  split; [exact (conj H eq_refl)|].
  destruct (model_points_come_from_replies doc1 two_lines p 0 H eq_refl)
    as (para & reply & H1 & H2 & _).
  by exists para, reply.
Defined.

Lemma mappings_follow_qa_pairs_witness :
  let mr := map_qa_to_knowledge [group "t" [qa_doc]] [supply_point] in
  ∃ m, mappings mr = [m] ∧ length (m_answer m) ≤ 103.
Proof.
  intros mr. destruct (mappings mr) as [|m [|m' l]] eqn:E.
  - vm_compute in E. discriminate E.
  - exists m. split; [reflexivity|].
    assert (m ∈ mappings mr) as Hm by (rewrite E; apply list_elem_of_here).
    exact (proj1 (proj2 (proj2 (proj2
             (mappings_follow_qa_pairs [group "t" [qa_doc]] [supply_point]))) m Hm)).
  - vm_compute in E. discriminate E.
Defined.

Lemma coverage_entries_follow_qa_pairs_witness :
  let mr := map_qa_to_knowledge [group "t" [qa_doc]] [supply_point] in
  [supply_point] !! 0 = Some supply_point ∧
  NoDup (ce_qa_id <$> dd_get 0 (knowledge_coverage mr)).
Proof.
  intros mr. split; [reflexivity|].
  exact (proj2 (proj1
    (coverage_entries_follow_qa_pairs [group "t" [qa_doc]] [supply_point])
    0 supply_point eq_refl)).
Defined.

Lemma semantic_counts_add_up_witness :
  let kr := knowledge_mapping_evaluation [] [supply_point] hr_uncovered in
  ∃ g, all_gaps (kr_knowledge_gaps kr) = [g] ∧
       ∃ p, p ∈ [supply_point] ∧ gap_text g = text p ∧ ¬ covered_by [] p.
Proof.
  intros kr. destruct (all_gaps (kr_knowledge_gaps kr)) as [|g [|g' l]] eqn:E.
  - vm_compute in E. discriminate E.
  - exists g. split; [reflexivity|].
    assert (g ∈ all_gaps (kr_knowledge_gaps kr)) as Hg
      by (rewrite E; apply list_elem_of_here).
    exact (proj2 (proj2 (proj2 (proj2
             (semantic_counts_add_up [] [supply_point] hr_uncovered)))) g Hg).
  - vm_compute in E. discriminate E.
Defined.

Lemma weighted_coverage_without_high_priority_witness :
  (∀ p i, p ∈ [supply_point] → paragraph_idx p = Some i →
          i ∉ low_coverage_paragraphs hr_uncovered) ∧
  let stats := kr_coverage_stats
                 (knowledge_mapping_evaluation [group "t" [qa_doc]] [supply_point]
                    hr_uncovered) in
  (weighted_coverage stats == simple_coverage stats)%Q.
Proof.
  assert (∀ p i, p ∈ [supply_point] → paragraph_idx p = Some i →
                 i ∉ low_coverage_paragraphs hr_uncovered) as H.
  { intros p i Hp Hi. apply list_elem_of_singleton in Hp. subst p.
    simpl in Hi. discriminate Hi. }
  split; [exact H|].
  exact (proj1 (weighted_coverage_without_high_priority
                  [group "t" [qa_doc]] [supply_point] hr_uncovered H)).
Defined.


(** Two points, the high one not mapped and the other one mapped: the simple
    coverage is 1/2 and the weighted coverage 1/2.5. *)
Lemma calculate_weighted_coverage_rates_witness :
  let P := [assign_priority [0] (llm_point 0 (lit "goods move to buyers"));
            supply_point] in
  let mr := map_qa_to_knowledge [group "t" [qa_doc]] P in
  ∃ cs, calculate_weighted_coverage_raising mr P = Ok cs ∧
        (simple_coverage cs == 1 # 2)%Q ∧ (weighted_coverage cs == 2 # 5)%Q.
Proof.
  intros P mr.
  destruct (calculate_weighted_coverage_rates mr P)
    as (cs & Hr & _ & _ & _ & _ & _ & Hs & Hw & _).
  exists cs. split; [exact Hr|]. split.
  - rewrite Hs. vm_compute. reflexivity.
  - rewrite Hw. vm_compute. reflexivity.
Defined.

Lemma topic_coverage_counts_witness :
  let mr := map_qa_to_knowledge [group "t" [qa_doc]] [supply_point] in
  let cs := calculate_weighted_coverage mr [supply_point] in
  ∃ ts, topic_coverage cs !! lit "t" = Some ts ∧
        0 < ts_covered_points ts ∧ ts_covered_points ts ≤ covered_points cs.
Proof.
  intros mr cs. destruct (topic_coverage cs !! lit "t") as [ts|] eqn:E.
  - exists ts. split; [reflexivity|].
    destruct (proj2 (topic_coverage_counts [group "t" [qa_doc]] [supply_point] (lit "t"))
                ts E) as (S & _ & _ & Hpos & Hle & _).
    exact (conj Hpos Hle).
  - vm_compute in E. discriminate E.
Defined.

Lemma high_priority_gaps_of_main_witness :
  let p := assign_priority [0] (llm_point 0 (lit "goods move to buyers")) in
  ∃ r, main doc1 [] 0.3 two_lines = Ok r ∧
       kr_prioritized_points r.2 !! 0 = Some p ∧
       gap_of (0, p) ∈ high_priority_gaps (kr_knowledge_gaps r.2) ∧
       gap_priority (gap_of (0, p)) = high.
Proof.
  intros p. destruct (main doc1 [] 0.3 two_lines) as [r|e] eqn:E.
  - exists r.
    destruct (high_priority_gaps_of_main doc1 [] 0.3%Q two_lines r E)
      as (Hgaps & _ & Hfields).
    assert (kr_prioritized_points r.2 !! 0 = Some p) as Hp.
    { pose proof E as E'. vm_compute in E'. injection E' as <-. reflexivity. }
    assert (gap_of (0, p) ∈ high_priority_gaps (kr_knowledge_gaps r.2)) as Hg.
    { apply Hgaps. exists 0, p, 0. split; [exact Hp|]. split; [reflexivity|].
      split; [reflexivity|].
      split; apply (bool_decide_unpack _); vm_compute; exact I. }
    split; [reflexivity|]. split; [exact Hp|]. split; [exact Hg|].
    exact (proj2 (Hfields _ Hg)).
  - vm_compute in E. discriminate E.
Defined.

Lemma no_qa_pairs_cover_nothing_witness :
  (Forall (λ g, get_qa_pairs g = []) [group "t" []] ∧ split_document doc1 ≠ []) ∧
  ∃ r, main doc1 [group "t" []] 0.3 two_lines = Ok r ∧
       hr_covered_paragraphs r.1 = 0 ∧
       gap_count (kr_knowledge_gaps r.2) = total_points (kr_coverage_stats r.2).
Proof.
  assert (Forall (λ g, get_qa_pairs g = []) [group "t" []]) as H1.
  { constructor; [reflexivity|constructor]. }
  assert (split_document doc1 ≠ []) as H2 by (vm_compute; discriminate).
  split; [exact (conj H1 H2)|].
  destruct (no_qa_pairs_cover_nothing doc1 [group "t" []] 0.3%Q two_lines H1 H2)
    as (r & Hr & H0 & _ & _ & _ & _ & _ & _ & _ & _ & Hgaps & _).
  exists r. exact (conj Hr (conj H0 Hgaps)).
Defined.

Lemma report_recommendations_witness :
  let kr := knowledge_mapping_evaluation [group "t" [qa_doc]] [supply_point]
              hr_uncovered in
  high_priority_gap_count (kr_knowledge_gaps kr) = 0 ∧
  uncovered_areas (generate_report hr_uncovered kr) = [].
Proof.
  intros kr.
  assert (high_priority_gap_count (kr_knowledge_gaps kr) = 0) as H
    by (vm_compute; reflexivity).
  split; [exact H|].
  exact (proj2 (proj2 (proj2 (proj2 (proj2 (proj2
           (report_recommendations hr_uncovered kr)))))) H).
Defined.

Lemma report_of_a_run_witness :
  ∃ report, main_report doc1 [group "t" [qa_doc]] 0.3 two_lines = Ok report ∧
            s_covered_knowledge_points (summary report) +
            s_uncovered_knowledge_points (summary report) =
              s_total_knowledge_points (summary report).
Proof.
  destruct (main_report doc1 [group "t" [qa_doc]] 0.3 two_lines) as [report|e] eqn:E.
  - exists report. split; [reflexivity|].
    exact (proj1 (proj2 (proj2
             (report_of_a_run doc1 [group "t" [qa_doc]] 0.3%Q two_lines report E)))).
  - vm_compute in E. discriminate E.
Defined.

Lemma heatmap_cells_witness :
  0 < length [doc1] ∧
  ∃ cells, generate_coverage_heatmap [doc1] links_one !! (0 / 4) = Some cells ∧
           cells !! (0 mod 4) =
             Some (length (dd_get 0 (paragraph_coverage links_one))).
Proof.
  assert (0 < length [doc1]) as H by (simpl; lia).
  split; [exact H|].
  exact (proj1 (proj2 (proj2 (proj2 (proj2 (heatmap_cells [doc1] links_one))))) 0 H).
Defined.

Lemma stages_number_qa_pairs_alike_witness :
  ∃ r d m,
    (hash_based_evaluation doc1 [group "t" [qa_doc]] 0.3 = Ok r ∧
     qa_details r.1.1 !! 0 = Some d ∧
     mappings (map_qa_to_knowledge [group "t" [qa_doc]] [supply_point]) !! 0 = Some m) ∧
    qd_question d = m_question m ∧ qd_topic d = m_topic m.
Proof.
  destruct (hash_based_evaluation doc1 [group "t" [qa_doc]] 0.3) as [r|e] eqn:E.
  - pose proof E as E'. vm_compute in E'. injection E' as <-.
    eexists _, _, _.
    assert (∀ (A : Prop) (B : Prop), A → (A → B) → A ∧ B) as Hand by tauto.
    apply Hand.
    + split; [reflexivity|]. split; reflexivity.
    + intros (_ & Hd & Hm).
      destruct (stages_number_qa_pairs_alike doc1 [group "t" [qa_doc]] 0.3%Q _
                  [supply_point] 0 _ _ E Hd Hm) as (_ & _ & Hq & Ht & _).
      exact (conj Hq Ht).
  - vm_compute in E. discriminate E.
Defined.


(** A [null] under ['question'] is not a missing question: the stage raises
    [TypeError]. *)
Lemma null_question_raises_TypeError :
  hash_based_evaluation_json doc1 json_null 0.3 = Raise TypeError.
Proof. vm_compute. reflexivity. Qed.


Lemma extract_knowledge_points_dedup_witness :
  let e := entity_point (lit "supply", lit "TERM") in
  let p := noun_chunk_point (lit "supply chains") in
  let l := llm_point 0 (lit "goods move to buyers") in
  let q := llm_point 0 (lit "Supply  Chains") in
  (basic_points doc1 ++ advanced_points_of doc1 (Some two_lines) =
     [e] ++ p :: [l] ++ q :: [] ∧
   normalized_text p = normalized_text q) ∧
  extract_knowledge_points doc1 (Some two_lines) =
    unique_points_of ([e] ++ p :: [l] ++ []).
Proof.
  intros e p l q.
  assert (basic_points doc1 ++ advanced_points_of doc1 (Some two_lines) =
            [e] ++ p :: [l] ++ q :: []) as Hall by (vm_compute; reflexivity).
  assert (normalized_text p = normalized_text q) as Hkey by (vm_compute; reflexivity).
  split; [exact (conj Hall Hkey)|].
  exact (proj2 (proj2 (proj2 (proj2 (proj2 (proj2
           (extract_knowledge_points_dedup doc1 (Some two_lines)))))))
           [e] p [l] q [] Hall Hkey).
Defined.

End MoreRuns.
